(** * Synapse operator: config-hash reconciler

    A shallow embedding of the two reconciler variants of the operator
    (the ConfigMap-only controller of [controllers/configmap_controller.go]
    and the generalized ConfigMap/Secret controller) together with the
    hashing helpers they share, and the properties of the convergence
    algorithm established over that embedding. *)

From Stdlib Require Import ZArith Lia List.
From Stdlib.Strings Require Import Ascii String Byte.
From stdpp Require Import base option list sorting strings gmap.

(** ** crypto/sha256 and encoding/hex

    The controller calls the Go standard library for the digest.  The
    functions below follow FIPS 180-4 on 32-bit words held in [Z], with the
    wrap-around of the word arithmetic written out. *)

Module SHA256.
Local Open Scope Z_scope.

Definition wrap32 (x : Z) : Z := x mod 2 ^ 32.

Definition add32 (x y : Z) : Z := wrap32 (x + y).

Definition rotr (n x : Z) : Z :=
  wrap32 (Z.lor (Z.shiftr x n) (Z.shiftl x (32 - n))).

Definition shr (n x : Z) : Z := Z.shiftr x n.

Definition not32 (x : Z) : Z := Z.lxor x 0xffffffff.

Definition Ch (x y z : Z) : Z :=
  Z.lxor (Z.land x y) (Z.land (not32 x) z).

Definition Maj (x y z : Z) : Z :=
  Z.lxor (Z.lxor (Z.land x y) (Z.land x z)) (Z.land y z).

Definition bsig0 (x : Z) : Z :=
  Z.lxor (Z.lxor (rotr 2 x) (rotr 13 x)) (rotr 22 x).

Definition bsig1 (x : Z) : Z :=
  Z.lxor (Z.lxor (rotr 6 x) (rotr 11 x)) (rotr 25 x).

Definition ssig0 (x : Z) : Z :=
  Z.lxor (Z.lxor (rotr 7 x) (rotr 18 x)) (shr 3 x).

Definition ssig1 (x : Z) : Z :=
  Z.lxor (Z.lxor (rotr 17 x) (rotr 19 x)) (shr 10 x).

(** The first [count] primes. *)
Definition is_prime (n : nat) : bool :=
  (1 <? n)%nat && forallb (fun d => negb (n mod d =? 0)%nat) (seq 2 (n - 2)).

Definition primes (count : nat) : list Z :=
  map Z.of_nat (firstn count (List.filter is_prime (seq 2 310))).

(** The integer cube root, one bit at a time from bit [bits - 1] down. *)
Fixpoint cube_root (bits : nat) (n r : Z) : Z :=
  match bits with
  | O => r
  | S bits' =>
    let c := r + 2 ^ Z.of_nat bits' in
    cube_root bits' n (if c * c * c <=? n then c else r)
  end.

(** The first 32 bits of the fractional part of the cube root and of the
    square root of [p]. *)
Definition frac_cube_root (p : Z) : Z :=
  wrap32 (cube_root 36 (p * 2 ^ 96) 0).

Definition frac_square_root (p : Z) : Z :=
  wrap32 (Z.sqrt (p * 2 ^ 64)).

(** The round constants: the fractional parts of the cube roots of the
    first 64 primes. *)
Definition K : list Z :=
  Eval vm_compute in map frac_cube_root (primes 64).

(** The eight working variables / chaining values. *)
Definition state : Type := (Z * Z * Z * Z * Z * Z * Z * Z)%type.

(** The initial hash value: the fractional parts of the square roots of the
    first 8 primes. *)
Definition H0 : state :=
  Eval vm_compute in
  match map frac_square_root (primes 8) with
  | [a; b; c; d; e; f; g; h] => (a, b, c, d, e, f, g, h)
  | _ => (0, 0, 0, 0, 0, 0, 0, 0)
  end.

(** Padding: the byte 0x80, zero bytes up to 56 modulo 64, and the bit
    length of the message as a big-endian 64-bit integer. *)
Definition be_bytes (n : nat) (x : Z) : list Z :=
  map (fun i => Z.shiftr x (8 * Z.of_nat i) mod 256) (rev (seq 0 n)).

Definition pad (msg : list Z) : list Z :=
  let len := Z.of_nat (length msg) in
  msg ++ [0x80] ++ repeat 0 (Z.to_nat ((55 - len) mod 64))
      ++ be_bytes 8 (8 * len).

Fixpoint chunks (fuel : nat) (n : nat) (l : list Z) : list (list Z) :=
  match fuel with
  | O => []
  | S fuel' =>
      match l with
      | [] => []
      | _ => firstn n l :: chunks fuel' n (skipn n l)
      end
  end.

Definition be_word (bs : list Z) : Z :=
  fold_left (fun acc b => acc * 256 + b) bs 0.

Definition block_words (block : list Z) : list Z :=
  map be_word (chunks 16 4 block).

(** The message schedule, kept newest-first while it is extended. *)
Fixpoint schedule (n : nat) (rw : list Z) : list Z :=
  match n with
  | O => rw
  | S n' =>
      let w :=
        add32 (add32 (ssig1 (nth 1 rw 0)) (nth 6 rw 0))
              (add32 (ssig0 (nth 14 rw 0)) (nth 15 rw 0)) in
      schedule n' (w :: rw)
  end.

Definition round (s : state) (kw : Z * Z) : state :=
  let '(a, b, c, d, e, f, g, h) := s in
  let t1 := add32 (add32 (add32 h (bsig1 e)) (add32 (Ch e f g) (fst kw)))
                  (snd kw) in
  let t2 := add32 (bsig0 a) (Maj a b c) in
  (add32 t1 t2, a, b, c, add32 d t1, e, f, g).

Definition compress (s : state) (block : list Z) : state :=
  let w := rev (schedule 48 (rev (block_words block))) in
  let '(a, b, c, d, e, f, g, h) := fold_left round (combine K w) s in
  let '(a0, b0, c0, d0, e0, f0, g0, h0) := s in
  (add32 a0 a, add32 b0 b, add32 c0 c, add32 d0 d,
   add32 e0 e, add32 f0 f, add32 g0 g, add32 h0 h).

Definition byte_of_Z (x : Z) : byte :=
  byte_of_ascii (ascii_of_N (Z.to_N x)).

Definition Z_of_byte (b : byte) : Z := Z.of_N (Byte.to_N b).

Definition word_bytes (x : Z) : list byte :=
  [ byte_of_Z (Z.shiftr x 24 mod 256); byte_of_Z (Z.shiftr x 16 mod 256);
    byte_of_Z (Z.shiftr x 8 mod 256); byte_of_Z (x mod 256) ].

Definition digest (s : state) : list byte :=
  let '(a, b, c, d, e, f, g, h) := s in
  word_bytes a ++ word_bytes b ++ word_bytes c ++ word_bytes d ++
  word_bytes e ++ word_bytes f ++ word_bytes g ++ word_bytes h.

(** [sha256.New(); Write(msg); Sum(nil)] *)
Definition sum (msg : list byte) : list byte :=
  let padded := pad (map Z_of_byte msg) in
  digest (fold_left compress (chunks (length padded) 64 padded) H0).

End SHA256.

Module Hex.
Local Open Scope Z_scope.

Definition digit (n : Z) : ascii :=
  nth (Z.to_nat n) (list_ascii_of_string "0123456789abcdef") "0"%char.

(** [hex.EncodeToString] *)
Fixpoint EncodeToString (bs : list byte) : string :=
  match bs with
  | [] => EmptyString
  | b :: bs' =>
      let n := SHA256.Z_of_byte b in
      String (digit (n / 16)) (String (digit (n mod 16)) (EncodeToString bs'))
  end.

End Hex.

(** [hex.EncodeToString(hasher.Sum(nil))] after writing [msg]. *)
Definition sha256_hex (msg : list byte) : string :=
  Hex.EncodeToString (SHA256.sum msg).

(** [[]byte(s)] for a Go string. *)
Definition bytes_of_string (s : string) : list byte := list_byte_of_string s.

(** Two messages on which SHA-256 does not collide.  Different messages
    with one digest exist, none is known; the properties that compare
    fingerprints of different contents take this as their hypothesis, on
    the two messages they compare. *)
Definition CollisionFree (m1 m2 : list byte) : Prop :=
  SHA256.sum m1 = SHA256.sum m2 → m1 = m2.

(** ** Data model

    Go strings are byte sequences ([string]); [[]byte] values are
    [list byte].  A Go map is a [gmap]; a nil map and an empty map are both
    [∅] (the code only takes [len] of, ranges over and indexes its data
    maps, which does not tell them apart).  The exclusion sets are
    [map[string]struct{}] values that [parseKeySet] may leave nil, hence
    the [option]. *)

Record ObjectMeta : Type := mkMeta {
  Namespace : string;
  Name : string;
  Labels : gmap string string;
}.

Record ConfigMap : Type := mkConfigMap {
  cmMeta : ObjectMeta;
  Data : gmap string string;
  BinaryData : gmap string (list byte);
}.

Record Secret : Type := mkSecret {
  secMeta : ObjectMeta;
  SecretData : gmap string (list byte);
}.

Definition cmName (cfg : ConfigMap) : string := Name (cmMeta cfg).
Definition secName (secret : Secret) : string := Name (secMeta secret).

Abbreviation KeySet := (option (gset string)).

(** [len(m)] for a possibly nil key set. *)
Definition keySetLen (ignoredKeys : KeySet) : nat :=
  match ignoredKeys with
  | None => 0
  | Some s => size s
  end.

(** The keys a [for k := range m] visits.  Go leaves the order unspecified;
    every use below sorts the collected keys before hashing. *)
Definition rangeKeys {V : Type} (m : gmap string V) : list string :=
  (map_to_list m).*1.

(** Go's [m[key]] on a string-valued map: the zero value when absent. *)
Definition index {V : Type} (zero : V) (m : gmap string V) (key : string) : V :=
  default zero (m !! key).

(** Record updates: the ConfigMap with another [Data] or [BinaryData]. *)
Definition withData (cfg : ConfigMap) (d : gmap string string) : ConfigMap :=
  mkConfigMap (cmMeta cfg) d (BinaryData cfg).

Definition withBinaryData (cfg : ConfigMap) (b : gmap string (list byte))
    : ConfigMap :=
  mkConfigMap (cmMeta cfg) (Data cfg) b.

(** ** Byte order on strings, [sort.Strings] and [sort.Slice] *)

Definition string_le (s1 s2 : string) : Prop := String.leb s1 s2 = true.

#[global] Instance string_le_dec : RelDecision string_le.
Proof. intros s1 s2. unfold string_le. apply _. Defined.

Definition sortStrings (keys : list string) : list string :=
  merge_sort string_le keys.

(** ** Key filter *)

Definition shouldIgnoreKey (key : string) (ignoredKeys : KeySet) : bool :=
  if decide (keySetLen ignoredKeys = 0) then false
  else match ignoredKeys with
       | None => false
       | Some s => bool_decide (key ∈ s)
       end.

(** Membership of a key in a possibly nil exclusion set. *)
Definition inKeySet (k : string) (ignoredKeys : KeySet) : Prop :=
  match ignoredKeys with
  | None => False
  | Some s => k ∈ s
  end.

(** A key that takes part in the fingerprint under [ignoredKeys]. *)
Definition survives (ignoredKeys : KeySet) (k : string) : Prop :=
  shouldIgnoreKey k ignoredKeys = false.

(** ** Source fingerprints *)

(** [k[i:j]] and [k[i:]] on a string whose length is at least [i]. *)
Definition slice (i j : nat) (k : string) : string := substring i (j - i) k.
Definition sliceFrom (i : nat) (k : string) : string :=
  substring i (String.length k - i) k.

(** The keys of [m] that survive the filter, each prefixed with [tag], in
    the order of the range loop. *)
Definition collectKeys {V : Type} (tag : string) (m : gmap string V)
    (ignoredKeys : KeySet) : list string :=
  map (String.append tag)
      (filter (fun k => shouldIgnoreKey k ignoredKeys = false) (rangeKeys m)).

(** What one iteration of the hashing loop of [hashConfigMapContent] writes
    to the hasher for the tagged key [k]. *)
Definition writeConfigMapKey (cfg : ConfigMap) (k : string) : list byte :=
  (if bool_decide (2 < String.length k)%nat && String.eqb (slice 0 2 k) "s:"
   then
     let key := sliceFrom 2 k in
     bytes_of_string "s" ++ bytes_of_string key ++ [x00]
       ++ bytes_of_string (index EmptyString (Data cfg) key)
   else if bool_decide (2 < String.length k)%nat
             && String.eqb (slice 0 2 k) "b:"
   then
     let key := sliceFrom 2 k in
     bytes_of_string "b" ++ bytes_of_string key ++ [x00]
       ++ index [] (BinaryData cfg) key
   else [])
  ++ [x00].

(** The bytes written to the hasher, or [None] where the function returns
    the empty string without hashing. *)
Definition configMapPreimage (cfg : ConfigMap) (ignoredKeys : KeySet)
    : option (list byte) :=
  if bool_decide (size (Data cfg) = 0) && bool_decide (size (BinaryData cfg) = 0)
  then None
  else
    let keys := collectKeys "s:" (Data cfg) ignoredKeys
                  ++ collectKeys "b:" (BinaryData cfg) ignoredKeys in
    if bool_decide (length keys = 0) then None
    else Some (flat_map (writeConfigMapKey cfg) (sortStrings keys)).

Definition hashConfigMapContent (cfg : ConfigMap) (ignoredKeys : KeySet)
    : string :=
  match configMapPreimage cfg ignoredKeys with
  | None => EmptyString
  | Some bs => sha256_hex bs
  end.

Definition writeSecretKey (secret : Secret) (k : string) : list byte :=
  let key := sliceFrom 2 k in
  bytes_of_string "d" ++ bytes_of_string key ++ [x00]
    ++ index [] (SecretData secret) key ++ [x00].

Definition secretPreimage (secret : Secret) (ignoredKeys : KeySet)
    : option (list byte) :=
  if bool_decide (size (SecretData secret) = 0) then None
  else
    let keys := collectKeys "d:" (SecretData secret) ignoredKeys in
    if bool_decide (length keys = 0) then None
    else Some (flat_map (writeSecretKey secret) (sortStrings keys)).

Definition hashSecretContent (secret : Secret) (ignoredKeys : KeySet)
    : string :=
  match secretPreimage secret ignoredKeys with
  | None => EmptyString
  | Some bs => sha256_hex bs
  end.

(** A source all of whose entries are excluded. *)
Definition allExcluded (cfg : ConfigMap) (ignoredKeys : KeySet) : Prop :=
  ∀ k, is_Some (Data cfg !! k) ∨ is_Some (BinaryData cfg !! k) →
       inKeySet k ignoredKeys.

(** ** Aggregate fingerprint *)

Record hashEntry : Type := mkEntry {
  key : string;
  hash : string;
}.

Definition entry_le (e1 e2 : hashEntry) : Prop := string_le (key e1) (key e2).

#[global] Instance entry_le_dec : RelDecision entry_le.
Proof. intros e1 e2. unfold entry_le. apply _. Defined.

(** [sort.Slice(entries, func(i, j) { return entries[i].key < entries[j].key })].
    The Go sort is not stable; on entries with pairwise distinct keys every
    sorting algorithm returns the same list. *)
Definition sortEntries (entries : list hashEntry) : list hashEntry :=
  merge_sort entry_le entries.

Definition configMapEntries (configMaps : list ConfigMap)
    (ignoredConfigMapKeys : KeySet) : list hashEntry :=
  omap (fun cfg =>
          let hash := hashConfigMapContent cfg ignoredConfigMapKeys in
          if String.eqb hash "" then None
          else Some (mkEntry ("configmap/" +:+ Name (cmMeta cfg)) hash))
       configMaps.

Definition secretEntries (secrets : list Secret)
    (ignoredSecretKeys : KeySet) : list hashEntry :=
  omap (fun secret =>
          let hash := hashSecretContent secret ignoredSecretKeys in
          if String.eqb hash "" then None
          else Some (mkEntry ("secret/" +:+ Name (secMeta secret)) hash))
       secrets.

Definition writeEntry (entry : hashEntry) : list byte :=
  bytes_of_string (key entry) ++ [x00] ++ bytes_of_string (hash entry) ++ [x00].

Definition sourcesPreimage (configMaps : list ConfigMap) (secrets : list Secret)
    (ignoredConfigMapKeys ignoredSecretKeys : KeySet) : option (list byte) :=
  let entries := configMapEntries configMaps ignoredConfigMapKeys
                   ++ secretEntries secrets ignoredSecretKeys in
  if bool_decide (length entries = 0) then None
  else Some (flat_map writeEntry (sortEntries entries)).

Definition hashConfigSources (configMaps : list ConfigMap) (secrets : list Secret)
    (ignoredConfigMapKeys ignoredSecretKeys : KeySet) : string :=
  match sourcesPreimage configMaps secrets ignoredConfigMapKeys ignoredSecretKeys with
  | None => EmptyString
  | Some bs => sha256_hex bs
  end.

(** ** Workloads and the object store

    Deployments, DaemonSets and StatefulSets are read and written only
    through their metadata and their pod-template annotations, so the three
    Go types share one record here and the kind travels with each client
    call.  A nil annotation map is [None]. *)

Inductive WorkloadKind : Type := Deployment | DaemonSet | StatefulSet.

Record Workload : Type := mkWorkload {
  wMeta : ObjectMeta;
  Annotations : option (gmap string string);
}.

Definition withAnnotations (w : Workload) (a : option (gmap string string))
    : Workload :=
  mkWorkload (wMeta w) a.

(** [w.Spec.Template.Annotations[key]]: indexing a nil map yields the zero
    value too. *)
Definition annotation (w : Workload) (annotationKey : string) : string :=
  index EmptyString (default ∅ (Annotations w)) annotationKey.

(** [w] with its pod-template annotation [annotationKey] set to [hash]. *)
Definition setAnnotation (w : Workload) (annotationKey hash : string)
    : Workload :=
  withAnnotations w
    (Some (<[annotationKey := hash]> (default ∅ (Annotations w)))).

(** [labels.Selector], through its [Matches] method. *)
Definition Selector : Type := gmap string string → bool.

Definition Everything : Selector := fun _ => true.

(** The selector of a single [key=value] requirement: what
    [client.MatchingLabels{key: value}] selects and what [labels.Parse]
    returns for the text [key=value]. *)
Definition MatchingLabel (k v : string) : Selector :=
  fun ls => bool_decide (ls !! k = Some v).

Inductive Error : Type :=
| NotFound
| Conflict
| Failure (msg : string).

(** [apierrors.IsNotFound] *)
Definition IsNotFound (err : Error) : bool :=
  match err with
  | NotFound => true
  | _ => false
  end.

Inductive Result (A : Type) : Type :=
| Ok (a : A)
| Err (err : Error).
Arguments Ok {A} a.
Arguments Err {A} err.

Record NamespacedName : Type := mkKey {
  keyNamespace : string;
  keyName : string;
}.

(** The calls the reconcilers make on [client.Client], indexed by the type
    of what comes back.  [Patch k obj original] is
    [c.Patch(ctx, obj, client.MergeFrom(original))]. *)
Inductive Call : Type → Type :=
| GetConfigMap (key : NamespacedName) : Call (Result ConfigMap)
| GetSecret (key : NamespacedName) : Call (Result Secret)
| ListConfigMaps (namespace : string) (sel : Selector)
    : Call (Result (list ConfigMap))
| ListSecrets (namespace : string) (sel : Selector)
    : Call (Result (list Secret))
| ListWorkloads (k : WorkloadKind) (namespace : string) (sel : Selector)
    : Call (Result (list Workload))
| Patch (k : WorkloadKind) (obj original : Workload) : Call (option Error).

(** A reconciler is a tree of client calls: each node is a call and the
    continuation says what the code does with the reply. *)
Inductive Prog (A : Type) : Type :=
| Ret (a : A)
| Vis {X : Type} (c : Call X) (k : X → Prog A).
Arguments Ret {A} a.
Arguments Vis {A X} c k.

Fixpoint bind {A B : Type} (p : Prog A) (f : A → Prog B) : Prog B :=
  match p with
  | Ret a => f a
  | Vis c k => Vis c (fun x => bind (k x) f)
  end.

#[global] Instance Prog_ret : MRet Prog := @Ret.
#[global] Instance Prog_bind : MBind Prog := fun A B f p => bind p f.

Definition call {X : Type} (c : Call X) : Prog X := Vis c Ret.

(** One call together with the reply it got. *)
Record Event : Type := mkEvent {
  evType : Type;
  evCall : Call evType;
  evReply : evType;
}.
Arguments mkEvent {evType} evCall evReply.

(** An implementation of the client interface over a store of type [St]. *)
Class Client (St : Type) : Type :=
  perform : ∀ X : Type, Call X → St → X * St.
Arguments perform {St _ X} c s.

(** Running a program against a store: the value returned, the store left
    behind and the calls made, in order. *)
Fixpoint run {St : Type} `{!Client St} {A : Type} (p : Prog A) (s : St)
    : A * St * list Event :=
  match p with
  | Ret a => (a, s, [])
  | Vis c k =>
      let '(x, s1) := perform c s in
      let '(a, s2, t) := run (k x) s1 in
      (a, s2, mkEvent c x :: t)
  end.

(** ** The patch applier *)

(** [patchDeploymentHash], [patchDaemonSetHash] and [patchStatefulSetHash]
    have the same body on their own workload type.  The Go functions mutate
    the workload through the pointer they receive; the first component of
    the result is that workload as the function leaves it (annotation set;
    what the client decodes into it from the server's reply is left out),
    the other two are the values returned. *)
Definition patchWorkloadHash (k : WorkloadKind) (deploy : Workload)
    (annotationKey hash : string) : Prog (Workload * (bool * option Error)) :=
  let original := deploy in
  let deploy :=
    match Annotations deploy with
    | None => withAnnotations deploy (Some ∅)
    | Some _ => deploy
    end in
  if String.eqb (annotation deploy annotationKey) hash then
    mret (deploy, (false, None))
  else
    let deploy :=
      withAnnotations deploy
        (Some (<[annotationKey := hash]> (default ∅ (Annotations deploy)))) in
    err ← call (Patch k deploy original);
    mret (deploy, (true, err)).

Definition patchDeploymentHash := patchWorkloadHash Deployment.
Definition patchDaemonSetHash := patchWorkloadHash DaemonSet.
Definition patchStatefulSetHash := patchWorkloadHash StatefulSet.

(** ** The generalized reconciler *)

Record ConfigMapReconciler : Type := mkReconciler {
  LabelSelector : option Selector;
  ConfigHashAnnotation : string;
  IgnoredConfigMapKeys : KeySet;
  IgnoredSecretKeys : KeySet;
}.

Definition selector (r : ConfigMapReconciler) : Selector :=
  match LabelSelector r with
  | None => Everything
  | Some sel => sel
  end.

Definition computeCombinedHash (r : ConfigMapReconciler) (namespace : string)
    : Prog (Result string) :=
  configMaps ← call (ListConfigMaps namespace (selector r));
  match configMaps with
  | Err err => mret (Err err)
  | Ok configMaps =>
      secrets ← call (ListSecrets namespace (selector r));
      match secrets with
      | Err err => mret (Err err)
      | Ok secrets =>
          mret (Ok (hashConfigSources configMaps secrets
                      (IgnoredConfigMapKeys r) (IgnoredSecretKeys r)))
      end
  end.

(** The loop [for i := range items] of the three [patch*] methods. *)
Fixpoint patchItems (k : WorkloadKind) (items : list Workload)
    (annotationKey hash : string) : Prog (option Error) :=
  match items with
  | [] => mret None
  | deploy :: rest =>
      res ← patchWorkloadHash k deploy annotationKey hash;
      match snd (snd res) with
      | Some err => mret (Some err)
      | None => patchItems k rest annotationKey hash
      end
  end.

Definition patchWorkloads (k : WorkloadKind) (r : ConfigMapReconciler)
    (namespace hash : string) : Prog (option Error) :=
  items ← call (ListWorkloads k namespace (selector r));
  match items with
  | Err err => mret (Some err)
  | Ok items => patchItems k items (ConfigHashAnnotation r) hash
  end.

Definition patchDeployments := patchWorkloads Deployment.
Definition patchDaemonSets := patchWorkloads DaemonSet.
Definition patchStatefulSets := patchWorkloads StatefulSet.

(** What [Reconcile] does once the trigger has been looked up. *)
Definition reconcileNamespace (r : ConfigMapReconciler) (namespace : string)
    : Prog (option Error) :=
  res ← computeCombinedHash r namespace;
  match res with
  | Err err => mret (Some err)
  | Ok hash =>
      if String.eqb hash "" then mret None
      else
        err ← patchDeployments r namespace hash;
        match err with
        | Some err => mret (Some err)
        | None =>
            err ← patchDaemonSets r namespace hash;
            match err with
            | Some err => mret (Some err)
            | None =>
                err ← patchStatefulSets r namespace hash;
                match err with
                | Some err => mret (Some err)
                | None => mret None
                end
            end
        end
  end.

(** [Reconcile] returns [(ctrl.Result{}, err)]; the result is always the
    zero value, so only the error is kept. *)
Definition Reconcile (r : ConfigMapReconciler) (req : NamespacedName)
    : Prog (option Error) :=
  cfg ← call (GetConfigMap req);
  match cfg with
  | Ok _ => reconcileNamespace r (keyNamespace req)
  | Err err =>
      if negb (IsNotFound err) then mret (Some err)
      else
        secret ← call (GetSecret req);
        match secret with
        | Ok _ => reconcileNamespace r (keyNamespace req)
        | Err err =>
            if negb (IsNotFound err) then mret (Some err)
            else reconcileNamespace r (keyNamespace req)
        end
  end.

(** ** The ConfigMap-only reconciler of [controllers/configmap_controller.go] *)

Module Simple.

Definition synapseLabelKey : string := "app.kubernetes.io/name".
Definition synapseLabelValue : string := "synapse".
Definition configHashAnnotKey : string := "synapse.gen0sec.com/config-hash".

Definition configMapPreimage (cfg : ConfigMap) : option (list byte) :=
  if bool_decide (size (Data cfg) = 0)
     && bool_decide (size (BinaryData cfg) = 0)
  then None
  else
    let keys := map (String.append "s:") (rangeKeys (Data cfg))
                  ++ map (String.append "b:") (rangeKeys (BinaryData cfg)) in
    Some (flat_map (writeConfigMapKey cfg) (sortStrings keys)).

Definition hashConfigMapContent (cfg : ConfigMap) : string :=
  match configMapPreimage cfg with
  | None => EmptyString
  | Some bs => sha256_hex bs
  end.

(** The loop over [deployments.Items]. *)
Fixpoint patchItems (items : list Workload) (hash : string)
    : Prog (option Error) :=
  match items with
  | [] => mret None
  | deploy :: rest =>
      let original := deploy in
      let deploy :=
        match Annotations deploy with
        | None => withAnnotations deploy (Some ∅)
        | Some _ => deploy
        end in
      if String.eqb (annotation deploy configHashAnnotKey) hash then
        patchItems rest hash
      else
        let deploy :=
          withAnnotations deploy
            (Some (<[configHashAnnotKey := hash]>
                     (default ∅ (Annotations deploy)))) in
        err ← call (Patch Deployment deploy original);
        match err with
        | Some err => mret (Some err)
        | None => patchItems rest hash
        end
  end.

Definition Reconcile (req : NamespacedName) : Prog (option Error) :=
  cfg ← call (GetConfigMap req);
  match cfg with
  | Err err => if IsNotFound err then mret None else mret (Some err)
  | Ok cfg =>
      if negb (String.eqb
                 (index EmptyString (Labels (cmMeta cfg)) synapseLabelKey)
                 synapseLabelValue)
      then mret None
      else
        let hash := hashConfigMapContent cfg in
        if String.eqb hash "" then mret None
        else
          deployments ←
            call (ListWorkloads Deployment (keyNamespace req)
                    (MatchingLabel synapseLabelKey synapseLabelValue));
          match deployments with
          | Err err => mret (Some err)
          | Ok items => patchItems items hash
          end
  end.

End Simple.

(** ** An in-memory object store

    A store with the five object kinds of the controller and a table of
    injected failures, in the manner of controller-runtime's fake client:
    reads filter by namespace and selector, a patch applies the merge diff
    between [original] and [obj] to the stored object of the same name. *)

Inductive Op : Type :=
| OpGetConfigMap
| OpGetSecret
| OpListConfigMaps
| OpListSecrets
| OpListWorkloads (k : WorkloadKind)
| OpPatch (k : WorkloadKind).

Definition opOf {X : Type} (c : Call X) : Op :=
  match c with
  | GetConfigMap _ => OpGetConfigMap
  | GetSecret _ => OpGetSecret
  | ListConfigMaps _ _ => OpListConfigMaps
  | ListSecrets _ _ => OpListSecrets
  | ListWorkloads k _ _ => OpListWorkloads k
  | Patch k _ _ => OpPatch k
  end.

Record Cluster : Type := mkCluster {
  configMaps : list ConfigMap;
  secrets : list Secret;
  deployments : list Workload;
  daemonSets : list Workload;
  statefulSets : list Workload;
  faults : Op → option Error;
}.

Definition noFaults : Op → option Error := fun _ => None.

Definition workloadsOf (k : WorkloadKind) (cl : Cluster) : list Workload :=
  match k with
  | Deployment => deployments cl
  | DaemonSet => daemonSets cl
  | StatefulSet => statefulSets cl
  end.

Definition setWorkloads (k : WorkloadKind) (ws : list Workload) (cl : Cluster)
    : Cluster :=
  match k with
  | Deployment =>
      mkCluster (configMaps cl) (secrets cl) ws (daemonSets cl)
                (statefulSets cl) (faults cl)
  | DaemonSet =>
      mkCluster (configMaps cl) (secrets cl) (deployments cl) ws
                (statefulSets cl) (faults cl)
  | StatefulSet =>
      mkCluster (configMaps cl) (secrets cl) (deployments cl) (daemonSets cl)
                ws (faults cl)
  end.

Definition hasKey (key : NamespacedName) (m : ObjectMeta) : bool :=
  String.eqb (Namespace m) (keyNamespace key) && String.eqb (Name m) (keyName key).

Definition keyOf (m : ObjectMeta) : NamespacedName :=
  mkKey (Namespace m) (Name m).

(** [client.InNamespace(ns)] with a label selector; the empty namespace
    lists across namespaces. *)
Definition listed (namespace : string) (sel : Selector) (m : ObjectMeta) : bool :=
  (String.eqb namespace "" || String.eqb (Namespace m) namespace) && sel (Labels m).

(** The merge diff from [original] to [obj], applied to the annotations of
    the stored object: entries the diff sets win, entries it removes go. *)
Definition mergeAnnotations (original obj stored : gmap string string)
    : gmap string string :=
  filter (fun kv => original !! kv.1 ≠ Some kv.2) obj
  ∪ filter (fun kv => original !! kv.1 = None ∨ is_Some (obj !! kv.1)) stored.

Definition applyMergePatch (original obj stored : Workload) : Workload :=
  let merged :=
    mergeAnnotations (default ∅ (Annotations original))
                     (default ∅ (Annotations obj))
                     (default ∅ (Annotations stored)) in
  match Annotations stored with
  | None => if decide (merged = ∅) then stored
            else withAnnotations stored (Some merged)
  | Some _ => withAnnotations stored (Some merged)
  end.

Definition getFrom {A : Type} (meta : A → ObjectMeta) (key : NamespacedName)
    (objs : list A) : Result A :=
  match List.find (fun o => hasKey key (meta o)) objs with
  | Some o => Ok o
  | None => Err NotFound
  end.

Definition listFrom {A : Type} (meta : A → ObjectMeta) (namespace : string)
    (sel : Selector) (objs : list A) : list A :=
  List.filter (fun o => listed namespace sel (meta o)) objs.

Definition patchStored (k : WorkloadKind) (obj original : Workload)
    (cl : Cluster) : option Error * Cluster :=
  let target := keyOf (wMeta obj) in
  if existsb (fun w => hasKey target (wMeta w)) (workloadsOf k cl) then
    (None,
     setWorkloads k
       (map (fun w => if hasKey target (wMeta w)
                      then applyMergePatch original obj w else w)
            (workloadsOf k cl))
       cl)
  else (Some NotFound, cl).

Definition clusterPerform (X : Type) (c : Call X) (cl : Cluster) : X * Cluster :=
  match c in Call X return X * Cluster with
  | GetConfigMap key =>
      (match faults cl OpGetConfigMap with
       | Some err => Err err
       | None => getFrom cmMeta key (configMaps cl)
       end, cl)
  | GetSecret key =>
      (match faults cl OpGetSecret with
       | Some err => Err err
       | None => getFrom secMeta key (secrets cl)
       end, cl)
  | ListConfigMaps ns sel =>
      (match faults cl OpListConfigMaps with
       | Some err => Err err
       | None => Ok (listFrom cmMeta ns sel (configMaps cl))
       end, cl)
  | ListSecrets ns sel =>
      (match faults cl OpListSecrets with
       | Some err => Err err
       | None => Ok (listFrom secMeta ns sel (secrets cl))
       end, cl)
  | ListWorkloads k ns sel =>
      (match faults cl (OpListWorkloads k) with
       | Some err => Err err
       | None => Ok (listFrom wMeta ns sel (workloadsOf k cl))
       end, cl)
  | Patch k obj original =>
      match faults cl (OpPatch k) with
      | Some err => (Some err, cl)
      | None => patchStored k obj original cl
      end
  end.

#[global] Instance Cluster_client : Client Cluster := clusterPerform.

(** ** Traces

    What a pass did is read off the list of its events. *)

Definition resultError {A : Type} (r : Result A) : option Error :=
  match r with
  | Ok _ => None
  | Err err => Some err
  end.

(** The error a call came back with, if any. *)
Definition replyError {X : Type} (c : Call X) : X → option Error :=
  match c in Call X return X → option Error with
  | GetConfigMap _ => resultError
  | GetSecret _ => resultError
  | ListConfigMaps _ _ => resultError
  | ListSecrets _ _ => resultError
  | ListWorkloads _ _ _ => resultError
  | Patch _ _ _ => fun err => err
  end.

Definition evOp (ev : Event) : Op := opOf (evCall ev).

Definition evError (ev : Event) : option Error :=
  replyError (evCall ev) (evReply ev).

Definition isGetOp (o : Op) : bool :=
  match o with
  | OpGetConfigMap | OpGetSecret => true
  | _ => false
  end.

Definition isPatchOp (o : Op) : bool :=
  match o with
  | OpPatch _ => true
  | _ => false
  end.

(** Reads are the gets and the lists; the patch is the only write. *)
Definition isRead (ev : Event) : bool := negb (isPatchOp (evOp ev)).
Definition isPatch (ev : Event) : bool := isPatchOp (evOp ev).

(** The kind of workload a call lists or patches. *)
Definition opKind (o : Op) : option WorkloadKind :=
  match o with
  | OpListWorkloads k | OpPatch k => Some k
  | _ => None
  end.

Definition kindIndex (k : WorkloadKind) : nat :=
  match k with
  | Deployment => 0
  | DaemonSet => 1
  | StatefulSet => 2
  end.

(** The error that makes the generalized reconciler give up: any error of a
    list or of a patch, and an error of a get unless it says not-found. *)
Definition fatal (ev : Event) : option Error :=
  match evError ev with
  | Some err => if isGetOp (evOp ev) && IsNotFound err then None else Some err
  | None => None
  end.

(** The place of a call in the fixed order of a pass. *)
Definition opStep (o : Op) : nat :=
  match o with
  | OpGetConfigMap => 0
  | OpGetSecret => 1
  | OpListConfigMaps => 2
  | OpListSecrets => 3
  | OpListWorkloads k => 4 + 2 * kindIndex k
  | OpPatch k => 5 + 2 * kindIndex k
  end.

Definition step (ev : Event) : nat := opStep (evOp ev).

Definition step_le (e1 e2 : Event) : Prop := step e1 ≤ step e2.

(** The sources a successful list call returned. *)
Definition listedConfigMaps (ev : Event) : option (list ConfigMap) :=
  match ev with
  | mkEvent c x =>
      match c in Call X return X → option (list ConfigMap) with
      | ListConfigMaps _ _ =>
          fun r => match r with Ok l => Some l | Err _ => None end
      | _ => fun _ => None
      end x
  end.

Definition listedSecrets (ev : Event) : option (list Secret) :=
  match ev with
  | mkEvent c x =>
      match c in Call X return X → option (list Secret) with
      | ListSecrets _ _ =>
          fun r => match r with Ok l => Some l | Err _ => None end
      | _ => fun _ => None
      end x
  end.

(** The workload a patch call sent. *)
Definition patchedObject (ev : Event) : option Workload :=
  match evCall ev with
  | Patch _ obj _ => Some obj
  | _ => None
  end.

(** A pass either runs through without a fatal reply and returns no error,
    or stops at its first fatal reply and returns that error. *)
Definition StopsAtFirstFatal (res : option Error) (t : list Event) : Prop :=
  (res = None ∧ Forall (fun ev => fatal ev = None) t) ∨
  (∃ t' ev err,
      t = t' ++ [ev] ∧ Forall (fun ev => fatal ev = None) t' ∧
      fatal ev = Some err ∧ res = Some err).

(** A stretch of a pass: its calls lie between two places of the fixed
    order, follow that order, and stop at the first fatal reply. *)
Definition Trail (lo hi : nat) (res : option Error) (t : list Event) : Prop :=
  Forall (fun ev => lo ≤ step ev ≤ hi) t ∧
  StronglySorted step_le t ∧
  StopsAtFirstFatal res t.

(** Weakest precondition over every reply the store may give: [wp p Q]
    says that [Q] holds of the value and of the events of every run. *)
Fixpoint wp {A : Type} (p : Prog A) (Q : A → list Event → Prop) : Prop :=
  match p with
  | Ret a => Q a []
  | Vis c k => ∀ x, wp (k x) (fun a t => Q a (mkEvent c x :: t))
  end.

(** A client whose reads leave the store as it is. *)
Definition ReadsPure (St : Type) `{!Client St} : Prop :=
  ∀ (X : Type) (c : Call X) (s : St),
    isPatchOp (opOf c) = false → (perform c s).2 = s.

(** When the sources a pass listed hash to the empty aggregate, the pass
    returns no error and goes no further than the source lists. *)
Definition QuietOnNoSignal (r : ConfigMapReconciler) (res : option Error)
    (t : list Event) : Prop :=
  ∀ cms secs,
    (∃ ev, ev ∈ t ∧ listedConfigMaps ev = Some cms) →
    (∃ ev, ev ∈ t ∧ listedSecrets ev = Some secs) →
    hashConfigSources cms secs (IgnoredConfigMapKeys r) (IgnoredSecretKeys r)
      = "" →
    res = None ∧ Forall (fun ev => step ev ≤ 3) t.

(** ** Comparing the two reconcilers *)

(** The default configuration of [main]: the selector of the flag default
    [app.kubernetes.io/name=synapse], the default annotation key, and
    exclusion sets left nil. *)
Definition defaultSelector : Selector :=
  MatchingLabel "app.kubernetes.io/name" "synapse".

(** The workloads of kind [k] that the patch calls of a trace sent. *)
Definition patchesOf (k : WorkloadKind) (t : list Event) : list Workload :=
  omap (fun ev =>
          match evCall ev with
          | Patch k' obj _ =>
              if Nat.eqb (kindIndex k') (kindIndex k) then Some obj else None
          | _ => None
          end) t.

Definition needsPatch (annotationKey hash : string) (w : Workload) : bool :=
  negb (String.eqb (annotation w annotationKey) hash).

(** The listed workloads that are not at [hash] yet, with [hash] set. *)
Definition expectedPatches (annotationKey hash : string)
    (items : list Workload) : list Workload :=
  map (fun w => setAnnotation w annotationKey hash)
      (List.filter (needsPatch annotationKey hash) items).

(** The aggregate over a single ConfigMap [name] of fingerprint [f]. *)
Definition aggregateOfOne (name f : string) : string :=
  sha256_hex (writeEntry (mkEntry ("configmap/" +:+ name) f)).

(** Every workload of [items] is stored, under its name, in [cl]. *)
Definition Present (k : WorkloadKind) (items : list Workload) (cl : Cluster)
    : Prop :=
  ∀ w, w ∈ items →
       existsb (fun s => hasKey (keyOf (wMeta w)) (wMeta s)) (workloadsOf k cl)
         = true.

(** ** Sample objects *)

Definition synapseLabels : gmap string string :=
  {[ "app.kubernetes.io/name" := "synapse" ]}.

Definition defaultReconciler : ConfigMapReconciler :=
  mkReconciler (Some (MatchingLabel "app.kubernetes.io/name" "synapse"))
               "synapse.gen0sec.com/config-hash" None None.

(** ConfigMaps and Secrets whose only entry sits under the empty key. *)
Definition emptyKeyConfigMap (v : string) : ConfigMap :=
  mkConfigMap (mkMeta "synapse" "synapse-config" synapseLabels) {[ "" := v ]} ∅.

Definition emptyKeySecret (v : list byte) : Secret :=
  mkSecret (mkMeta "synapse" "synapse-secret" synapseLabels) {[ "" := v ]}.

(** A ConfigMap and a Secret of one name, without entries. *)
Definition bareConfigMap (n : string) : ConfigMap :=
  mkConfigMap (mkMeta "synapse" n synapseLabels) ∅ ∅.

Definition bareSecret (n : string) : Secret :=
  mkSecret (mkMeta "synapse" n synapseLabels) ∅.

(** A ConfigMap and a Secret with one entry each. *)
Definition appConfigMap : ConfigMap :=
  mkConfigMap (mkMeta "synapse" "app" synapseLabels)
              {[ "app.conf" := "x=1" ]} ∅.

Definition appSecret : Secret :=
  mkSecret (mkMeta "synapse" "app" synapseLabels)
           {[ "token" := bytes_of_string "hunter2" ]}.

Definition tlsConfigMap : ConfigMap :=
  mkConfigMap (mkMeta "synapse" "tls" synapseLabels)
              {[ "ca.crt" := "-----BEGIN CERTIFICATE-----" ]}
              {[ "keystore" := [x00; x01; xff] ]}.

Definition upstreamsIgnored : KeySet := Some {[ "upstreams.yaml" ]}.

(** A namespace whose only source has nothing but the excluded key. *)
Definition upstreamsOnly : ConfigMap :=
  mkConfigMap (mkMeta "synapse" "app" synapseLabels)
              {[ "upstreams.yaml" := "servers: []" ]} ∅.

(** A namespace with one labelled ConfigMap and one workload of each
    kind, none of them annotated yet. *)
Definition sampleWorkload (n : string) : Workload :=
  mkWorkload (mkMeta "synapse" n synapseLabels) None.

Definition sampleCluster (f : Op → option Error) : Cluster :=
  mkCluster [appConfigMap] [] [sampleWorkload "web"] [sampleWorkload "agent"]
            [sampleWorkload "db"] f.

Definition appKey : NamespacedName := mkKey "synapse" "app".

(** Stores on which one kind of call fails. *)
Definition daemonSetListFails : Op → option Error :=
  fun o => match o with
           | OpListWorkloads DaemonSet => Some (Failure "etcd timeout")
           | _ => None
           end.

Definition daemonSetPatchFails : Op → option Error :=
  fun o => match o with
           | OpPatch DaemonSet => Some Conflict
           | _ => None
           end.

Definition secretListFails : Op → option Error :=
  fun o => match o with
           | OpListSecrets => Some (Failure "etcd timeout")
           | _ => None
           end.

Definition quietCluster : Cluster :=
  mkCluster [upstreamsOnly] [] [sampleWorkload "web"] [] [] noFaults.

Definition ignoringUpstreams : ConfigMapReconciler :=
  mkReconciler (Some (MatchingLabel "app.kubernetes.io/name" "synapse"))
               "synapse.gen0sec.com/config-hash"
               (Some {[ "upstreams.yaml" ]}) None.

(** The sample pass on the three faulty stores, and the calls that fail. *)
Definition sampleHash : string :=
  hashConfigSources [appConfigMap] [] None None.

Definition daemonSetListFailsRun : option Error * Cluster * list Event :=
  run (Reconcile defaultReconciler appKey) (sampleCluster daemonSetListFails).

Definition daemonSetPatchFailsRun : option Error * Cluster * list Event :=
  run (Reconcile defaultReconciler appKey) (sampleCluster daemonSetPatchFails).

Definition secretListFailsRun : option Error * Cluster * list Event :=
  run (Reconcile defaultReconciler appKey) (sampleCluster secretListFails).

Definition failedDaemonSetPatch : Event :=
  mkEvent (Patch DaemonSet
             (setAnnotation (sampleWorkload "agent")
                            "synapse.gen0sec.com/config-hash" sampleHash)
             (sampleWorkload "agent"))
          (Some Conflict).

Definition failedSecretList : Event :=
  mkEvent (ListSecrets "synapse" (selector defaultReconciler))
          (Err (Failure "etcd timeout")).

Definition quietRun : option Error * Cluster * list Event :=
  run (Reconcile ignoringUpstreams appKey) quietCluster.

Definition quietConfigMapList : Event :=
  mkEvent (ListConfigMaps "synapse" (selector ignoringUpstreams))
          (Ok [upstreamsOnly]).

Definition quietSecretList : Event :=
  mkEvent (ListSecrets "synapse" (selector ignoringUpstreams)) (Ok []).

Definition simpleRun : option Error * Cluster * list Event :=
  run (Simple.Reconcile appKey) (sampleCluster noFaults).

Definition generalizedRun : option Error * Cluster * list Event :=
  run (Reconcile defaultReconciler appKey) (sampleCluster noFaults).

(** ** Flag parsing ([main.go]) *)

(** [strings.Split(value, ",")]: the substrings between the commas; a
    value without a comma, the empty value included, is the one item. *)
Fixpoint splitComma (value : string) : list string :=
  match value with
  | EmptyString => [EmptyString]
  | String c rest =>
      if Ascii.eqb c ","%char then EmptyString :: splitComma rest
      else match splitComma rest with
           | item :: items => String c item :: items
           | [] => [String c EmptyString]
           end
  end.

(** [parseKeySet]; the argument [TrimSpace] stands for [strings.TrimSpace]. *)
Definition parseKeySet (TrimSpace : string → string) (value : string)
    : KeySet :=
  let items := splitComma value in
  if bool_decide (length items = 0) then None
  else
    let entries :=
      fold_left (fun (entries : gset string) item =>
                   let key := TrimSpace item in
                   if String.eqb key "" then entries
                   else {[ key ]} ∪ entries)
                items ∅ in
    if bool_decide (size entries = 0) then None else Some entries.

(** [strings.TrimSpace] on strings of ASCII bytes: the leading and the
    trailing run of tab, line feed, vertical tab, form feed, carriage
    return and space goes. *)
Definition isAsciiSpace (c : ascii) : bool :=
  existsb (Ascii.eqb c)
          ["009"%char; "010"%char; "011"%char; "012"%char; "013"%char;
           " "%char].

Fixpoint trimLeft (s : string) : string :=
  match s with
  | EmptyString => EmptyString
  | String c rest => if isAsciiSpace c then trimLeft rest else s
  end.

Definition asciiTrimSpace (s : string) : string :=
  String.rev (trimLeft (String.rev (trimLeft s))).

(** A value of [Data] in which a NUL byte, the tag and a second key are
    spelled out: what the hashing loop writes for the entries [k1 := v1]
    and [k2 := v2], read as one value under [k1]. *)
Definition spliced (v1 k2 v2 : string) : string :=
  v1 +:+ String Ascii.zero ("s" +:+ k2 +:+ String Ascii.zero v2).

(** [hashConfigMapContent] and [hashSecretContent] with the order in which
    the range loops visit the keys given from outside. *)
Definition collectKeysVisiting (tag : string) (visited : list string)
    (ignoredKeys : KeySet) : list string :=
  map (String.append tag)
      (filter (fun k => shouldIgnoreKey k ignoredKeys = false) visited).

Definition configMapPreimageVisiting (dataOrder binaryOrder : list string)
    (cfg : ConfigMap) (ignoredKeys : KeySet) : option (list byte) :=
  if bool_decide (size (Data cfg) = 0) && bool_decide (size (BinaryData cfg) = 0)
  then None
  else
    let keys := collectKeysVisiting "s:" dataOrder ignoredKeys
                  ++ collectKeysVisiting "b:" binaryOrder ignoredKeys in
    if bool_decide (length keys = 0) then None
    else Some (flat_map (writeConfigMapKey cfg) (sortStrings keys)).

Definition secretPreimageVisiting (dataOrder : list string) (secret : Secret)
    (ignoredKeys : KeySet) : option (list byte) :=
  if bool_decide (size (SecretData secret) = 0) then None
  else
    let keys := collectKeysVisiting "d:" dataOrder ignoredKeys in
    if bool_decide (length keys = 0) then None
    else Some (flat_map (writeSecretKey secret) (sortStrings keys)).

(** The Secret with another [Data]. *)
Definition withSecretData (secret : Secret) (d : gmap string (list byte))
    : Secret :=
  mkSecret (secMeta secret) d.

Definition secretAllExcluded (secret : Secret) (ignoredKeys : KeySet) : Prop :=
  ∀ k, is_Some (SecretData secret !! k) → inKeySet k ignoredKeys.

(** A fingerprint as the annotation holds it: 64 digits of lower-case
    hexadecimal. *)
Definition isHexDigit (c : ascii) : bool :=
  existsb (Ascii.eqb c) (list_ascii_of_string "0123456789abcdef").

Definition isDigest (s : string) : Prop :=
  String.length s = 64 ∧ forallb isHexDigit (list_ascii_of_string s) = true.

(** The same for a value of a Secret, where the tag is [d]. *)
Definition splicedBytes (v1 : list byte) (k2 : string) (v2 : list byte)
    : list byte :=
  v1 ++ [x00] ++ bytes_of_string "d" ++ bytes_of_string k2 ++ [x00] ++ v2.

(** ** What a pass listed and what it sent *)

(** The workloads a successful list call of kind [k] returned. *)
Definition listedWorkloads (k : WorkloadKind) (ev : Event)
    : option (list Workload) :=
  match ev with
  | mkEvent c x =>
      match c in Call X return X → option (list Workload) with
      | ListWorkloads k' _ _ =>
          fun r => match r with
                   | Ok l => if Nat.eqb (kindIndex k') (kindIndex k)
                             then Some l else None
                   | Err _ => None
                   end
      | _ => fun _ => None
      end x
  end.

(** The patch calls of kind [k] in a trace: the object sent and the
    original the merge diff is taken from. *)
Definition patchPairsOf (k : WorkloadKind) (t : list Event)
    : list (Workload * Workload) :=
  omap (fun ev =>
          match evCall ev with
          | Patch k' obj original =>
              if Nat.eqb (kindIndex k') (kindIndex k)
              then Some (obj, original) else None
          | _ => None
          end) t.

(** For the workloads of [items] that are not at [hash] yet, in the order
    of the list: the workload with [hash] set, and the workload as listed. *)
Definition expectedPairs (annotationKey hash : string)
    (items : list Workload) : list (Workload * Workload) :=
  map (fun w => (setAnnotation w annotationKey hash, w))
      (List.filter (needsPatch annotationKey hash) items).

(** The calls within the reach of a pass for [req]: gets of the trigger,
    lists in its namespace under the selector of the reconciler, patches
    that leave the metadata of the workload alone. *)
Definition inScope (r : ConfigMapReconciler) (req : NamespacedName)
    (ev : Event) : Prop :=
  match evCall ev with
  | GetConfigMap key => key = req
  | GetSecret key => key = req
  | ListConfigMaps ns sel => ns = keyNamespace req ∧ sel = selector r
  | ListSecrets ns sel => ns = keyNamespace req ∧ sel = selector r
  | ListWorkloads _ ns sel => ns = keyNamespace req ∧ sel = selector r
  | Patch _ obj original => wMeta obj = wMeta original
  end.

(** A trace without a successful list and without a patch of kind [k]. *)
Definition Untouched (k : WorkloadKind) (t : list Event) : Prop :=
  omap (listedWorkloads k) t = [] ∧ patchPairsOf k t = [].

(** What a pass did about kind [k]: it never came to list it, and failed;
    or it listed it once and sent the expected patches, all of them when
    it returned no error and the first few of them otherwise. *)
Definition KindSummary (k : WorkloadKind) (annotationKey hash : string)
    (res : option Error) (t : list Event) : Prop :=
  (Untouched k t ∧ res ≠ None) ∨
  (∃ items,
      omap (listedWorkloads k) t = [items] ∧
      patchPairsOf k t `prefix_of` expectedPairs annotationKey hash items ∧
      (res = None →
       patchPairsOf k t = expectedPairs annotationKey hash items)).

(** What a pass did as a whole: a source list failed or was never reached,
    and the pass failed without touching a workload; or both lists came
    back, and the pass stopped there on an empty aggregate or went through
    the three kinds with the aggregate. *)
Definition PassSummary (r : ConfigMapReconciler) (res : option Error)
    (t : list Event) : Prop :=
  ((omap listedConfigMaps t = [] ∨ omap listedSecrets t = []) ∧
   res ≠ None ∧ ∀ k, Untouched k t) ∨
  (∃ cms secs,
      omap listedConfigMaps t = [cms] ∧
      omap listedSecrets t = [secs] ∧
      ((hashConfigSources cms secs (IgnoredConfigMapKeys r)
          (IgnoredSecretKeys r) = "" ∧
        res = None ∧ ∀ k, Untouched k t) ∨
       (hashConfigSources cms secs (IgnoredConfigMapKeys r)
          (IgnoredSecretKeys r) ≠ "" ∧
        ∀ k, KindSummary k (ConfigHashAnnotation r)
               (hashConfigSources cms secs (IgnoredConfigMapKeys r)
                  (IgnoredSecretKeys r))
               res t))).

(** ** Stores at rest *)

(** Every stored workload of kind [k] that a list in [namespace] under
    [sel] returns carries [hash] under [annotationKey]. *)
Definition Settled (k : WorkloadKind) (namespace : string) (sel : Selector)
    (annotationKey hash : string) (cl : Cluster) : Prop :=
  ∀ w, w ∈ workloadsOf k cl → listed namespace sel (wMeta w) = true →
       annotation w annotationKey = hash.

(** The same while the loop over the listed workloads is under way: a
    stored workload that is not at [hash] yet has an item of its name still
    to come. *)
Definition Pending (k : WorkloadKind) (namespace : string) (sel : Selector)
    (annotationKey hash : string) (rest : list Workload) (cl : Cluster)
    : Prop :=
  ∀ w, w ∈ workloadsOf k cl → listed namespace sel (wMeta w) = true →
       annotation w annotationKey = hash ∨
       ∃ item, item ∈ rest ∧ wMeta item = wMeta w ∧
               annotation item annotationKey ≠ hash.

(** Two stores that differ at most in their workloads of kind [k]. *)
Definition sameBut (k : WorkloadKind) (cl cl' : Cluster) : Prop :=
  configMaps cl' = configMaps cl ∧ secrets cl' = secrets cl ∧
  faults cl' = faults cl ∧
  ∀ k', k' ≠ k → workloadsOf k' cl' = workloadsOf k' cl.

(** The aggregate over the sources that the store lists in the namespace
    of [req]. *)
Definition storedAggregate (r : ConfigMapReconciler) (req : NamespacedName)
    (cl : Cluster) : string :=
  hashConfigSources
    (listFrom cmMeta (keyNamespace req) (selector r) (configMaps cl))
    (listFrom secMeta (keyNamespace req) (selector r) (secrets cl))
    (IgnoredConfigMapKeys r) (IgnoredSecretKeys r).

(* ================================================================= *)
(** * Properties *)

(** ** The digest *)

Example sha256_abc :
  sha256_hex (bytes_of_string "abc") =
  "ba7816bf8f01cfea414140de5dae2223b00361a396177a9cb410ff61f20015ad".
Proof. vm_compute. reflexivity. Qed.

Example sha256_empty :
  sha256_hex [] =
  "e3b0c44298fc1c149afbf4c8996fb92427ae41e4649b934ca495991b7852b855".
Proof. vm_compute. reflexivity. Qed.

Example sha256_two_blocks :
  sha256_hex (bytes_of_string
    "abcdbcdecdefdefgefghfghighijhijkijkljklmklmnlmnomnopnopq") =
  "248d6a61d20638b8e5c026930c3e6039a33ce45964ff2167f6ecedd419db06c1".
Proof. vm_compute. reflexivity. Qed.

Lemma digest_length (s : SHA256.state) : length (SHA256.digest s) = 32%nat.
Proof. destruct s as [[[[[[[a b] c] d] e] f] g] h]. reflexivity. Qed.

Lemma sum_length (msg : list byte) : length (SHA256.sum msg) = 32%nat.
Proof. unfold SHA256.sum. apply digest_length. Qed.

Lemma hex_length (bs : list byte) :
  String.length (Hex.EncodeToString bs) = (2 * length bs)%nat.
Proof. induction bs as [|b bs IH]; simpl; [reflexivity|]. rewrite IH. lia. Qed.

Lemma sha256_hex_length (msg : list byte) :
  String.length (sha256_hex msg) = 64%nat.
Proof. unfold sha256_hex. rewrite hex_length, sum_length. reflexivity. Qed.

Lemma sha256_hex_nonempty (msg : list byte) : sha256_hex msg ≠ "".
Proof.
  intros H. pose proof (sha256_hex_length msg) as Hl.
  rewrite H in Hl. discriminate.
Qed.

Lemma sha256_hex_eqb_empty (msg : list byte) :
  String.eqb (sha256_hex msg) "" = false.
Proof. apply String.eqb_neq, sha256_hex_nonempty. Qed.

Lemma Z_of_byte_range (b : byte) : (0 ≤ SHA256.Z_of_byte b < 256)%Z.
Proof.
  unfold SHA256.Z_of_byte. pose proof (Byte.to_N_bounded b). lia.
Qed.

Lemma Z_of_byte_inj (b1 b2 : byte) :
  SHA256.Z_of_byte b1 = SHA256.Z_of_byte b2 → b1 = b2.
Proof.
  unfold SHA256.Z_of_byte. intros H. apply N2Z.inj in H.
  pose proof (Byte.of_to_N b1) as H1. rewrite H, Byte.of_to_N in H1.
  congruence.
Qed.

Lemma hex_digit_inj (i j : Z) :
  (0 ≤ i < 16)%Z → (0 ≤ j < 16)%Z → Hex.digit i = Hex.digit j → i = j.
Proof.
  intros Hi Hj.
  assert (Ei : ∃ n, i = Z.of_nat n ∧ (n < 16)%nat)
    by (exists (Z.to_nat i); lia).
  assert (Ej : ∃ n, j = Z.of_nat n ∧ (n < 16)%nat)
    by (exists (Z.to_nat j); lia).
  destruct Ei as (n & -> & Hn), Ej as (m & -> & Hm).
  unfold Hex.digit. rewrite !Nat2Z.id. intros H. f_equal.
  do 16 (destruct n as [|n]; [do 16 (destruct m as [|m];
    [first [reflexivity | discriminate H]|]); lia|]).
  lia.
Qed.

Lemma hex_injective (bs1 bs2 : list byte) :
  Hex.EncodeToString bs1 = Hex.EncodeToString bs2 → bs1 = bs2.
Proof.
  revert bs2. induction bs1 as [|b1 bs1 IH]; intros [|b2 bs2] H;
    simpl in H; try discriminate; [reflexivity|].
  injection H as Hhi Hlo Hrest.
  pose proof (Z_of_byte_range b1) as R1.
  pose proof (Z_of_byte_range b2) as R2.
  apply hex_digit_inj in Hhi;
    [|split; [apply Z.div_pos; lia | apply Z.div_lt_upper_bound; lia]..].
  apply hex_digit_inj in Hlo; [|apply Z.mod_pos_bound; lia..].
  f_equal; [|by apply IH].
  apply Z_of_byte_inj.
  rewrite (Z.div_mod (SHA256.Z_of_byte b1) 16),
          (Z.div_mod (SHA256.Z_of_byte b2) 16) by lia.
  congruence.
Qed.

Lemma sha256_hex_differs (m1 m2 : list byte) :
  CollisionFree m1 m2 → m1 ≠ m2 → sha256_hex m1 ≠ sha256_hex m2.
Proof.
  intros Hfree Hne Heq. apply Hne, Hfree, hex_injective, Heq.
Qed.

(** ** The byte order on strings *)

Lemma ascii_compare_refl (a : ascii) : Ascii.compare a a = Eq.
Proof. unfold Ascii.compare. apply N.compare_refl. Qed.

Lemma string_compare_refl (s : string) : String.compare s s = Eq.
Proof.
  induction s as [|a s IH]; simpl; [reflexivity|].
  by rewrite ascii_compare_refl.
Qed.

Lemma string_compare_lt_trans (s1 s2 s3 : string) :
  String.compare s1 s2 = Lt → String.compare s2 s3 = Lt →
  String.compare s1 s3 = Lt.
Proof.
  revert s2 s3.
  induction s1 as [|a1 s1 IH]; intros [|a2 s2] [|a3 s3]; simpl;
    try congruence.
  unfold Ascii.compare.
  destruct (N.compare_spec (N_of_ascii a1) (N_of_ascii a2)) as [E12|L12|G12];
    destruct (N.compare_spec (N_of_ascii a2) (N_of_ascii a3)) as [E23|L23|G23];
    try congruence; intros H12 H23.
  - rewrite E12, E23, N.compare_refl. eauto.
  - rewrite E12. by apply N.compare_lt_iff in L23 as ->.
  - rewrite <- E23. by apply N.compare_lt_iff in L12 as ->.
  - assert (N_of_ascii a1 < N_of_ascii a3)%N as L13 by lia.
    by apply N.compare_lt_iff in L13 as ->.
Qed.

Lemma string_le_refl : Reflexive string_le.
Proof.
  intros s. unfold string_le, String.leb. by rewrite string_compare_refl.
Qed.

Lemma string_le_total : Total string_le.
Proof. intros s1 s2. apply String.leb_total. Qed.

Lemma string_le_antisym : AntiSymm (=) string_le.
Proof. intros s1 s2. apply String.leb_antisym. Qed.

Lemma string_le_trans : Transitive string_le.
Proof.
  intros s1 s2 s3. unfold string_le, String.leb. intros H12 H23.
  destruct (String.compare s1 s2) eqn:E12; try discriminate;
    destruct (String.compare s2 s3) eqn:E23; try discriminate.
  - apply String.compare_eq_iff in E12, E23. subst.
    by rewrite string_compare_refl.
  - apply String.compare_eq_iff in E12. subst. by rewrite E23.
  - apply String.compare_eq_iff in E23. subst. by rewrite E12.
  - by rewrite (string_compare_lt_trans _ _ _ E12 E23).
Qed.

#[global] Existing Instance string_le_refl.
#[global] Existing Instance string_le_total.
#[global] Existing Instance string_le_antisym.
#[global] Existing Instance string_le_trans.

Lemma sortStrings_sorted (l : list string) : Sorted string_le (sortStrings l).
Proof. apply Sorted_merge_sort. apply _. Qed.

Lemma sortStrings_perm (l : list string) : sortStrings l ≡ₚ l.
Proof. apply merge_sort_Permutation. Qed.

(** Sorting forgets the order in which the keys were collected. *)
Lemma sortStrings_Permutation (l1 l2 : list string) :
  l1 ≡ₚ l2 → sortStrings l1 = sortStrings l2.
Proof.
  intros H. apply (Sorted_unique string_le); try apply sortStrings_sorted.
  by rewrite !sortStrings_perm.
Qed.

(** ** Slices of tagged keys *)

Lemma substring_all (s : string) : substring 0 (String.length s) s = s.
Proof. induction s as [|a s IH]; simpl; [reflexivity|]. by rewrite IH. Qed.

Lemma length_append (s1 s2 : string) :
  String.length (s1 +:+ s2) = (String.length s1 + String.length s2)%nat.
Proof. induction s1 as [|a s1 IH]; simpl; [reflexivity|]. by rewrite IH. Qed.

Lemma sliceFrom_tagged (a b : ascii) (k : string) :
  sliceFrom 2 (String a (String b k)) = k.
Proof.
  unfold sliceFrom. simpl. rewrite Nat.sub_0_r. apply substring_all.
Qed.

Lemma slice_tagged (a b : ascii) (k : string) :
  slice 0 2 (String a (String b k)) = String a (String b "").
Proof. unfold slice. simpl. by destruct k. Qed.

(** ** Key filter *)

Lemma shouldIgnoreKey_nil (k : string) : shouldIgnoreKey k None = false.
Proof. reflexivity. Qed.

Lemma shouldIgnoreKey_empty (k : string) : shouldIgnoreKey k (Some ∅) = false.
Proof. reflexivity. Qed.

Lemma shouldIgnoreKey_Some (k : string) (s : gset string) :
  shouldIgnoreKey k (Some s) = true ↔ k ∈ s.
Proof.
  unfold shouldIgnoreKey. simpl. case_decide as Hsz.
  - apply size_empty_inv in Hsz. split; [discriminate|].
    intros Hk. apply Hsz in Hk. set_solver.
  - apply bool_decide_eq_true.
Qed.

(** C10.  [shouldIgnoreKey] answers false on a nil and on an empty
    exclusion set, and answers true exactly on the members of the set; it
    is a function of its two arguments only. *)
Theorem C10_shouldIgnoreKey_contract :
  (∀ k, shouldIgnoreKey k None = false) ∧
  (∀ k, shouldIgnoreKey k (Some ∅) = false) ∧
  (∀ k ignoredKeys, shouldIgnoreKey k ignoredKeys = true ↔ inKeySet k ignoredKeys).
Proof.
  split; [exact shouldIgnoreKey_nil|].
  split; [exact shouldIgnoreKey_empty|].
  intros k [s|]; simpl.
  - apply shouldIgnoreKey_Some.
  - split; [discriminate | tauto].
Qed.

(** ** The patch applier *)

(** The workload as [patchWorkloadHash] leaves it when it writes. *)
Lemma patchWorkloadHash_set (k : WorkloadKind) (w : Workload)
    (annotationKey hash : string) :
  annotation w annotationKey ≠ hash →
  patchWorkloadHash k w annotationKey hash =
    Vis (Patch k (setAnnotation w annotationKey hash) w)
        (fun err => Ret (setAnnotation w annotationKey hash, (true, err))).
Proof.
  intros Hne. unfold patchWorkloadHash, setAnnotation, annotation in *.
  destruct w as [m [a|]]; simpl in *.
  - apply String.eqb_neq in Hne. by rewrite Hne.
  - apply String.eqb_neq in Hne. by rewrite Hne.
Qed.

Lemma patchWorkloadHash_current (k : WorkloadKind) (w : Workload)
    (annotationKey hash : string) :
  annotation w annotationKey = hash →
  patchWorkloadHash k w annotationKey hash =
    Ret (withAnnotations w (Some (default ∅ (Annotations w))), (false, None)).
Proof.
  intros He. unfold patchWorkloadHash, annotation in *.
  destruct w as [m [a|]]; simpl in *.
  - apply String.eqb_eq in He. by rewrite He.
  - apply String.eqb_eq in He. by rewrite He.
Qed.

Lemma annotation_setAnnotation (w : Workload) (annotationKey hash : string) :
  annotation (setAnnotation w annotationKey hash) annotationKey = hash.
Proof.
  unfold annotation, setAnnotation, index. simpl.
  by rewrite lookup_insert_eq.
Qed.

(** After the merge patch that [patchWorkloadHash] sends, the stored
    workload carries the fingerprint too. *)
Lemma annotation_applyMergePatch (w stored : Workload)
    (annotationKey hash : string) :
  annotation w annotationKey ≠ hash →
  annotation (applyMergePatch w (setAnnotation w annotationKey hash) stored)
             annotationKey = hash.
Proof.
  intros Hne.
  assert (Hset : ∀ sa,
             mergeAnnotations (default ∅ (Annotations w))
               (<[annotationKey := hash]> (default ∅ (Annotations w))) sa
               !! annotationKey = Some hash).
  { intros sa. unfold mergeAnnotations. apply lookup_union_Some_raw. left.
    apply map_lookup_filter_Some. split; [apply lookup_insert_eq|].
    simpl. intros Heq. apply Hne. unfold annotation, index. by rewrite Heq. }
  unfold applyMergePatch.
  change (default ∅ (Annotations (setAnnotation w annotationKey hash)))
    with (<[annotationKey := hash]> (default ∅ (Annotations w))).
  set (merged := mergeAnnotations _ _ _).
  assert (Hm : merged !! annotationKey = Some hash) by apply Hset.
  destruct (Annotations stored) as [a|].
  - unfold annotation, index. simpl. by rewrite Hm.
  - case_decide as Hempty.
    + rewrite Hempty, lookup_empty in Hm. discriminate Hm.
    + unfold annotation, index. simpl. by rewrite Hm.
Qed.

(** Idempotence through the store: once the patch of a first apply went
    through, every stored workload of that name is at the fingerprint, and
    an apply on it as read back from the store makes no call. *)
Lemma patchStored_then_current (k : WorkloadKind) (w s : Workload)
    (annotationKey hash : string) (cl : Cluster) :
  annotation w annotationKey ≠ hash →
  s ∈ workloadsOf k
        (patchStored k (setAnnotation w annotationKey hash) w cl).2 →
  hasKey (keyOf (wMeta w)) (wMeta s) = true →
  ∃ s', patchWorkloadHash k s annotationKey hash = Ret (s', (false, None)).
Proof.
  intros Hne Hin Hkey. eexists. apply patchWorkloadHash_current.
  unfold patchStored in Hin.
  change (wMeta (setAnnotation w annotationKey hash)) with (wMeta w) in Hin.
  destruct (existsb _ _) eqn:Eex; cbn [snd] in Hin.
  - assert (E : ∀ ws, workloadsOf k (setWorkloads k ws cl) = ws)
      by (by destruct k).
    rewrite E in Hin. apply list_elem_of_In, in_map_iff in Hin
      as (s0 & Hs0 & _).
    destruct (hasKey (keyOf (wMeta w)) (wMeta s0)) eqn:E0.
    + subst s. by apply annotation_applyMergePatch.
    + subst s0. congruence.
  - assert (Hall : existsb (fun x => hasKey (keyOf (wMeta w)) (wMeta x))
                     (workloadsOf k cl) = true).
    { apply existsb_exists. exists s. split; [|done].
      by apply list_elem_of_In. }
    congruence.
Qed.

(** C4.  The patch applier is idempotent.  When a first apply reports a
    change without error, applying the same fingerprint to the workload it
    leaves behind returns [(false, nil)] without any client call; and when
    the pod-template annotation already equals the target fingerprint the
    apply returns [(false, nil)] without any client call. *)
Theorem C4_patch_idempotent :
  ∀ (St : Type) (client : Client St) (k : WorkloadKind) (w : Workload)
    (annotationKey hash : string) (s : St),
    (∀ w1 s1 t1,
        run (patchWorkloadHash k w annotationKey hash) s
          = ((w1, (true, None)), s1, t1) →
        patchWorkloadHash k w1 annotationKey hash = Ret (w1, (false, None))) ∧
    (annotation w annotationKey = hash →
     ∃ w1, patchWorkloadHash k w annotationKey hash = Ret (w1, (false, None))).
Proof.
  intros St client k w annotationKey hash s. split.
  - intros w1 s1 t1 Hrun.
    destruct (decide (annotation w annotationKey = hash)) as [He|Hne].
    + rewrite (patchWorkloadHash_current _ _ _ _ He) in Hrun.
      simpl in Hrun. discriminate.
    + rewrite (patchWorkloadHash_set _ _ _ _ Hne) in Hrun. simpl in Hrun.
      destruct (perform _ s) as [err s'] in Hrun. simpl in Hrun.
      injection Hrun as <- _ _ _.
      rewrite patchWorkloadHash_current by apply annotation_setAnnotation.
      reflexivity.
  - intros He. eexists. by apply patchWorkloadHash_current.
Qed.

(** ** Source fingerprints *)

Lemma survives_iff (ignoredKeys : KeySet) (k : string) :
  survives ignoredKeys k ↔ ¬ inKeySet k ignoredKeys.
Proof.
  unfold survives. destruct ignoredKeys as [s|]; simpl.
  - rewrite <- shouldIgnoreKey_Some. by destruct (shouldIgnoreKey k (Some s)).
  - rewrite shouldIgnoreKey_nil. tauto.
Qed.

Lemma elem_of_rangeKeys {V : Type} (m : gmap string V) (k : string) :
  k ∈ rangeKeys m ↔ is_Some (m !! k).
Proof.
  unfold rangeKeys. rewrite list_elem_of_fmap. split.
  - intros ([k' v] & -> & Hin). apply elem_of_map_to_list in Hin. by exists v.
  - intros [v Hv]. exists (k, v). split; [done|]. by apply elem_of_map_to_list.
Qed.

Lemma rangeKeys_NoDup {V : Type} (m : gmap string V) : NoDup (rangeKeys m).
Proof. apply NoDup_fst_map_to_list. Qed.

Lemma rangeKeys_empty {V : Type} (m : gmap string V) :
  size m = 0%nat → rangeKeys m = [].
Proof.
  intros H. apply map_size_empty_inv in H. subst.
  unfold rangeKeys. by rewrite map_to_list_empty.
Qed.

Lemma elem_of_collectKeys {V : Type} (tag : string) (m : gmap string V)
    (ignoredKeys : KeySet) (k : string) :
  k ∈ collectKeys tag m ignoredKeys ↔
  ∃ k0, k = tag +:+ k0 ∧ survives ignoredKeys k0 ∧ is_Some (m !! k0).
Proof.
  unfold collectKeys. rewrite list_elem_of_In, in_map_iff.
  split.
  - intros (k0 & <- & Hin). exists k0. split; [done|].
    apply list_elem_of_In, list_elem_of_filter in Hin as [Hs Hin].
    split; [done|]. by apply elem_of_rangeKeys.
  - intros (k0 & -> & Hs & Hin). exists k0. split; [done|].
    apply list_elem_of_In, list_elem_of_filter. split; [done|].
    by apply elem_of_rangeKeys.
Qed.

(** The collected keys depend only on which surviving keys are present. *)
Lemma collectKeys_Permutation {V W : Type} (tag : string)
    (m : gmap string V) (m' : gmap string W) (ignoredKeys : KeySet) :
  (∀ k, survives ignoredKeys k → is_Some (m !! k) ↔ is_Some (m' !! k)) →
  collectKeys tag m ignoredKeys ≡ₚ collectKeys tag m' ignoredKeys.
Proof.
  intros Hdom. unfold collectKeys. apply Permutation_map.
  apply NoDup_Permutation.
  - apply NoDup_filter, rangeKeys_NoDup.
  - apply NoDup_filter, rangeKeys_NoDup.
  - intros k. rewrite !list_elem_of_filter, !elem_of_rangeKeys.
    split; intros [Hs Hin]; (split; [done|]); by apply (Hdom k Hs).
Qed.

Lemma configMapPreimage_keys (cfg : ConfigMap) (ignoredKeys : KeySet) :
  configMapPreimage cfg ignoredKeys =
    let keys := collectKeys "s:" (Data cfg) ignoredKeys
                  ++ collectKeys "b:" (BinaryData cfg) ignoredKeys in
    if bool_decide (length keys = 0%nat) then None
    else Some (flat_map (writeConfigMapKey cfg) (sortStrings keys)).
Proof.
  unfold configMapPreimage.
  destruct (bool_decide (size (Data cfg) = 0%nat)) eqn:Ed; [|done].
  destruct (bool_decide (size (BinaryData cfg) = 0%nat)) eqn:Eb; [|done].
  apply bool_decide_eq_true in Ed, Eb. simpl.
  unfold collectKeys. by rewrite (rangeKeys_empty _ Ed), (rangeKeys_empty _ Eb).
Qed.

(** What the hashing loop writes for a text entry and for a binary entry:
    the value enters the digest only when the key is not the empty
    string. *)
Lemma writeConfigMapKey_text (cfg : ConfigMap) (k0 : string) :
  writeConfigMapKey cfg ("s:" +:+ k0) =
    (if bool_decide (k0 ≠ "")
     then bytes_of_string "s" ++ bytes_of_string k0 ++ [x00]
            ++ bytes_of_string (index "" (Data cfg) k0)
     else []) ++ [x00].
Proof.
  change ("s:" +:+ k0) with (String "s" (String ":" k0)).
  unfold writeConfigMapKey.
  rewrite slice_tagged, sliceFrom_tagged.
  destruct k0 as [|a k0]; reflexivity.
Qed.

Lemma writeConfigMapKey_binary (cfg : ConfigMap) (k0 : string) :
  writeConfigMapKey cfg ("b:" +:+ k0) =
    (if bool_decide (k0 ≠ "")
     then bytes_of_string "b" ++ bytes_of_string k0 ++ [x00]
            ++ index [] (BinaryData cfg) k0
     else []) ++ [x00].
Proof.
  change ("b:" +:+ k0) with (String "b" (String ":" k0)).
  unfold writeConfigMapKey.
  rewrite slice_tagged, sliceFrom_tagged.
  destruct k0 as [|a k0]; reflexivity.
Qed.

Lemma flat_map_agree {A B : Type} (f g : A → list B) (l : list A) :
  (∀ x, x ∈ l → f x = g x) → flat_map f l = flat_map g l.
Proof.
  induction l as [|x l IH]; intros H; simpl; [reflexivity|].
  rewrite (H x) by left. rewrite IH; [done|].
  intros y Hy. apply H. by right.
Qed.

(** Two ConfigMaps with the same surviving keys and the same values under
    the surviving non-empty keys feed the same bytes to the hasher. *)
Lemma configMapPreimage_agree (cfg cfg' : ConfigMap) (ignoredKeys : KeySet) :
  (∀ k, survives ignoredKeys k →
        is_Some (Data cfg !! k) ↔ is_Some (Data cfg' !! k)) →
  (∀ k, survives ignoredKeys k →
        is_Some (BinaryData cfg !! k) ↔ is_Some (BinaryData cfg' !! k)) →
  (∀ k, survives ignoredKeys k → k ≠ "" → Data cfg !! k = Data cfg' !! k) →
  (∀ k, survives ignoredKeys k → k ≠ "" →
        BinaryData cfg !! k = BinaryData cfg' !! k) →
  configMapPreimage cfg ignoredKeys = configMapPreimage cfg' ignoredKeys.
Proof.
  intros Hd Hb Hdv Hbv. rewrite !configMapPreimage_keys. cbv zeta.
  pose proof (collectKeys_Permutation "s:" _ _ _ Hd) as Ps.
  pose proof (collectKeys_Permutation "b:" _ _ _ Hb) as Pb.
  assert (P : collectKeys "s:" (Data cfg) ignoredKeys
                ++ collectKeys "b:" (BinaryData cfg) ignoredKeys
              ≡ₚ collectKeys "s:" (Data cfg') ignoredKeys
                ++ collectKeys "b:" (BinaryData cfg') ignoredKeys)
    by (by rewrite Ps, Pb).
  rewrite (Permutation_length P), <- (sortStrings_Permutation _ _ P).
  case_bool_decide; [done|]. f_equal.
  apply flat_map_agree. intros k Hin. rewrite sortStrings_perm in Hin.
  apply elem_of_app in Hin as [Hin|Hin];
    apply elem_of_collectKeys in Hin as (k0 & -> & Hs & _).
  - rewrite !writeConfigMapKey_text. case_bool_decide; [|done].
    unfold index. by rewrite (Hdv k0).
  - rewrite !writeConfigMapKey_binary. case_bool_decide; [|done].
    unfold index. by rewrite (Hbv k0).
Qed.

Lemma hashConfigMapContent_agree (cfg cfg' : ConfigMap) (ignoredKeys : KeySet) :
  configMapPreimage cfg ignoredKeys = configMapPreimage cfg' ignoredKeys →
  hashConfigMapContent cfg ignoredKeys = hashConfigMapContent cfg' ignoredKeys.
Proof. unfold hashConfigMapContent. by intros ->. Qed.

Lemma hashConfigMapContent_empty_iff (cfg : ConfigMap) (ignoredKeys : KeySet) :
  hashConfigMapContent cfg ignoredKeys = "" ↔
  configMapPreimage cfg ignoredKeys = None.
Proof.
  unfold hashConfigMapContent.
  destruct (configMapPreimage cfg ignoredKeys) as [bs|]; [|done].
  split; [|done]. intros H. by apply sha256_hex_nonempty in H.
Qed.

Lemma allExcluded_preimage (cfg : ConfigMap) (ignoredKeys : KeySet) :
  allExcluded cfg ignoredKeys → configMapPreimage cfg ignoredKeys = None.
Proof.
  intros Hall. rewrite configMapPreimage_keys. cbv zeta.
  assert (E : ∀ {V} tag (m : gmap string V),
             (∀ k, is_Some (m !! k) → inKeySet k ignoredKeys) →
             collectKeys tag m ignoredKeys = []).
  { intros V tag m Hm. apply elem_of_nil_inv. intros k Hin.
    apply elem_of_collectKeys in Hin as (k0 & _ & Hs & Hin).
    apply survives_iff in Hs. by apply Hs, Hm. }
  rewrite !E; [done|..]; intros k Hk; apply Hall; tauto.
Qed.

Lemma NoDup_collectKeys {V : Type} (tag : string) (m : gmap string V)
    (ignoredKeys : KeySet) :
  NoDup (collectKeys tag m ignoredKeys).
Proof.
  assert (Hinj : ∀ k1 k2, tag +:+ k1 = tag +:+ k2 → k1 = k2).
  { intros k1 k2 H. induction tag as [|a tag IH]; simpl in H; [done|].
    injection H as H. by apply IH. }
  unfold collectKeys.
  assert (Hnd : NoDup (filter (fun k => shouldIgnoreKey k ignoredKeys = false)
                         (rangeKeys m)))
    by apply NoDup_filter, rangeKeys_NoDup.
  induction Hnd as [|k l Hk Hnd IH]; simpl; constructor; [|done].
  rewrite list_elem_of_In, in_map_iff. intros (k' & Heq & Hin).
  apply Hinj in Heq as ->. by apply Hk, list_elem_of_In.
Qed.

Lemma NoDup_configMapKeys (cfg : ConfigMap) (ignoredKeys : KeySet) :
  NoDup (collectKeys "s:" (Data cfg) ignoredKeys
           ++ collectKeys "b:" (BinaryData cfg) ignoredKeys).
Proof.
  apply NoDup_app. split; [apply NoDup_collectKeys|].
  split; [|apply NoDup_collectKeys].
  intros k Hs Hb.
  apply elem_of_collectKeys in Hs as (k1 & -> & _).
  apply elem_of_collectKeys in Hb as (k2 & Hk & _). discriminate Hk.
Qed.

(** Sensitivity at the level of the hashed bytes: changing the value under
    a surviving, non-empty text key changes what is fed to the hasher. *)
Lemma configMapPreimage_value_sensitive (cfg : ConfigMap)
    (ignoredKeys : KeySet) (k v v' : string) :
  survives ignoredKeys k → k ≠ "" → Data cfg !! k = Some v → v ≠ v' →
  configMapPreimage cfg ignoredKeys ≠
  configMapPreimage (withData cfg (<[k := v']> (Data cfg))) ignoredKeys.
Proof.
  intros Hs Hk Hv Hne. rewrite !configMapPreimage_keys. cbv zeta.
  set (cfg' := withData cfg (<[k := v']> (Data cfg))).
  set (keys := collectKeys "s:" (Data cfg) ignoredKeys
                 ++ collectKeys "b:" (BinaryData cfg) ignoredKeys).
  assert (P : keys ≡ₚ collectKeys "s:" (Data cfg') ignoredKeys
                       ++ collectKeys "b:" (BinaryData cfg') ignoredKeys).
  { unfold keys. apply Permutation_app; [|done].
    apply collectKeys_Permutation. intros k0 _. simpl.
    destruct (decide (k = k0)) as [->|Hkk].
    - rewrite lookup_insert_eq, Hv. split; eauto.
    - by rewrite lookup_insert_ne. }
  rewrite <- (Permutation_length P), <- (sortStrings_Permutation _ _ P).
  assert (Hin : "s:" +:+ k ∈ sortStrings keys).
  { rewrite sortStrings_perm. apply elem_of_app. left.
    apply elem_of_collectKeys. exists k. rewrite Hv. eauto. }
  assert (Hnd : NoDup (sortStrings keys)).
  { rewrite sortStrings_perm. apply NoDup_configMapKeys. }
  case_bool_decide as Hlen.
  { apply list_elem_of_split in Hin as (l1 & l2 & E).
    rewrite <- (Permutation_length (sortStrings_perm keys)), E in Hlen.
    rewrite length_app in Hlen. simpl in Hlen. lia. }
  apply list_elem_of_split in Hin as (l1 & l2 & E). rewrite E in *.
  apply NoDup_app in Hnd as (_ & Hl1 & Hnd).
  apply NoDup_cons in Hnd as [Hl2 _].
  assert (Hother : ∀ x, x ≠ "s:" +:+ k → x ∈ sortStrings keys →
                        writeConfigMapKey cfg x = writeConfigMapKey cfg' x).
  { intros x Hx Hxin. rewrite sortStrings_perm in Hxin.
    apply elem_of_app in Hxin as [Hxin|Hxin];
      apply elem_of_collectKeys in Hxin as (k0 & -> & _ & _).
    - rewrite !writeConfigMapKey_text. case_bool_decide; [|done].
      unfold index. simpl. rewrite lookup_insert_ne; [done|].
      intros ->. by apply Hx.
    - by rewrite !writeConfigMapKey_binary. }
  rewrite !flat_map_app. simpl.
  rewrite (flat_map_agree (writeConfigMapKey cfg) (writeConfigMapKey cfg') l1),
          (flat_map_agree (writeConfigMapKey cfg) (writeConfigMapKey cfg') l2).
  - intros Heq. injection Heq as Heq.
    apply app_inv_head, app_inv_tail in Heq.
    rewrite !writeConfigMapKey_text in Heq.
    rewrite !bool_decide_eq_true_2 in Heq by done.
    unfold index in Heq. simpl in Heq. rewrite lookup_insert_eq, Hv in Heq.
    simpl in Heq. injection Heq as Heq.
    apply app_inv_tail, app_inv_head in Heq. injection Heq as Heq.
    apply Hne.
    rewrite <- (string_of_list_byte_of_string v),
            <- (string_of_list_byte_of_string v').
    unfold bytes_of_string in Heq. by rewrite Heq.
  - intros x Hx. apply Hother; [|rewrite E; set_solver].
    intros ->. by apply Hl2.
  - intros x Hx. apply Hother; [|rewrite E; set_solver].
    intros ->. by apply (Hl1 _ Hx); left.
Qed.

(** The value stored under the empty key never reaches the hasher of
    [hashConfigMapContent]: the guard [len(k) > 2] of the hashing loop
    rejects the tagged key ["s:"], whose length is 2. *)
Lemma hashConfigMapContent_empty_key (cfg : ConfigMap) (ignoredKeys : KeySet)
    (v v' : string) :
  hashConfigMapContent (withData cfg (<["" := v]> (Data cfg))) ignoredKeys =
  hashConfigMapContent (withData cfg (<["" := v']> (Data cfg))) ignoredKeys.
Proof.
  apply hashConfigMapContent_agree, configMapPreimage_agree; simpl.
  - intros k _. destruct (decide (k = "")) as [->|Hk].
    + rewrite !lookup_insert_eq. split; eauto.
    + by rewrite !lookup_insert_ne.
  - done.
  - intros k _ Hk. by rewrite !lookup_insert_ne.
  - done.
Qed.

(** [hashSecretContent] slices the tag off without the length guard and
    does hash the value stored under the empty key. *)
Example hashSecretContent_empty_key :
  secretPreimage (emptyKeySecret [x61]) None
    = Some [x64; x00; x61; x00] ∧
  hashSecretContent (emptyKeySecret [x61]) None ≠
  hashSecretContent (emptyKeySecret [x62]) None.
Proof.
  split; [vm_compute; reflexivity|]. vm_compute. discriminate.
Qed.

(** C1.  The claim fails at the empty-string key: with no exclusion set,
    the ConfigMaps whose only entry is [""] with value ["a"] and with
    value ["b"] (a one-byte mutation of a non-excluded entry's value) have
    the same fingerprint, the digest of a single NUL byte. *)
Theorem C1_empty_key_mutation_unseen :
  shouldIgnoreKey "" None = false ∧
  configMapPreimage (emptyKeyConfigMap "a") None = Some [x00] ∧
  configMapPreimage (emptyKeyConfigMap "b") None = Some [x00] ∧
  hashConfigMapContent (emptyKeyConfigMap "a") None
    = "6e340b9cffb37a989ca544e6bb780a2c78901d3fb33738768511a30617afa01d" ∧
  hashConfigMapContent (emptyKeyConfigMap "b") None
    = "6e340b9cffb37a989ca544e6bb780a2c78901d3fb33738768511a30617afa01d".
Proof.
  split; [reflexivity|].
  split; [vm_compute; reflexivity|].
  split; [vm_compute; reflexivity|].
  split; vm_compute; reflexivity.
Qed.

(** ** Aggregate fingerprint *)

Lemma entry_le_total : Total entry_le.
Proof. intros e1 e2. apply string_le_total. Qed.

Lemma entry_le_trans : Transitive entry_le.
Proof. intros e1 e2 e3. apply string_le_trans. Qed.

#[global] Existing Instance entry_le_total.
#[global] Existing Instance entry_le_trans.

Lemma sortEntries_perm (l : list hashEntry) : sortEntries l ≡ₚ l.
Proof. apply merge_sort_Permutation. Qed.

Lemma sortEntries_sorted (l : list hashEntry) : Sorted entry_le (sortEntries l).
Proof. apply Sorted_merge_sort. apply _. Qed.

Lemma NoDup_key_inj (l : list hashEntry) (e1 e2 : hashEntry) :
  NoDup (map key l) → e1 ∈ l → e2 ∈ l → key e1 = key e2 → e1 = e2.
Proof.
  induction l as [|e l IH]; intros Hnd H1 H2 Hk; [by inv H1|].
  simpl in Hnd. apply NoDup_cons in Hnd as [Hnotin Hnd].
  assert (Hmem : ∀ x, x ∈ l → key x ∈ map key l).
  { intros x Hx. apply list_elem_of_In, in_map, list_elem_of_In, Hx. }
  apply elem_of_cons in H1 as [->|H1]; apply elem_of_cons in H2 as [->|H2].
  - done.
  - exfalso. apply Hnotin. rewrite Hk. by apply Hmem.
  - exfalso. apply Hnotin. rewrite <- Hk. by apply Hmem.
  - by apply IH.
Qed.

(** On entries with pairwise distinct keys the sorted list is determined by
    the set of entries, whatever the sorting algorithm. *)
Lemma sortEntries_Permutation (l1 l2 : list hashEntry) :
  NoDup (map key l1) → l1 ≡ₚ l2 → sortEntries l1 = sortEntries l2.
Proof.
  intros Hnd P.
  apply (Sorted_unique_strong entry_le); try apply sortEntries_sorted.
  - intros e1 e2 H1 H2 H12 H21.
    rewrite sortEntries_perm in H1. rewrite sortEntries_perm, <- P in H2.
    apply (NoDup_key_inj l1); try done.
    by apply (anti_symm string_le).
  - by rewrite !sortEntries_perm.
Qed.

Lemma append_inj_r (p s1 s2 : string) : p +:+ s1 = p +:+ s2 → s1 = s2.
Proof.
  induction p as [|a p IH]; simpl; [done|]. intros H. injection H as H. auto.
Qed.

Lemma elem_of_configMapEntries (cms : list ConfigMap) (ign : KeySet)
    (e : hashEntry) :
  e ∈ configMapEntries cms ign →
  ∃ cfg, cfg ∈ cms ∧ key e = "configmap/" +:+ cmName cfg.
Proof.
  unfold configMapEntries. rewrite list_elem_of_omap.
  intros (cfg & Hin & He). exists cfg. split; [done|].
  destruct (String.eqb _ _); [done|]. by injection He as <-.
Qed.

Lemma elem_of_secretEntries (secs : list Secret) (ign : KeySet)
    (e : hashEntry) :
  e ∈ secretEntries secs ign →
  ∃ sec, sec ∈ secs ∧ key e = "secret/" +:+ secName sec.
Proof.
  unfold secretEntries. rewrite list_elem_of_omap.
  intros (sec & Hin & He). exists sec. split; [done|].
  destruct (String.eqb _ _); [done|]. by injection He as <-.
Qed.

Lemma NoDup_configMapEntries (cms : list ConfigMap) (ign : KeySet) :
  NoDup (map cmName cms) → NoDup (map key (configMapEntries cms ign)).
Proof.
  induction cms as [|cfg cms IH]; simpl; intros Hnd; [constructor|].
  apply NoDup_cons in Hnd as [Hnotin Hnd].
  unfold configMapEntries in *. simpl.
  destruct (String.eqb _ _); simpl; [by apply IH|].
  apply NoDup_cons. split; [|by apply IH].
  rewrite list_elem_of_In, in_map_iff. intros (e & Hk & Hin).
  apply list_elem_of_In, elem_of_configMapEntries in Hin as (c & Hc & Hkey).
  rewrite Hkey in Hk. apply append_inj_r in Hk.
  apply Hnotin. change (cmName cfg) with (Name (cmMeta cfg)). rewrite <- Hk.
  apply list_elem_of_In, (in_map cmName), list_elem_of_In, Hc.
Qed.

Lemma NoDup_secretEntries (secs : list Secret) (ign : KeySet) :
  NoDup (map secName secs) → NoDup (map key (secretEntries secs ign)).
Proof.
  induction secs as [|sec secs IH]; simpl; intros Hnd; [constructor|].
  apply NoDup_cons in Hnd as [Hnotin Hnd].
  unfold secretEntries in *. simpl.
  destruct (String.eqb _ _); simpl; [by apply IH|].
  apply NoDup_cons. split; [|by apply IH].
  rewrite list_elem_of_In, in_map_iff. intros (e & Hk & Hin).
  apply list_elem_of_In, elem_of_secretEntries in Hin as (c & Hc & Hkey).
  rewrite Hkey in Hk. apply append_inj_r in Hk.
  apply Hnotin. change (secName sec) with (Name (secMeta sec)). rewrite <- Hk.
  apply list_elem_of_In, (in_map secName), list_elem_of_In, Hc.
Qed.

Lemma NoDup_entries (cms : list ConfigMap) (secs : list Secret)
    (ignC ignS : KeySet) :
  NoDup (map cmName cms) → NoDup (map secName secs) →
  NoDup (map key (configMapEntries cms ignC ++ secretEntries secs ignS)).
Proof.
  intros Hc Hs. rewrite map_app. apply NoDup_app.
  split; [by apply NoDup_configMapEntries|].
  split; [|by apply NoDup_secretEntries].
  intros k Hk1 Hk2.
  apply list_elem_of_In, in_map_iff in Hk1 as (e1 & <- & H1).
  apply list_elem_of_In, in_map_iff in Hk2 as (e2 & Hk & H2).
  apply list_elem_of_In, elem_of_configMapEntries in H1 as (c & _ & E1).
  apply list_elem_of_In, elem_of_secretEntries in H2 as (s & _ & E2).
  rewrite E1, E2 in Hk. discriminate Hk.
Qed.

(** C6.  Order independence: on ConfigMaps and Secrets whose names are
    unique within each list, permuting either list leaves the aggregate
    fingerprint of [hashConfigSources] unchanged, for every pair of
    exclusion sets. *)
Theorem C6_order_independence :
  ∀ (configMaps configMaps' : list ConfigMap) (secrets secrets' : list Secret)
    (ignoredConfigMapKeys ignoredSecretKeys : KeySet),
    NoDup (map cmName configMaps) →
    NoDup (map secName secrets) →
    configMaps ≡ₚ configMaps' →
    secrets ≡ₚ secrets' →
    hashConfigSources configMaps secrets ignoredConfigMapKeys ignoredSecretKeys =
    hashConfigSources configMaps' secrets' ignoredConfigMapKeys ignoredSecretKeys.
Proof.
  intros cms cms' secs secs' ignC ignS Hc Hs Pc Ps.
  unfold hashConfigSources, sourcesPreimage. cbv zeta.
  assert (P : configMapEntries cms ignC ++ secretEntries secs ignS
              ≡ₚ configMapEntries cms' ignC ++ secretEntries secs' ignS).
  { unfold configMapEntries, secretEntries. by rewrite Pc, Ps. }
  rewrite <- (Permutation_length P).
  rewrite <- (sortEntries_Permutation _ _ (NoDup_entries _ _ _ _ Hc Hs) P).
  reflexivity.
Qed.

Lemma configMapEntries_skip (cms1 cms2 : list ConfigMap) (cfg : ConfigMap)
    (ign : KeySet) :
  hashConfigMapContent cfg ign = "" →
  configMapEntries (cms1 ++ cfg :: cms2) ign = configMapEntries (cms1 ++ cms2) ign.
Proof.
  intros H. unfold configMapEntries. rewrite !omap_app. simpl.
  by rewrite H.
Qed.

(** C7.  Exclusion invariance: adding or overwriting an entry under an
    excluded key, or deleting it, in [Data] or in [BinaryData], leaves the
    fingerprint of [hashConfigMapContent] unchanged; and a source all of
    whose entries are excluded has the empty fingerprint, like the source
    without entries, and drops out of the aggregate wherever it stands in
    the list. *)
Theorem C7_exclusion_invariance :
  ∀ (cfg src : ConfigMap) (ignoredKeys ignoredSecretKeys : KeySet)
    (k v : string) (b : list byte)
    (before after : list ConfigMap) (secrets : list Secret),
    inKeySet k ignoredKeys →
    allExcluded src ignoredKeys →
    hashConfigMapContent (withData cfg (<[k := v]> (Data cfg))) ignoredKeys
      = hashConfigMapContent cfg ignoredKeys ∧
    hashConfigMapContent (withData cfg (delete k (Data cfg))) ignoredKeys
      = hashConfigMapContent cfg ignoredKeys ∧
    hashConfigMapContent (withBinaryData cfg (<[k := b]> (BinaryData cfg)))
        ignoredKeys
      = hashConfigMapContent cfg ignoredKeys ∧
    hashConfigMapContent (withBinaryData cfg (delete k (BinaryData cfg)))
        ignoredKeys
      = hashConfigMapContent cfg ignoredKeys ∧
    hashConfigMapContent src ignoredKeys = "" ∧
    hashConfigMapContent (mkConfigMap (cmMeta src) ∅ ∅) ignoredKeys = "" ∧
    hashConfigSources (before ++ src :: after) secrets
        ignoredKeys ignoredSecretKeys
      = hashConfigSources (before ++ after) secrets
          ignoredKeys ignoredSecretKeys.
Proof.
  intros cfg src ign ignS k v b before after secs Hk Hall.
  assert (Hne : ∀ k', survives ign k' → k ≠ k').
  { intros k' Hs ->. by apply survives_iff in Hs. }
  assert (Hsrc : hashConfigMapContent src ign = "")
    by (by apply hashConfigMapContent_empty_iff, allExcluded_preimage).
  split; [|split; [|split; [|split; [|split; [|split]]]]].
  - apply hashConfigMapContent_agree, configMapPreimage_agree; simpl;
      try done; intros k' Hs; intros; by rewrite lookup_insert_ne by auto.
  - apply hashConfigMapContent_agree, configMapPreimage_agree; simpl;
      try done; intros k' Hs; intros; by rewrite lookup_delete_ne by auto.
  - apply hashConfigMapContent_agree, configMapPreimage_agree; simpl;
      try done; intros k' Hs; intros; by rewrite lookup_insert_ne by auto.
  - apply hashConfigMapContent_agree, configMapPreimage_agree; simpl;
      try done; intros k' Hs; intros; by rewrite lookup_delete_ne by auto.
  - done.
  - reflexivity.
  - unfold hashConfigSources, sourcesPreimage.
    by rewrite configMapEntries_skip.
Qed.

Lemma sortEntries_singleton (e : hashEntry) : sortEntries [e] = [e].
Proof. reflexivity. Qed.

Lemma sourcesPreimage_configMap (cfg : ConfigMap) (ignC ignS : KeySet) :
  hashConfigMapContent cfg ignC ≠ "" →
  sourcesPreimage [cfg] [] ignC ignS =
    Some (writeEntry (mkEntry ("configmap/" +:+ cmName cfg)
                              (hashConfigMapContent cfg ignC))).
Proof.
  intros H. apply String.eqb_neq in H.
  unfold sourcesPreimage, configMapEntries. simpl. rewrite H. simpl.
  by rewrite app_nil_r.
Qed.

Lemma sourcesPreimage_secret (sec : Secret) (ignC ignS : KeySet) :
  hashSecretContent sec ignS ≠ "" →
  sourcesPreimage [] [sec] ignC ignS =
    Some (writeEntry (mkEntry ("secret/" +:+ secName sec)
                              (hashSecretContent sec ignS))).
Proof.
  intros H. apply String.eqb_neq in H.
  unfold sourcesPreimage, secretEntries. simpl. rewrite H. simpl.
  by rewrite app_nil_r.
Qed.

(** The identities of a ConfigMap and of a Secret differ in their first
    byte, and so does what they make the aggregate hasher read. *)
Lemma writeEntry_kinds_differ (n f1 f2 : string) :
  writeEntry (mkEntry ("configmap/" +:+ n) f1) ≠
  writeEntry (mkEntry ("secret/" +:+ n) f2).
Proof. unfold writeEntry. simpl. discriminate. Qed.

(** C9, as stated, fails on sources without entries: a ConfigMap and a
    Secret of one name, both empty, have the same (empty) per-source
    fingerprint, contribute nothing, and the two aggregates are the same
    empty string. *)
Lemma C9_empty_sources_coincide :
  cmName (bareConfigMap "app") = secName (bareSecret "app") ∧
  hashConfigMapContent (bareConfigMap "app") None = "" ∧
  hashSecretContent (bareSecret "app") None = "" ∧
  hashConfigSources [bareConfigMap "app"] [] None None =
  hashConfigSources [] [bareSecret "app"] None None.
Proof.
  split; [reflexivity|].
  split; [vm_compute; reflexivity|].
  split; vm_compute; reflexivity.
Qed.

(** C9, amended.  A ConfigMap and a Secret of one name [n] whose
    per-source fingerprints are not empty enter the aggregate under the
    distinct identities [configmap/n] and [secret/n]; the aggregate hasher
    then reads different bytes for a scope holding only the one and a scope
    holding only the other, and the two aggregate fingerprints differ
    unless SHA-256 collides on these two inputs.  Nothing is assumed on the
    per-source fingerprints being different. *)
Theorem C9_kind_disambiguation :
  ∀ (n : string) (cfg : ConfigMap) (sec : Secret) (ignC ignS : KeySet),
    cmName cfg = n →
    secName sec = n →
    hashConfigMapContent cfg ignC ≠ "" →
    hashSecretContent sec ignS ≠ "" →
    CollisionFree
      (writeEntry (mkEntry ("configmap/" +:+ n) (hashConfigMapContent cfg ignC)))
      (writeEntry (mkEntry ("secret/" +:+ n) (hashSecretContent sec ignS))) →
    "configmap/" +:+ n ≠ "secret/" +:+ n ∧
    sourcesPreimage [cfg] [] ignC ignS ≠ sourcesPreimage [] [sec] ignC ignS ∧
    hashConfigSources [cfg] [] ignC ignS ≠ hashConfigSources [] [sec] ignC ignS.
Proof.
  intros n cfg sec ignC ignS Hc Hs Hcfg Hsec Hfree.
  pose proof (writeEntry_kinds_differ n (hashConfigMapContent cfg ignC)
                (hashSecretContent sec ignS)) as Hne.
  unfold hashConfigSources.
  rewrite (sourcesPreimage_configMap _ _ ignS Hcfg),
          (sourcesPreimage_secret _ ignC _ Hsec), Hc, Hs.
  split; [discriminate|]. split; [congruence|].
  by apply sha256_hex_differs.
Qed.

(** C9 on the sample ConfigMap and Secret, both named [app]. *)
Lemma C9_kind_disambiguation_witness :
  "configmap/app" ≠ "secret/app" ∧
  sourcesPreimage [appConfigMap] [] None None
    ≠ sourcesPreimage [] [appSecret] None None ∧
  hashConfigSources [appConfigMap] [] None None
    ≠ hashConfigSources [] [appSecret] None None.
Proof.
  apply (C9_kind_disambiguation "app" appConfigMap appSecret None None).
  - reflexivity.
  - reflexivity.
  - vm_compute. discriminate.
  - vm_compute. discriminate.
  - intros H. vm_compute in H. discriminate H.
Defined.

(** ** Runs and their traces *)

Lemma wp_mono {A : Type} (p : Prog A) (Q Q' : A → list Event → Prop) :
  (∀ a t, Q a t → Q' a t) → wp p Q → wp p Q'.
Proof.
  revert Q Q'. induction p as [a|X c k IH]; intros Q Q' HQ; simpl; [auto|].
  intros Hwp x. eapply IH; [|apply Hwp]. simpl. auto.
Qed.

Lemma wp_bind {A B : Type} (p : Prog A) (f : A → Prog B)
    (Q : B → list Event → Prop) :
  wp p (fun a t1 => wp (f a) (fun b t2 => Q b (t1 ++ t2))) →
  wp (p ≫= f) Q.
Proof.
  unfold mbind, Prog_bind.
  revert Q. induction p as [a|X c k IH]; intros Q; simpl.
  - intros H. eapply wp_mono; [|exact H]. auto.
  - intros H x. apply IH. eapply wp_mono; [|apply H]. simpl.
    intros a t Ha. eapply wp_mono; [|exact Ha]. auto.
Qed.

(** Soundness of [wp]: what it proves holds of every run against every
    client. *)
Lemma wp_run {A : Type} (p : Prog A) (Q : A → list Event → Prop)
    (St : Type) (client : Client St) (s : St) :
  wp p Q → Q (run p s).1.1 (run p s).2.
Proof.
  revert Q s. induction p as [a|X c k IH]; intros Q s; simpl; [auto|].
  intros H. destruct (perform c s) as [x s1] eqn:Ep.
  specialize (IH x _ s1 (H x)).
  destruct (run (k x) s1) as [[a s2] t]. exact IH.
Qed.

(** Without a patch call a pure-read client ends in the store it started
    from. *)
Lemma run_reads_pure {A : Type} (p : Prog A) (St : Type)
    (client : Client St) (s : St) :
  ReadsPure St →
  Forall (fun ev => isPatch ev = false) (run p s).2 →
  (run p s).1.2 = s.
Proof.
  intros Hpure. revert s. induction p as [a|X c k IH]; intros s; simpl; [auto|].
  pose proof (Hpure X c s) as Hc.
  destruct (perform c s) as [x s1]. specialize (IH x s1).
  destruct (run (k x) s1) as [[a s2] t]. simpl in *.
  intros Hall. apply Forall_cons in Hall as [Hev Hall].
  rewrite IH by done. by apply Hc.
Qed.

(** ** Stretches of a pass *)

Lemma Trail_nil (lo hi : nat) : Trail lo hi None [].
Proof.
  split; [constructor|]. split; [constructor|]. left. by split.
Qed.

Lemma Trail_weaken (lo hi lo' hi' : nat) (res : option Error) (t : list Event) :
  lo' ≤ lo → hi ≤ hi' → Trail lo hi res t → Trail lo' hi' res t.
Proof.
  intros Hlo Hhi (Hb & Hs & Hf). split; [|done].
  eapply Forall_impl; [exact Hb|]. simpl. intros ev ?. lia.
Qed.

Lemma Trail_single (ev : Event) :
  Trail (step ev) (step ev) (fatal ev) [ev].
Proof.
  split; [by repeat constructor|].
  split; [by repeat constructor|].
  destruct (fatal ev) as [err|] eqn:E.
  - right. exists [], ev, err. by repeat split.
  - left. split; [done|]. by repeat constructor.
Qed.

(** A stretch that went through, followed by a later stretch. *)
Lemma Trail_app (lo1 hi1 lo2 hi2 : nat) (res : option Error)
    (t1 t2 : list Event) :
  lo1 ≤ lo2 → hi1 ≤ lo2 → hi1 ≤ hi2 →
  Trail lo1 hi1 None t1 → Trail lo2 hi2 res t2 →
  Trail lo1 hi2 res (t1 ++ t2).
Proof.
  intros H1 H2 H3 (Hb1 & Hs1 & Hf1) (Hb2 & Hs2 & Hf2).
  rewrite Forall_forall in Hb1, Hb2.
  split; [|split].
  - apply Forall_app. split; apply Forall_forall; intros ev Hev.
    + specialize (Hb1 ev Hev). lia.
    + specialize (Hb2 ev Hev). lia.
  - apply StronglySorted_app_2; [|done..].
    intros e1 e2 He1 He2. unfold step_le.
    specialize (Hb1 e1 He1). specialize (Hb2 e2 He2). lia.
  - destruct Hf1 as [[_ Hn1]|(t' & ev & err & _ & _ & _ & ?)]; [|done].
    destruct Hf2 as [[-> Hn2]|(t' & ev & err & -> & Hn2 & Hev & ->)].
    + left. split; [done|]. by apply Forall_app.
    + right. exists (t1 ++ t'), ev, err. rewrite app_assoc.
      repeat split; try done. by apply Forall_app.
Qed.

Lemma fatal_patch (k : WorkloadKind) (obj original : Workload)
    (err : option Error) :
  fatal (mkEvent (Patch k obj original) err) = err.
Proof. by destruct err. Qed.

Lemma fatal_list (k : WorkloadKind) (namespace : string) (sel : Selector)
    (res : Result (list Workload)) :
  fatal (mkEvent (ListWorkloads k namespace sel) res) = resultError res.
Proof. by destruct res. Qed.

Lemma wp_patchWorkloadHash (k : WorkloadKind) (w : Workload)
    (annotationKey hash : string) :
  wp (patchWorkloadHash k w annotationKey hash)
     (fun res t => Trail (opStep (OpPatch k)) (opStep (OpPatch k))
                         res.2.2 t).
Proof.
  unfold patchWorkloadHash.
  destruct (String.eqb _ _); [apply Trail_nil|].
  intros err.
  match goal with
  | |- wp _ (fun _ t => _ (?ev :: t)) =>
      pose proof (Trail_single ev) as H
  end.
  rewrite fatal_patch in H. exact H.
Qed.

Lemma wp_patchItems (k : WorkloadKind) (items : list Workload)
    (annotationKey hash : string) :
  wp (patchItems k items annotationKey hash)
     (Trail (opStep (OpPatch k)) (opStep (OpPatch k))).
Proof.
  induction items as [|w items IH]; [apply Trail_nil|].
  cbn [patchItems].
  apply wp_bind. eapply wp_mono; [|apply wp_patchWorkloadHash].
  intros [w' [changed err]] t1 Ht1. cbn [snd] in *.
  destruct err as [err|].
  - cbn [wp mret Prog_ret]. by rewrite app_nil_r.
  - eapply wp_mono; [|apply IH]. intros res t2 Ht2.
    eapply Trail_app; [| | |exact Ht1|exact Ht2]; lia.
Qed.

Lemma wp_patchWorkloads (k : WorkloadKind) (r : ConfigMapReconciler)
    (namespace hash : string) :
  wp (patchWorkloads k r namespace hash)
     (Trail (opStep (OpListWorkloads k)) (opStep (OpPatch k))).
Proof.
  unfold patchWorkloads. intros res.
  pose proof (Trail_single
                (mkEvent (ListWorkloads k namespace (selector r)) res)) as H.
  rewrite fatal_list in H.
  change (step _) with (opStep (OpListWorkloads k)) in H.
  assert (Hle : opStep (OpListWorkloads k) ≤ opStep (OpPatch k))
    by (unfold opStep; lia).
  destruct res as [items|err]; cbn [resultError] in H.
  - eapply wp_mono; [|apply wp_patchItems]. intros res t Ht.
    apply (Trail_app _ _ _ _ _ [_] t) with (4 := H) (5 := Ht); lia.
  - cbn [wp mret Prog_ret]. eapply Trail_weaken; [| |exact H]; lia.
Qed.

(** The shape [err := p; if err != nil { return err }; q] of [Reconcile]. *)
Lemma wp_then (p q : Prog (option Error)) (lo1 hi1 lo2 hi2 : nat) :
  lo1 ≤ lo2 → hi1 ≤ lo2 → hi1 ≤ hi2 →
  wp p (Trail lo1 hi1) → wp q (Trail lo2 hi2) →
  wp (err ← p; match err with
               | Some err => mret (Some err)
               | None => q
               end)
     (Trail lo1 hi2).
Proof.
  intros H1 H2 H3 Hp Hq. apply wp_bind. eapply wp_mono; [|exact Hp].
  intros [err|] t1 Ht1.
  - cbn [wp mret Prog_ret]. rewrite app_nil_r.
    eapply Trail_weaken; [| |exact Ht1]; lia.
  - eapply wp_mono; [|exact Hq]. intros res t2 Ht2.
    by apply (Trail_app lo1 hi1 lo2 hi2).
Qed.

(** The three workload kinds, in the order Deployments, DaemonSets,
    StatefulSets. *)
Lemma wp_patchAll (r : ConfigMapReconciler) (namespace hash : string) :
  wp (err ← patchDeployments r namespace hash;
      match err with
      | Some err => mret (Some err)
      | None =>
          err ← patchDaemonSets r namespace hash;
          match err with
          | Some err => mret (Some err)
          | None =>
              err ← patchStatefulSets r namespace hash;
              match err with
              | Some err => mret (Some err)
              | None => mret None
              end
          end
      end)
     (Trail 4 9).
Proof.
  apply (wp_then _ _ 4 5 6 9); [lia..| |].
  { apply (wp_patchWorkloads Deployment). }
  apply (wp_then _ _ 6 7 8 9); [lia..| |].
  { apply (wp_patchWorkloads DaemonSet). }
  apply (wp_then _ _ 8 9 9 9); [lia..| |].
  { apply (wp_patchWorkloads StatefulSet). }
  apply Trail_nil.
Qed.

Lemma listed_None_late (ev : Event) :
  4 ≤ step ev → listedConfigMaps ev = None ∧ listedSecrets ev = None.
Proof.
  destruct ev as [X c x]. unfold step, evOp. simpl.
  destruct c; simpl; try lia; by intros.
Qed.

Lemma listed_None_early (ev : Event) :
  step ev ≤ 1 → listedConfigMaps ev = None ∧ listedSecrets ev = None.
Proof.
  destruct ev as [X c x]. unfold step, evOp. simpl.
  destruct c; simpl; try lia; by intros.
Qed.

Lemma isPatch_step (ev : Event) : isPatch ev = true → 5 ≤ step ev.
Proof.
  destruct ev as [X c x]. unfold isPatch, step, evOp. simpl.
  destruct c; simpl; try discriminate. lia.
Qed.

Lemma wp_reconcileNamespace (r : ConfigMapReconciler) (namespace : string) :
  wp (reconcileNamespace r namespace)
     (fun res t => Trail 2 9 res t ∧ QuietOnNoSignal r res t).
Proof.
  unfold reconcileNamespace, computeCombinedHash.
  intros [cms0|err1].
  2: { cbn [wp mret Prog_ret mbind Prog_bind bind call]. split.
       - eapply Trail_weaken;
           [| |apply (Trail_single
                        (mkEvent (ListConfigMaps namespace (selector r))
                                 (Err err1)))];
           unfold step; simpl; lia.
       - intros cms secs (ev & Hev & Hl) _ _.
         apply list_elem_of_singleton in Hev as ->. discriminate Hl. }
  intros [secs0|err2].
  2: { cbn [wp mret Prog_ret mbind Prog_bind bind call]. split.
       - apply (Trail_app 2 2 3 9 _ [_] [_]); [lia..| |].
         + apply (Trail_single
                    (mkEvent (ListConfigMaps namespace (selector r))
                             (Ok cms0))).
         + eapply Trail_weaken;
             [| |apply (Trail_single
                          (mkEvent (ListSecrets namespace (selector r))
                                   (Err err2)))];
             unfold step; simpl; lia.
       - intros cms secs _ (ev & Hev & Hl) _.
         apply elem_of_cons in Hev as [->|Hev]; [discriminate Hl|].
         apply list_elem_of_singleton in Hev as ->. discriminate Hl. }
  cbn [wp mret Prog_ret mbind Prog_bind bind call].
  set (ev1 := mkEvent (ListConfigMaps namespace (selector r)) (Ok cms0)).
  set (ev2 := mkEvent (ListSecrets namespace (selector r)) (Ok secs0)).
  assert (Hlists : Trail 2 3 None [ev1; ev2]).
  { apply (Trail_app 2 2 3 3 _ [_] [_]); [lia..| |].
    - apply (Trail_single ev1).
    - apply (Trail_single ev2). }
  destruct (String.eqb _ _) eqn:Ehash.
  - cbn [wp mret Prog_ret]. split.
    + eapply Trail_weaken; [| |exact Hlists]; lia.
    + intros _ _ _ _ _. split; [done|].
      repeat constructor; unfold step; simpl; lia.
  - eapply wp_mono; [|apply wp_patchAll]. intros res t Ht. split.
    + apply (Trail_app 2 3 4 9 _ [ev1; ev2] t); [lia..|done|done].
    + intros cms secs (e1 & He1 & Hl1) (e2 & He2 & Hl2) Hempty.
      exfalso. destruct Ht as (Hb & _ & _). rewrite Forall_forall in Hb.
      assert (cms = cms0) as ->.
      { apply elem_of_cons in He1 as [->|He1]; [by injection Hl1|].
        apply elem_of_cons in He1 as [->|He1]; [discriminate Hl1|].
        destruct (listed_None_late e1) as [E _]; [apply Hb, He1|congruence]. }
      assert (secs = secs0) as ->.
      { apply elem_of_cons in He2 as [->|He2]; [discriminate Hl2|].
        apply elem_of_cons in He2 as [->|He2]; [by injection Hl2|].
        destruct (listed_None_late e2) as [_ E]; [apply Hb, He2|congruence]. }
      apply String.eqb_neq in Ehash. by apply Ehash.
Qed.

Lemma QuietOnNoSignal_cons (r : ConfigMapReconciler) (res : option Error)
    (ev : Event) (t : list Event) :
  step ev ≤ 1 → QuietOnNoSignal r res t → QuietOnNoSignal r res (ev :: t).
Proof.
  intros Hev Hq cms secs (e1 & He1 & Hl1) (e2 & He2 & Hl2) Hempty.
  destruct (listed_None_early ev Hev) as [Ec Es].
  apply elem_of_cons in He1 as [->|He1]; [congruence|].
  apply elem_of_cons in He2 as [->|He2]; [congruence|].
  assert (Hres : res = None ∧ Forall (fun ev => step ev ≤ 3) t)
    by (apply (Hq cms secs); eauto).
  destruct Hres as [-> Hall].
  split; [done|]. constructor; [lia|done].
Qed.

(** Every run of the generalized [Reconcile] follows the fixed order of
    calls, stops at its first fatal reply and returns it, and stays quiet
    when the listed sources carry no signal. *)
Lemma wp_Reconcile (r : ConfigMapReconciler) (req : NamespacedName) :
  wp (Reconcile r req)
     (fun res t => Trail 0 9 res t ∧ QuietOnNoSignal r res t).
Proof.
  unfold Reconcile. intros cfg.
  set (g1 := mkEvent (GetConfigMap req) cfg).
  assert (Hrest : ∀ (pre : list Event),
             Trail 0 1 None pre → Forall (fun ev => step ev ≤ 1) pre →
             wp (reconcileNamespace r (keyNamespace req))
                (fun res t => Trail 0 9 res (pre ++ t)
                              ∧ QuietOnNoSignal r res (pre ++ t))).
  { intros pre Hpre Hsteps. eapply wp_mono; [|apply wp_reconcileNamespace].
    intros res t [Ht Hq]. split.
    - by apply (Trail_app 0 1 2 9); [lia..| |].
    - clear Hpre. induction Hsteps as [|ev pre Hev _ IH]; [done|].
      by apply QuietOnNoSignal_cons. }
  destruct cfg as [cfg|err].
  { cbn [wp mret Prog_ret mbind Prog_bind bind call].
    apply (Hrest [g1]).
    - apply (Trail_weaken 0 0); [lia..|]. apply (Trail_single g1).
    - repeat constructor. }
  cbn [wp mret Prog_ret mbind Prog_bind bind call].
  destruct (IsNotFound err) eqn:Enf; cbn [negb].
  2: { cbn [wp mret Prog_ret]. split.
       - pose proof (Trail_single g1) as H. unfold fatal in H. subst g1.
         cbn in H. rewrite Enf in H.
         eapply Trail_weaken; [| |exact H]; lia.
       - intros cms secs (ev & Hev & Hl) _ _.
         apply list_elem_of_singleton in Hev as ->. discriminate Hl. }
  assert (Hg1 : Trail 0 0 None [g1]).
  { pose proof (Trail_single g1) as H. unfold fatal in H. subst g1.
    cbn in H. rewrite Enf in H. exact H. }
  intros sec.
  set (g2 := mkEvent (GetSecret req) sec).
  destruct sec as [sec|err2].
  { apply (Hrest [g1; g2]).
    - apply (Trail_app 0 0 1 1 _ [_] [_]); [lia..|done|].
      apply (Trail_single g2).
    - repeat constructor. }
  destruct (IsNotFound err2) eqn:Enf2; cbn [negb].
  2: { cbn [wp mret Prog_ret]. split.
       - apply (Trail_app 0 0 1 9 _ [_] [_]); [lia..|done|].
         pose proof (Trail_single g2) as H. unfold fatal in H. subst g2.
         cbn in H. rewrite Enf2 in H.
         eapply Trail_weaken; [| |exact H]; lia.
       - intros cms secs (ev & Hev & Hl) _ _.
         apply elem_of_cons in Hev as [->|Hev]; [discriminate Hl|].
         apply list_elem_of_singleton in Hev as ->. discriminate Hl. }
  apply (Hrest [g1; g2]).
  - apply (Trail_app 0 0 1 1 _ [_] [_]); [lia..|done|].
    pose proof (Trail_single g2) as H. unfold fatal in H. subst g2.
    cbn in H. rewrite Enf2 in H. exact H.
  - repeat constructor.
Qed.

(** ** The pass as a whole *)

Lemma stops_split (res : option Error) (t t1 t2 : list Event) (ev : Event)
    (err : Error) :
  StopsAtFirstFatal res t → t = t1 ++ ev :: t2 → fatal ev = Some err →
  t2 = [] ∧ res = Some err.
Proof.
  intros [[_ Hall]|(t' & ev' & err' & Ht & Hall & Hev' & ->)] -> Hev.
  - rewrite Forall_forall in Hall.
    rewrite Hall in Hev by set_solver. discriminate.
  - rewrite Forall_forall in Hall.
    destruct t2 as [|x t2 _] using rev_ind.
    + apply app_inj_tail in Ht as [_ ->]. split; [done|]. congruence.
    + change (t1 ++ ev :: t2 ++ [x]) with (t1 ++ (ev :: t2) ++ [x]) in Ht.
      rewrite app_assoc in Ht. apply app_inj_tail in Ht as [<- _].
      rewrite Hall in Hev by set_solver. discriminate.
Qed.

Lemma sorted_split (t t1 t2 : list Event) (ev : Event) :
  StronglySorted step_le t → t = t1 ++ ev :: t2 →
  Forall (fun e => step e ≤ step ev) t1.
Proof.
  intros Hs ->. apply Forall_forall. intros e He.
  apply (StronglySorted_app_1_elem_of step_le t1 (ev :: t2)); [done..|].
  by left.
Qed.

Lemma read_patch_steps (e ev : Event) :
  isPatch e = true → isRead ev = true → step e ≠ step ev.
Proof.
  destruct e as [X c x], ev as [Y d y].
  unfold isPatch, isRead, step, evOp. simpl.
  destruct c; simpl; try discriminate; destruct d; simpl; try discriminate;
    intros _ _; repeat match goal with k : WorkloadKind |- _ => destruct k end;
    simpl; lia.
Qed.

Lemma hashConfigSources_no_signal (cms : list ConfigMap) (secs : list Secret)
    (ignC ignS : KeySet) :
  Forall (fun cfg => hashConfigMapContent cfg ignC = "") cms →
  Forall (fun sec => hashSecretContent sec ignS = "") secs →
  hashConfigSources cms secs ignC ignS = "".
Proof.
  intros Hc Hs. unfold hashConfigSources, sourcesPreimage.
  assert (Ec : configMapEntries cms ignC = []).
  { unfold configMapEntries. induction Hc as [|cfg cms H _ IH]; [done|].
    simpl. by rewrite H. }
  assert (Es : secretEntries secs ignS = []).
  { unfold secretEntries. induction Hs as [|sec secs H _ IH]; [done|].
    simpl. by rewrite H. }
  by rewrite Ec, Es.
Qed.

Lemma Cluster_reads_pure : ReadsPure Cluster.
Proof. intros X c cl Hc. destruct c; try done. Qed.

(** C8.  The first hard error of a workload list or patch aborts the
    pass: the failing call is the last call of the pass, so no workload of
    a later kind is listed or patched after it, and its error is what
    [Reconcile] returns; and the calls of every pass follow the fixed order
    of Deployments, then DaemonSets, then StatefulSets, each kind listed
    before it is patched. *)
Theorem C8_first_hard_error_aborts :
  ∀ (St : Type) (client : Client St) (r : ConfigMapReconciler)
    (req : NamespacedName) (s : St) (t1 t2 : list Event) (ev : Event)
    (err : Error),
    (run (Reconcile r req) s).2 = t1 ++ ev :: t2 →
    is_Some (opKind (evOp ev)) →
    evError ev = Some err →
    t2 = [] ∧
    (run (Reconcile r req) s).1.1 = Some err ∧
    StronglySorted step_le (run (Reconcile r req) s).2.
Proof.
  intros St client r req s t1 t2 ev err Ht Hkind Herr.
  destruct (wp_run _ _ St client s (wp_Reconcile r req))
    as [(_ & Hsorted & Hstops) _].
  assert (Hfatal : fatal ev = Some err).
  { unfold fatal. rewrite Herr.
    destruct (evOp ev); try done; by destruct Hkind. }
  destruct (stops_split _ _ _ _ _ _ Hstops Ht Hfatal) as [-> Hres].
  by repeat split.
Qed.

(** C2, as stated, fails: on a store whose DaemonSet list fails, the pass
    returns the error of that read, but it has already patched the
    Deployment, whose annotation has changed. *)
Lemma C2_patch_before_failing_read :
  daemonSetListFailsRun.1.1 = Some (Failure "etcd timeout") ∧
  map evOp daemonSetListFailsRun.2 =
    [OpGetConfigMap; OpListConfigMaps; OpListSecrets;
     OpListWorkloads Deployment; OpPatch Deployment;
     OpListWorkloads DaemonSet] ∧
  map evError daemonSetListFailsRun.2 =
    [None; None; None; None; None; Some (Failure "etcd timeout")] ∧
  map isRead daemonSetListFailsRun.2 =
    [true; true; true; true; false; true] ∧
  map (fun w => annotation w "synapse.gen0sec.com/config-hash")
      (deployments (sampleCluster daemonSetListFails)) = [""] ∧
  map (fun w => annotation w "synapse.gen0sec.com/config-hash")
      (deployments daemonSetListFailsRun.1.2) =
    ["eecff9d4692809abe3ca1da8b809403aa644df7d26be11d33d13136a65128dcf"].
Proof. vm_compute. repeat split. Qed.

(** C2, amended.  A read (get or list) that fails with an error other
    than not-found is the last call of the pass and its error is what
    [Reconcile] returns; the patches issued before it are those of the
    workload kinds that come before the failing list in the fixed order, so
    no patch at all has been issued when the failing read is a get, a list
    of sources or the list of Deployments. *)
Theorem C2_read_failure_aborts :
  ∀ (St : Type) (client : Client St) (r : ConfigMapReconciler)
    (req : NamespacedName) (s : St) (t1 t2 : list Event) (ev : Event)
    (err : Error),
    (run (Reconcile r req) s).2 = t1 ++ ev :: t2 →
    isRead ev = true →
    evError ev = Some err →
    IsNotFound err = false →
    t2 = [] ∧
    (run (Reconcile r req) s).1.1 = Some err ∧
    Forall (fun e => isPatch e = true → step e < step ev) t1 ∧
    (step ev ≤ opStep (OpListWorkloads Deployment) →
     Forall (fun e => isPatch e = false) (run (Reconcile r req) s).2).
Proof.
  intros St client r req s t1 t2 ev err Ht Hread Herr Hnf.
  destruct (wp_run _ _ St client s (wp_Reconcile r req))
    as [(_ & Hsorted & Hstops) _].
  assert (Hfatal : fatal ev = Some err).
  { unfold fatal. rewrite Herr, Hnf. by rewrite andb_false_r. }
  destruct (stops_split _ _ _ _ _ _ Hstops Ht Hfatal) as [-> Hres].
  pose proof (sorted_split _ _ _ _ Hsorted Ht) as Hbefore.
  assert (Hlt : Forall (fun e => isPatch e = true → step e < step ev) t1).
  { eapply Forall_impl; [exact Hbefore|]. simpl. intros e Hle Hp.
    pose proof (read_patch_steps e ev Hp Hread). lia. }
  split; [done|]. split; [done|]. split; [done|].
  intros Hearly. rewrite Ht. apply Forall_app. split.
  - eapply Forall_impl; [exact Hlt|]. simpl. intros e He.
    destruct (isPatch e) eqn:Ep; [|done].
    pose proof (isPatch_step e Ep). specialize (He eq_refl).
    unfold opStep in Hearly. simpl in Hearly. lia.
  - constructor; [|constructor]. unfold isRead in Hread. unfold isPatch.
    by destruct (isPatchOp (evOp ev)).
Qed.

(** C5.  No-signal safety: when the sources the pass listed are all empty
    after filtering, the pass returns without error, none of its calls is a
    patch, and a store that reads leave untouched is left as it was. *)
Theorem C5_no_signal_no_patch :
  ∀ (St : Type) (client : Client St) (r : ConfigMapReconciler)
    (req : NamespacedName) (s : St)
    (cms : list ConfigMap) (secs : list Secret),
    (∃ ev, ev ∈ (run (Reconcile r req) s).2 ∧ listedConfigMaps ev = Some cms) →
    (∃ ev, ev ∈ (run (Reconcile r req) s).2 ∧ listedSecrets ev = Some secs) →
    Forall (fun cfg => hashConfigMapContent cfg (IgnoredConfigMapKeys r) = "")
           cms →
    Forall (fun sec => hashSecretContent sec (IgnoredSecretKeys r) = "") secs →
    (run (Reconcile r req) s).1.1 = None ∧
    Forall (fun ev => isPatch ev = false) (run (Reconcile r req) s).2 ∧
    (ReadsPure St → (run (Reconcile r req) s).1.2 = s).
Proof.
  intros St client r req s cms secs Hcms Hsecs Hc Hs.
  destruct (wp_run _ _ St client s (wp_Reconcile r req)) as [_ Hquiet].
  destruct (Hquiet cms secs Hcms Hsecs
              (hashConfigSources_no_signal _ _ _ _ Hc Hs)) as [Hres Hsteps].
  assert (Hnop : Forall (fun ev => isPatch ev = false)
                        (run (Reconcile r req) s).2).
  { eapply Forall_impl; [exact Hsteps|]. simpl. intros ev Hev.
    destruct (isPatch ev) eqn:Ep; [|done].
    pose proof (isPatch_step ev Ep). lia. }
  split; [done|]. split; [done|].
  intros Hpure. by apply run_reads_pure.
Qed.

(** ** The theorems at sample inputs *)

(** C4 at the sample Deployment: a second apply of the sample fingerprint
    makes no call. *)
Lemma C4_patch_idempotent_witness :
  let key := "synapse.gen0sec.com/config-hash" in
  let w1 := setAnnotation (sampleWorkload "web") key sampleHash in
  patchWorkloadHash Deployment w1 key sampleHash = Ret (w1, (false, None)) ∧
  annotation w1 key = sampleHash ∧
  ∃ w2, patchWorkloadHash Deployment w1 key sampleHash
        = Ret (w2, (false, None)).
Proof.
  cbv zeta.
  destruct (C4_patch_idempotent Cluster _ Deployment (sampleWorkload "web")
              "synapse.gen0sec.com/config-hash" sampleHash
              (sampleCluster noFaults)) as [Hfirst _].
  destruct (C4_patch_idempotent Cluster _ Deployment
              (setAnnotation (sampleWorkload "web")
                 "synapse.gen0sec.com/config-hash" sampleHash)
              "synapse.gen0sec.com/config-hash" sampleHash
              (sampleCluster noFaults)) as [_ Hcurrent].
  split; [|split].
  - eapply Hfirst. vm_compute. reflexivity.
  - vm_compute. reflexivity.
  - apply Hcurrent. vm_compute. reflexivity.
Defined.

(** C8 on the store whose DaemonSet patch meets a conflict: that patch is
    the seventh and last call and the pass returns the conflict. *)
Lemma C8_first_hard_error_aborts_witness :
  daemonSetPatchFailsRun.2
    = firstn 6 daemonSetPatchFailsRun.2 ++ failedDaemonSetPatch :: [] ∧
  is_Some (opKind (evOp failedDaemonSetPatch)) ∧
  evError failedDaemonSetPatch = Some Conflict ∧
  daemonSetPatchFailsRun.1.1 = Some Conflict ∧
  StronglySorted step_le daemonSetPatchFailsRun.2.
Proof.
  assert (H1 : daemonSetPatchFailsRun.2
               = firstn 6 daemonSetPatchFailsRun.2
                   ++ failedDaemonSetPatch :: [])
    by (vm_compute; reflexivity).
  assert (H2 : is_Some (opKind (evOp failedDaemonSetPatch)))
    by (vm_compute; eauto).
  assert (H3 : evError failedDaemonSetPatch = Some Conflict)
    by reflexivity.
  destruct (C8_first_hard_error_aborts Cluster _ defaultReconciler appKey
              (sampleCluster daemonSetPatchFails) _ _ _ _ H1 H2 H3)
    as (_ & Hres & Hsorted).
  exact (conj H1 (conj H2 (conj H3 (conj Hres Hsorted)))).
Defined.

(** C2 on the store whose Secret list fails: the pass stops there, returns
    the error and has patched nothing. *)
Lemma C2_read_failure_aborts_witness :
  secretListFailsRun.2
    = firstn 2 secretListFailsRun.2 ++ failedSecretList :: [] ∧
  isRead failedSecretList = true ∧
  evError failedSecretList = Some (Failure "etcd timeout") ∧
  IsNotFound (Failure "etcd timeout") = false ∧
  secretListFailsRun.1.1 = Some (Failure "etcd timeout") ∧
  Forall (fun e => isPatch e = false) secretListFailsRun.2.
Proof.
  assert (H1 : secretListFailsRun.2
               = firstn 2 secretListFailsRun.2 ++ failedSecretList :: [])
    by (vm_compute; reflexivity).
  destruct (C2_read_failure_aborts Cluster _ defaultReconciler appKey
              (sampleCluster secretListFails) _ _ _ _ H1
              eq_refl eq_refl eq_refl)
    as (_ & Hres & _ & Hnone).
  assert (Hearly : step failedSecretList ≤ opStep (OpListWorkloads Deployment))
    by (vm_compute; lia).
  exact (conj H1 (conj eq_refl (conj eq_refl (conj eq_refl
           (conj Hres (Hnone Hearly)))))).
Defined.

(** C5 on the namespace whose only source holds nothing but the excluded
    key [upstreams.yaml]: no error, no patch, the store as it was. *)
Lemma C5_no_signal_no_patch_witness :
  quietConfigMapList ∈ quietRun.2 ∧
  quietSecretList ∈ quietRun.2 ∧
  hashConfigMapContent upstreamsOnly upstreamsIgnored = "" ∧
  quietRun.1.1 = None ∧
  Forall (fun ev => isPatch ev = false) quietRun.2 ∧
  quietRun.1.2 = quietCluster.
Proof.
  assert (H1 : quietConfigMapList ∈ quietRun.2).
  { apply list_elem_of_lookup. exists 1%nat. vm_compute. reflexivity. }
  assert (H2 : quietSecretList ∈ quietRun.2).
  { apply list_elem_of_lookup. exists 2%nat. vm_compute. reflexivity. }
  assert (H3 : hashConfigMapContent upstreamsOnly upstreamsIgnored = "")
    by (vm_compute; reflexivity).
  destruct (C5_no_signal_no_patch Cluster _ ignoringUpstreams appKey
              quietCluster [upstreamsOnly] [])
    as (Hres & Hnop & Hsame).
  - exists quietConfigMapList. split; [exact H1|reflexivity].
  - exists quietSecretList. split; [exact H2|reflexivity].
  - constructor; [exact H3|constructor].
  - constructor.
  - exact (conj H1 (conj H2 (conj H3 (conj Hres
             (conj Hnop (Hsame Cluster_reads_pure)))))).
Defined.

(** C6 on two ConfigMaps listed in either order. *)
Lemma C6_order_independence_witness :
  NoDup (map cmName [appConfigMap; tlsConfigMap]) ∧
  NoDup (map secName [appSecret]) ∧
  [appConfigMap; tlsConfigMap] ≡ₚ [tlsConfigMap; appConfigMap] ∧
  hashConfigSources [appConfigMap; tlsConfigMap] [appSecret]
      upstreamsIgnored None
    = hashConfigSources [tlsConfigMap; appConfigMap] [appSecret]
        upstreamsIgnored None.
Proof.
  assert (H1 : NoDup (map cmName [appConfigMap; tlsConfigMap])).
  { refine (bool_decide_unpack _ _). vm_compute. exact I. }
  assert (H2 : NoDup (map secName [appSecret])).
  { refine (bool_decide_unpack _ _). vm_compute. exact I. }
  assert (H3 : [appConfigMap; tlsConfigMap] ≡ₚ [tlsConfigMap; appConfigMap])
    by apply perm_swap.
  assert (H4 : [appSecret] ≡ₚ [appSecret]) by reflexivity.
  exact (conj H1 (conj H2 (conj H3
           (C6_order_independence _ _ _ _ upstreamsIgnored None
              H1 H2 H3 H4)))).
Defined.

(** C7 with [upstreams.yaml] excluded. *)
Lemma C7_exclusion_invariance_witness :
  inKeySet "upstreams.yaml" upstreamsIgnored ∧
  allExcluded upstreamsOnly upstreamsIgnored ∧
  hashConfigMapContent
      (withData appConfigMap
         (<["upstreams.yaml" := "servers: [10.0.0.1]"]> (Data appConfigMap)))
      upstreamsIgnored
    = hashConfigMapContent appConfigMap upstreamsIgnored ∧
  hashConfigMapContent upstreamsOnly upstreamsIgnored = "" ∧
  hashConfigSources ([appConfigMap] ++ upstreamsOnly :: [tlsConfigMap])
      [appSecret] upstreamsIgnored None
    = hashConfigSources ([appConfigMap] ++ [tlsConfigMap])
        [appSecret] upstreamsIgnored None.
Proof.
  assert (H1 : inKeySet "upstreams.yaml" upstreamsIgnored).
  { simpl. apply elem_of_singleton. reflexivity. }
  assert (H2 : allExcluded upstreamsOnly upstreamsIgnored).
  { intros k [[v Hv]|[v Hv]]; simpl in *.
    - apply lookup_singleton_Some in Hv as [<- _].
      apply elem_of_singleton. reflexivity.
    - rewrite lookup_empty in Hv. discriminate Hv. }
  destruct (C7_exclusion_invariance appConfigMap upstreamsOnly
              upstreamsIgnored None "upstreams.yaml" "servers: [10.0.0.1]" []
              [appConfigMap] [tlsConfigMap] [appSecret] H1 H2)
    as (Hset & _ & _ & _ & Hsrc & _ & Hagg).
  exact (conj H1 (conj H2 (conj Hset (conj Hsrc Hagg)))).
Defined.

(** ** The two reconcilers on one namespace *)

Lemma run_bind {A B : Type} (p : Prog A) (f : A → Prog B) (St : Type)
    (client : Client St) (s : St) :
  run (p ≫= f) s =
    let '(a, s1, t1) := run p s in
    let '(b, s2, t2) := run (f a) s1 in
    (b, s2, t1 ++ t2).
Proof.
  unfold mbind, Prog_bind. revert s.
  induction p as [a|X c k IH]; intros s; simpl.
  - by destruct (run (f a) s) as [[b s2] t2].
  - destruct (perform c s) as [x s1]. rewrite IH.
    destruct (run (k x) s1) as [[a s2] t1].
    by destruct (run (f a) s2) as [[b s3] t2].
Qed.

Lemma patchesOf_app (k : WorkloadKind) (t1 t2 : list Event) :
  patchesOf k (t1 ++ t2) = patchesOf k t1 ++ patchesOf k t2.
Proof. unfold patchesOf. apply omap_app. Qed.

Lemma patchesOf_cons (k : WorkloadKind) (ev : Event) (t : list Event) :
  patchesOf k (ev :: t) = patchesOf k [ev] ++ patchesOf k t.
Proof. apply (patchesOf_app k [ev] t). Qed.

Lemma patchesOf_read (k : WorkloadKind) (ev : Event) (t : list Event) :
  isPatch ev = false → patchesOf k (ev :: t) = patchesOf k t.
Proof.
  intros H. rewrite patchesOf_cons. destruct ev as [X c x].
  unfold isPatch, evOp in H. by destruct c.
Qed.

(** Calls that come after the patches of the Deployments patch none. *)
Lemma patchesOf_Deployment_late (t : list Event) :
  Forall (fun ev => 6 ≤ step ev) t → patchesOf Deployment t = [].
Proof.
  induction 1 as [|ev t Hev _ IH]; [done|].
  rewrite patchesOf_cons, IH, app_nil_r.
  destruct ev as [X c x]. unfold step, evOp in Hev. simpl in Hev.
  destruct c as [| | | | |k obj orig]; try done.
  destruct k; simpl in Hev; [lia|done..].
Qed.

(** Without exclusions the two variants compute one per-source
    fingerprint. *)
Lemma collectKeys_nil {V : Type} (tag : string) (m : gmap string V) :
  collectKeys tag m None = map (String.append tag) (rangeKeys m).
Proof.
  unfold collectKeys. f_equal.
  induction (rangeKeys m) as [|k l IH]; [done|].
  rewrite filter_cons_True by done. by rewrite IH.
Qed.

Lemma rangeKeys_length {V : Type} (m : gmap string V) :
  length (rangeKeys m) = size m.
Proof. unfold rangeKeys. by rewrite length_fmap, length_map_to_list. Qed.

Lemma Simple_configMapPreimage (cfg : ConfigMap) :
  Simple.configMapPreimage cfg = configMapPreimage cfg None.
Proof.
  unfold Simple.configMapPreimage, configMapPreimage.
  rewrite !collectKeys_nil.
  destruct (bool_decide (size (Data cfg) = 0%nat)
            && bool_decide (size (BinaryData cfg) = 0%nat)) eqn:E; [done|].
  rewrite bool_decide_eq_false_2; [done|].
  rewrite length_app, !length_map, !rangeKeys_length.
  apply andb_false_iff in E as [E|E]; apply bool_decide_eq_false in E; lia.
Qed.

Lemma Simple_hashConfigMapContent (cfg : ConfigMap) :
  Simple.hashConfigMapContent cfg = hashConfigMapContent cfg None.
Proof.
  unfold Simple.hashConfigMapContent, hashConfigMapContent.
  by rewrite Simple_configMapPreimage.
Qed.

Lemma hashConfigSources_one (cfg : ConfigMap) :
  hashConfigMapContent cfg None ≠ "" →
  hashConfigSources [cfg] [] None None
    = aggregateOfOne (cmName cfg) (hashConfigMapContent cfg None).
Proof.
  intros H. unfold hashConfigSources.
  by rewrite sourcesPreimage_configMap.
Qed.

(** ** Patching against the in-memory store *)

Lemma wMeta_applyMergePatch (original obj stored : Workload) :
  wMeta (applyMergePatch original obj stored) = wMeta stored.
Proof.
  unfold applyMergePatch. destruct (Annotations stored); [done|].
  by case_decide.
Qed.

Lemma Present_patchStored (k : WorkloadKind) (items : list Workload)
    (obj original : Workload) (cl : Cluster) :
  Present k items cl → Present k items (patchStored k obj original cl).2.
Proof.
  unfold patchStored. destruct (existsb _ _); [|done]. simpl.
  intros Hp w Hw. specialize (Hp w Hw).
  assert (E : ∀ ws, workloadsOf k (setWorkloads k ws cl) = ws)
    by (by destruct k).
  rewrite E. clear E.
  induction (workloadsOf k cl) as [|s ws IH]; [done|]. simpl in *.
  apply orb_true_iff in Hp as [Hp|Hp].
  - apply orb_true_iff. left.
    destruct (hasKey (keyOf (wMeta obj)) (wMeta s));
      by rewrite ?wMeta_applyMergePatch.
  - apply orb_true_iff. right. by apply IH.
Qed.

Lemma faults_patchStored (k : WorkloadKind) (obj original : Workload)
    (cl : Cluster) :
  faults (patchStored k obj original cl).2 = faults cl.
Proof. unfold patchStored. destruct (existsb _ _); [|done]. by destruct k. Qed.

(** The loop over the listed workloads, on a store that holds them and does
    not fail their patches: every workload not yet at [hash] is patched, in
    order, and the loop returns no error. *)
Lemma run_patchItems_cluster (k : WorkloadKind) (items : list Workload)
    (annotationKey hash : string) (cl : Cluster) :
  faults cl (OpPatch k) = None →
  Present k items cl →
  (run (patchItems k items annotationKey hash) cl).1.1 = None ∧
  patchesOf k (run (patchItems k items annotationKey hash) cl).2
    = expectedPatches annotationKey hash items ∧
  Forall (fun ev => step ev = opStep (OpPatch k))
         (run (patchItems k items annotationKey hash) cl).2.
Proof.
  revert cl. induction items as [|w items IH]; intros cl Hf Hp.
  { by repeat split. }
  cbn [patchItems]. rewrite run_bind.
  assert (Hw : Present k [w] cl).
  { intros x Hx. apply Hp. apply list_elem_of_singleton in Hx as ->. by left. }
  assert (Hrest : Present k items cl) by (intros x Hx; apply Hp; by right).
  unfold expectedPatches, needsPatch in *. cbn [List.filter].
  destruct (decide (annotation w annotationKey = hash)) as [He|Hne].
  - rewrite (patchWorkloadHash_current _ _ _ _ He).
    cbn [run snd]. apply String.eqb_eq in He. rewrite He. cbn [negb].
    specialize (IH cl Hf Hrest).
    destruct (run (patchItems k items annotationKey hash) cl) as [[res s2] t2].
    exact IH.
  - rewrite (patchWorkloadHash_set _ _ _ _ Hne).
    apply String.eqb_neq in Hne. rewrite Hne. cbn [negb map].
    cbn [run perform Cluster_client clusterPerform]. rewrite Hf.
    pose proof (Present_patchStored k items (setAnnotation w annotationKey hash)
                  w cl Hrest) as Hp'.
    pose proof (faults_patchStored k (setAnnotation w annotationKey hash) w cl)
      as Hf'.
    assert (Hok : (patchStored k (setAnnotation w annotationKey hash) w cl).1
                  = None).
    { unfold patchStored. specialize (Hw w ltac:(by left)).
      change (wMeta (setAnnotation w annotationKey hash)) with (wMeta w).
      by rewrite Hw. }
    destruct (patchStored k (setAnnotation w annotationKey hash) w cl)
      as [err cl1]. simpl in Hok, Hp', Hf'. subst err. cbn [snd].
    specialize (IH cl1 ltac:(by rewrite Hf') Hp').
    destruct (run (patchItems k items annotationKey hash) cl1) as [[res s2] t2].
    destruct IH as (Hres & Hpatches & Hsteps).
    cbn [fst snd] in *. split; [exact Hres|]. split.
    + rewrite patchesOf_app, Hpatches. unfold patchesOf. simpl.
      by rewrite Nat.eqb_refl.
    + constructor; [reflexivity|exact Hsteps].
Qed.

Lemma run_Simple_patchItems_cluster (items : list Workload) (hash : string)
    (cl : Cluster) :
  faults cl (OpPatch Deployment) = None →
  Present Deployment items cl →
  (run (Simple.patchItems items hash) cl).1.1 = None ∧
  patchesOf Deployment (run (Simple.patchItems items hash) cl).2
    = expectedPatches Simple.configHashAnnotKey hash items.
Proof.
  revert cl. induction items as [|w items IH]; intros cl Hf Hp.
  { by repeat split. }
  assert (Hw : Present Deployment [w] cl).
  { intros x Hx. apply Hp. apply list_elem_of_singleton in Hx as ->. by left. }
  assert (Hrest : Present Deployment items cl)
    by (intros x Hx; apply Hp; by right).
  unfold expectedPatches, needsPatch in *. cbn [List.filter Simple.patchItems].
  assert (Eann : annotation match Annotations w with
                            | Some _ => w
                            | None => withAnnotations w (Some ∅)
                            end Simple.configHashAnnotKey
                 = annotation w Simple.configHashAnnotKey)
    by (by destruct w as [m [a|]]).
  rewrite Eann.
  destruct (String.eqb (annotation w Simple.configHashAnnotKey) hash) eqn:E;
    cbn [negb].
  - by apply IH.
  - assert (Eset : withAnnotations
                     match Annotations w with
                     | Some _ => w
                     | None => withAnnotations w (Some ∅)
                     end
                     (Some (<[Simple.configHashAnnotKey := hash]>
                              (default ∅
                                 (Annotations
                                    match Annotations w with
                                    | Some _ => w
                                    | None => withAnnotations w (Some ∅)
                                    end))))
                   = setAnnotation w Simple.configHashAnnotKey hash)
      by (by destruct w as [m [a|]]).
    rewrite Eset. rewrite run_bind.
    cbn [run call perform Cluster_client clusterPerform]. rewrite Hf.
    pose proof (Present_patchStored Deployment items
                  (setAnnotation w Simple.configHashAnnotKey hash) w cl Hrest)
      as Hp'.
    pose proof (faults_patchStored Deployment
                  (setAnnotation w Simple.configHashAnnotKey hash) w cl) as Hf'.
    assert (Hok : (patchStored Deployment
                     (setAnnotation w Simple.configHashAnnotKey hash) w cl).1
                  = None).
    { unfold patchStored. specialize (Hw w ltac:(by left)).
      change (wMeta (setAnnotation w Simple.configHashAnnotKey hash))
        with (wMeta w).
      by rewrite Hw. }
    destruct (patchStored Deployment
                (setAnnotation w Simple.configHashAnnotKey hash) w cl)
      as [err cl1]. simpl in Hok, Hp', Hf'. subst err.
    specialize (IH cl1 ltac:(by rewrite Hf') Hp').
    destruct (run (Simple.patchItems items hash) cl1) as [[res s2] t2].
    destruct IH as (Hres & Hpatches).
    cbn [fst snd] in *. split; [exact Hres|].
    by rewrite patchesOf_app, Hpatches.
Qed.

Lemma Present_listFrom (k : WorkloadKind) (namespace : string)
    (sel : Selector) (cl : Cluster) :
  Present k (listFrom wMeta namespace sel (workloadsOf k cl)) cl.
Proof.
  intros w Hw. unfold listFrom in Hw.
  apply list_elem_of_In, filter_In in Hw as [Hin _].
  apply existsb_exists. exists w. split; [done|].
  unfold hasKey, keyOf. simpl. by rewrite !String.eqb_refl.
Qed.

Lemma wp_patchLater (r : ConfigMapReconciler) (namespace hash : string) :
  wp (err ← patchDaemonSets r namespace hash;
      match err with
      | Some err => mret (Some err)
      | None =>
          err ← patchStatefulSets r namespace hash;
          match err with
          | Some err => mret (Some err)
          | None => mret None
          end
      end)
     (Trail 6 9).
Proof.
  apply (wp_then _ _ 6 7 8 9); [lia..| |].
  { apply (wp_patchWorkloads DaemonSet). }
  apply (wp_then _ _ 8 9 9 9); [lia..| |].
  { apply (wp_patchWorkloads StatefulSet). }
  apply Trail_nil.
Qed.

Lemma listed_label (namespace : string) (m : ObjectMeta) :
  listed namespace defaultSelector m = true →
  index "" (Labels m) Simple.synapseLabelKey = Simple.synapseLabelValue.
Proof.
  unfold listed, defaultSelector, MatchingLabel, index.
  intros H. apply andb_true_iff in H as [_ H].
  apply bool_decide_eq_true in H.
  change Simple.synapseLabelKey with "app.kubernetes.io/name".
  by rewrite H.
Qed.

(** The simple variant on a store without faults: it patches the listed
    Deployments that are not yet at the per-source fingerprint of the
    triggering ConfigMap. *)
Lemma run_Simple_Reconcile (cl : Cluster) (req : NamespacedName)
    (cfg : ConfigMap) :
  (∀ o, faults cl o = None) →
  getFrom cmMeta req (configMaps cl) = Ok cfg →
  listed (keyNamespace req) defaultSelector (cmMeta cfg) = true →
  Simple.hashConfigMapContent cfg ≠ "" →
  patchesOf Deployment (run (Simple.Reconcile req) cl).2
    = expectedPatches Simple.configHashAnnotKey
        (Simple.hashConfigMapContent cfg)
        (listFrom wMeta (keyNamespace req) defaultSelector (deployments cl)).
Proof.
  intros Hf Hget Hlabel Hhash.
  unfold Simple.Reconcile.
  cbn [mbind Prog_bind bind call run perform Cluster_client clusterPerform].
  rewrite !Hf, Hget. cbn [mret Prog_ret].
  rewrite (listed_label _ _ Hlabel), String.eqb_refl. cbn [negb].
  apply String.eqb_neq in Hhash. rewrite Hhash.
  cbn [mbind Prog_bind bind call run perform Cluster_client clusterPerform].
  rewrite !Hf. cbn [workloadsOf].
  change (MatchingLabel Simple.synapseLabelKey Simple.synapseLabelValue)
    with defaultSelector.
  destruct (run_Simple_patchItems_cluster
              (listFrom wMeta (keyNamespace req) defaultSelector
                 (deployments cl))
              (Simple.hashConfigMapContent cfg) cl (Hf _)
              (Present_listFrom Deployment _ _ cl)) as [_ Hpatches].
  destruct (run (Simple.patchItems _ _) cl) as [[res s2] t2].
  cbn [snd] in *. by rewrite !patchesOf_read, Hpatches by reflexivity.
Qed.

(** The generalized variant in its default configuration, on a store
    without faults whose namespace lists one ConfigMap and no Secret: it
    patches the listed Deployments that are not yet at the aggregate over
    that one ConfigMap. *)
Lemma run_Reconcile_one_source (cl : Cluster) (req : NamespacedName)
    (cfg : ConfigMap) :
  (∀ o, faults cl o = None) →
  getFrom cmMeta req (configMaps cl) = Ok cfg →
  listFrom cmMeta (keyNamespace req) defaultSelector (configMaps cl) = [cfg] →
  listFrom secMeta (keyNamespace req) defaultSelector (secrets cl) = [] →
  hashConfigMapContent cfg None ≠ "" →
  patchesOf Deployment (run (Reconcile defaultReconciler req) cl).2
    = expectedPatches "synapse.gen0sec.com/config-hash"
        (aggregateOfOne (cmName cfg) (hashConfigMapContent cfg None))
        (listFrom wMeta (keyNamespace req) defaultSelector (deployments cl)).
Proof.
  intros Hf Hget Hcms Hsecs Hhash.
  unfold Reconcile.
  cbn [mbind Prog_bind bind call run perform Cluster_client clusterPerform].
  rewrite !Hf, Hget.
  unfold reconcileNamespace, computeCombinedHash.
  cbn [mbind Prog_bind bind call run perform Cluster_client clusterPerform
       mret Prog_ret].
  rewrite !Hf.
  change (selector defaultReconciler) with defaultSelector.
  rewrite Hcms.
  cbn [mbind Prog_bind bind call run perform Cluster_client clusterPerform
       mret Prog_ret].
  rewrite !Hf, Hsecs.
  cbn [mbind Prog_bind bind call run perform Cluster_client clusterPerform
       mret Prog_ret IgnoredConfigMapKeys IgnoredSecretKeys defaultReconciler].
  rewrite (hashConfigSources_one cfg Hhash).
  set (G := aggregateOfOne (cmName cfg) (hashConfigMapContent cfg None)).
  assert (HG : String.eqb G "" = false) by apply sha256_hex_eqb_empty.
  rewrite HG, run_bind.
  unfold patchDeployments at 1, patchWorkloads at 1.
  cbn [mbind Prog_bind bind call run perform Cluster_client clusterPerform
       mret Prog_ret].
  rewrite !Hf. cbn [workloadsOf].
  change (selector defaultReconciler) with defaultSelector.
  change (ConfigHashAnnotation defaultReconciler)
    with "synapse.gen0sec.com/config-hash".
  destruct (run_patchItems_cluster Deployment
              (listFrom wMeta (keyNamespace req) defaultSelector
                 (deployments cl))
              "synapse.gen0sec.com/config-hash" G cl (Hf _)
              (Present_listFrom Deployment _ _ cl))
    as (Hres & Hpatches & _).
  destruct (run (patchItems Deployment _ _ _) cl) as [[res cl1] tD].
  cbn [fst snd] in Hres, Hpatches. subst res.
  pose proof (wp_run _ _ Cluster _ cl1
                (wp_patchLater defaultReconciler (keyNamespace req) G))
    as (Hlate & _ & _).
  match type of Hlate with
  | Forall _ (run ?p cl1).2 =>
      destruct (run p cl1) as [[res2 cl2] tL]
  end.
  cbn [fst snd] in *.
  rewrite !patchesOf_read by reflexivity.
  rewrite patchesOf_app, patchesOf_read, Hpatches by reflexivity.
  rewrite patchesOf_Deployment_late.
  - by rewrite app_nil_r.
  - eapply Forall_impl; [exact Hlate|]. simpl. intros ev ?. lia.
Qed.

(** C3, as stated, fails: in the sample namespace (one labelled ConfigMap,
    no Secret, one labelled Deployment, default configuration) the simple
    variant writes the fingerprint of the ConfigMap and the generalized
    variant writes another value, the aggregate over that fingerprint. *)
Lemma C3_written_values_differ :
  listFrom cmMeta "synapse" defaultSelector
    (configMaps (sampleCluster noFaults)) = [appConfigMap] ∧
  listFrom secMeta "synapse" defaultSelector
    (secrets (sampleCluster noFaults)) = [] ∧
  map (fun w => annotation w "synapse.gen0sec.com/config-hash")
      (patchesOf Deployment simpleRun.2) =
    ["17449d93414c35922c61046f3f2f67b22c7d974d9b426f2483d602d526138e3a"] ∧
  map (fun w => annotation w "synapse.gen0sec.com/config-hash")
      (patchesOf Deployment generalizedRun.2) =
    ["eecff9d4692809abe3ca1da8b809403aa644df7d26be11d33d13136a65128dcf"] ∧
  map (fun w => annotation w "synapse.gen0sec.com/config-hash")
      (deployments simpleRun.1.2) =
    ["17449d93414c35922c61046f3f2f67b22c7d974d9b426f2483d602d526138e3a"] ∧
  map (fun w => annotation w "synapse.gen0sec.com/config-hash")
      (deployments generalizedRun.1.2) =
    ["eecff9d4692809abe3ca1da8b809403aa644df7d26be11d33d13136a65128dcf"].
Proof. vm_compute. repeat split. Qed.

(** C3, amended.  In a namespace that lists exactly one labelled ConfigMap
    and no Secret, on a store that does not fail, with nil exclusion sets,
    the default selector and the default annotation key: the two variants
    compute the same per-source fingerprint [F] of the ConfigMap; when [F]
    is not empty the simple [Reconcile] patches every listed Deployment
    that is not at [F] to [F], and the generalized [Reconcile] patches
    every listed Deployment that is not at [G] to [G], where [G] is the
    digest of [configmap/<name>], NUL, [F], NUL. *)
Theorem C3_generalized_rehashes_simple :
  ∀ (cl : Cluster) (req : NamespacedName) (cfg : ConfigMap),
    (∀ o, faults cl o = None) →
    getFrom cmMeta req (configMaps cl) = Ok cfg →
    listFrom cmMeta (keyNamespace req) defaultSelector (configMaps cl) = [cfg] →
    listFrom secMeta (keyNamespace req) defaultSelector (secrets cl) = [] →
    Simple.hashConfigMapContent cfg ≠ "" →
    hashConfigMapContent cfg None = Simple.hashConfigMapContent cfg ∧
    patchesOf Deployment (run (Simple.Reconcile req) cl).2
      = expectedPatches Simple.configHashAnnotKey
          (Simple.hashConfigMapContent cfg)
          (listFrom wMeta (keyNamespace req) defaultSelector (deployments cl)) ∧
    patchesOf Deployment (run (Reconcile defaultReconciler req) cl).2
      = expectedPatches (ConfigHashAnnotation defaultReconciler)
          (aggregateOfOne (cmName cfg) (Simple.hashConfigMapContent cfg))
          (listFrom wMeta (keyNamespace req) defaultSelector (deployments cl)).
Proof.
  intros cl req cfg Hf Hget Hcms Hsecs Hhash.
  assert (Hlisted : listed (keyNamespace req) defaultSelector (cmMeta cfg)
                    = true).
  { assert (Hin : In cfg (listFrom cmMeta (keyNamespace req) defaultSelector
                            (configMaps cl))) by (rewrite Hcms; by left).
    unfold listFrom in Hin. by apply filter_In in Hin as [_ Hin]. }
  split; [symmetry; apply Simple_hashConfigMapContent|].
  split; [by apply run_Simple_Reconcile|].
  rewrite Simple_hashConfigMapContent in *.
  by apply run_Reconcile_one_source.
Qed.

(** C3 on the sample namespace. *)
Lemma C3_generalized_rehashes_simple_witness :
  (∀ o, faults (sampleCluster noFaults) o = None) ∧
  getFrom cmMeta appKey (configMaps (sampleCluster noFaults))
    = Ok appConfigMap ∧
  map (fun w => annotation w Simple.configHashAnnotKey)
      (patchesOf Deployment simpleRun.2)
    = [Simple.hashConfigMapContent appConfigMap] ∧
  map (fun w => annotation w Simple.configHashAnnotKey)
      (patchesOf Deployment generalizedRun.2)
    = [aggregateOfOne "app" (Simple.hashConfigMapContent appConfigMap)].
Proof.
  assert (H1 : ∀ o, faults (sampleCluster noFaults) o = None)
    by reflexivity.
  assert (H2 : getFrom cmMeta appKey (configMaps (sampleCluster noFaults))
               = Ok appConfigMap) by reflexivity.
  assert (H3 : listFrom cmMeta (keyNamespace appKey) defaultSelector
                 (configMaps (sampleCluster noFaults)) = [appConfigMap])
    by (vm_compute; reflexivity).
  assert (H4 : listFrom secMeta (keyNamespace appKey) defaultSelector
                 (secrets (sampleCluster noFaults)) = [])
    by reflexivity.
  assert (H5 : Simple.hashConfigMapContent appConfigMap ≠ "")
    by (vm_compute; discriminate).
  destruct (C3_generalized_rehashes_simple (sampleCluster noFaults) appKey
              appConfigMap H1 H2 H3 H4 H5) as (_ & Hsimple & Hgeneral).
  split; [exact H1|]. split; [exact H2|].
  unfold simpleRun, generalizedRun. rewrite Hsimple, Hgeneral.
  split; vm_compute; reflexivity.
Defined.

(** * Further properties *)

(** ** Flag parsing *)

Lemma splitComma_nonempty (value : string) : splitComma value ≠ [].
Proof.
  induction value as [|c rest IH]; simpl; [done|].
  destruct (Ascii.eqb c ","); [done|]. by destruct (splitComma rest).
Qed.

Lemma splitComma_app (a b : string) :
  splitComma (a +:+ "," +:+ b) = splitComma a ++ splitComma b.
Proof.
  induction a as [|c a IH]; [done|].
  change (String c a +:+ "," +:+ b) with (String c (a +:+ "," +:+ b)).
  cbn [splitComma]. rewrite IH.
  destruct (Ascii.eqb c ","); [done|].
  pose proof (splitComma_nonempty a).
  by destruct (splitComma a).
Qed.

Lemma elem_of_entries (TrimSpace : string → string) (items : list string)
    (acc : gset string) (k : string) :
  k ∈ fold_left (fun (entries : gset string) item =>
                   let key := TrimSpace item in
                   if String.eqb key "" then entries
                   else {[ key ]} ∪ entries) items acc
  ↔ k ∈ acc ∨ (k ≠ "" ∧ ∃ item, item ∈ items ∧ TrimSpace item = k).
Proof.
  revert acc. induction items as [|item items IH]; intros acc; simpl.
  - split; [tauto|]. intros [?|(_ & item & Hin & _)]; [done|]. by inv Hin.
  - rewrite IH. destruct (String.eqb (TrimSpace item) "") eqn:E.
    + apply String.eqb_eq in E. split.
      * intros [?|(Hk & i & Hin & Hi)]; [tauto|]. right. split; [done|].
        exists i. split; [by right|done].
      * intros [?|(Hk & i & Hin & Hi)]; [tauto|]. right. split; [done|].
        exists i. split; [|done].
        apply elem_of_cons in Hin as [->|Hin]; [congruence|done].
    + apply String.eqb_neq in E. rewrite elem_of_union, elem_of_singleton.
      split.
      * intros [[->|?]|(Hk & i & Hin & Hi)]; [|tauto|].
        -- right. split; [done|]. exists item. split; [by left|done].
        -- right. split; [done|]. exists i. split; [by right|done].
      * intros [?|(Hk & i & Hin & Hi)]; [tauto|].
        apply elem_of_cons in Hin as [->|Hin]; [by left; left|].
        right. split; [done|]. by exists i.
Qed.

Lemma inKeySet_parseKeySet (TrimSpace : string → string) (value k : string) :
  inKeySet k (parseKeySet TrimSpace value) ↔
  k ≠ "" ∧ ∃ item, item ∈ splitComma value ∧ TrimSpace item = k.
Proof.
  unfold parseKeySet. cbv zeta.
  rewrite bool_decide_eq_false_2
    by (pose proof (splitComma_nonempty value);
        by destruct (splitComma value)).
  pose proof (elem_of_entries TrimSpace (splitComma value) ∅ k) as Hmem.
  case_bool_decide as Hsize; simpl.
  - apply size_empty_inv in Hsize. split; [done|]. intros H.
    assert (Hk : k ∈ (∅ : gset string)); [|set_solver].
    apply Hsize, Hmem. by right.
  - rewrite Hmem. split; [|tauto]. intros [?|?]; [set_solver|done].
Qed.

Lemma parseKeySet_never_empty (TrimSpace : string → string) (value : string) :
  parseKeySet TrimSpace value ≠ Some ∅.
Proof.
  unfold parseKeySet. cbv zeta. case_bool_decide; [done|].
  case_bool_decide as Hsize; [done|]. intros [= Heq].
  by rewrite Heq in Hsize.
Qed.

(** X1.  The keys of [parseKeySet]: a key is in the set exactly when it is
    not empty and is what [TrimSpace] leaves of one of the comma-separated
    items of the flag value. *)
Theorem parseKeySet_members :
  ∀ (TrimSpace : string → string) (value k : string),
    inKeySet k (parseKeySet TrimSpace value) ↔
    k ≠ "" ∧ ∃ item, item ∈ splitComma value ∧ TrimSpace item = k.
Proof. exact inKeySet_parseKeySet. Qed.

(** X2.  [parseKeySet] returns nil exactly when every item of the value is
    empty once trimmed, and it never returns a set that is empty without
    being nil. *)
Theorem parseKeySet_nil :
  ∀ (TrimSpace : string → string) (value : string),
    (parseKeySet TrimSpace value = None ↔
     ∀ item, item ∈ splitComma value → TrimSpace item = "") ∧
    parseKeySet TrimSpace value ≠ Some ∅.
Proof.
  intros TrimSpace value.
  pose proof (inKeySet_parseKeySet TrimSpace value) as Hmem.
  pose proof (parseKeySet_never_empty TrimSpace value) as Hne.
  split; [|done]. split.
  - intros Hnil item Hin.
    destruct (decide (TrimSpace item = "")) as [|Hk]; [done|].
    assert (H : inKeySet (TrimSpace item) (parseKeySet TrimSpace value))
      by (apply Hmem; eauto).
    by rewrite Hnil in H.
  - intros Hall. destruct (parseKeySet TrimSpace value) as [s|] eqn:E;
      [|done].
    destruct (set_choose_or_empty s) as [[k Hk]|Hempty].
    + assert (H : inKeySet k (Some s)) by done.
      apply Hmem in H as (Hne' & item & Hin & <-).
      by rewrite Hall in Hne'.
    + apply leibniz_equiv in Hempty. congruence.
Qed.

Lemma parseKeySet_ext (TrimSpace : string → string) (v1 v2 : string) :
  (∀ k, (∃ item, item ∈ splitComma v1 ∧ TrimSpace item = k) ↔
        (∃ item, item ∈ splitComma v2 ∧ TrimSpace item = k)) →
  parseKeySet TrimSpace v1 = parseKeySet TrimSpace v2.
Proof.
  intros Hsame.
  assert (Hmem : ∀ k, inKeySet k (parseKeySet TrimSpace v1) ↔
                      inKeySet k (parseKeySet TrimSpace v2)).
  { intros k. rewrite !inKeySet_parseKeySet. by rewrite Hsame. }
  pose proof (parseKeySet_never_empty TrimSpace v1) as Hne1.
  pose proof (parseKeySet_never_empty TrimSpace v2) as Hne2.
  destruct (parseKeySet TrimSpace v1) as [s1|],
           (parseKeySet TrimSpace v2) as [s2|]; simpl in *.
  - f_equal. apply set_eq. exact Hmem.
  - destruct (set_choose_or_empty s1) as [[k Hk]|Hempty].
    + by apply Hmem in Hk.
    + apply leibniz_equiv in Hempty. congruence.
  - destruct (set_choose_or_empty s2) as [[k Hk]|Hempty].
    + by apply Hmem in Hk.
    + apply leibniz_equiv in Hempty. congruence.
  - done.
Qed.

(** X3.  The order of the items of a flag value and their repetition do not
    matter to [parseKeySet]. *)
Theorem parseKeySet_order_and_repetition :
  ∀ (TrimSpace : string → string) (a b : string),
    parseKeySet TrimSpace (a +:+ "," +:+ b)
      = parseKeySet TrimSpace (b +:+ "," +:+ a) ∧
    parseKeySet TrimSpace (a +:+ "," +:+ a) = parseKeySet TrimSpace a.
Proof.
  intros TrimSpace a b. split; apply parseKeySet_ext; intros k;
    rewrite ?splitComma_app; split; intros (item & Hin & Heq);
    exists item; (split; [|done]);
    rewrite ?elem_of_app in *; tauto.
Qed.

(** The cases of [TestParseKeySet]. *)
Example parseKeySet_test :
  parseKeySet asciiTrimSpace "a,b, c , ," = Some {[ "a"; "b"; "c" ]} ∧
  parseKeySet asciiTrimSpace "" = None.
Proof. split; vm_compute; reflexivity. Qed.

(** ** Secrets *)

Lemma secretPreimage_keys (secret : Secret) (ignoredKeys : KeySet) :
  secretPreimage secret ignoredKeys =
    let keys := collectKeys "d:" (SecretData secret) ignoredKeys in
    if bool_decide (length keys = 0%nat) then None
    else Some (flat_map (writeSecretKey secret) (sortStrings keys)).
Proof.
  unfold secretPreimage.
  destruct (bool_decide (size (SecretData secret) = 0%nat)) eqn:E; [|done].
  apply bool_decide_eq_true in E. simpl.
  unfold collectKeys. by rewrite (rangeKeys_empty _ E).
Qed.

Lemma writeSecretKey_tagged (secret : Secret) (k0 : string) :
  writeSecretKey secret ("d:" +:+ k0) =
    bytes_of_string "d" ++ bytes_of_string k0 ++ [x00]
      ++ index [] (SecretData secret) k0 ++ [x00].
Proof.
  change ("d:" +:+ k0) with (String "d" (String ":" k0)).
  unfold writeSecretKey. by rewrite sliceFrom_tagged.
Qed.

(** Two Secrets with the same entries under the surviving keys feed the
    same bytes to the hasher. *)
Lemma secretPreimage_agree (secret secret' : Secret) (ignoredKeys : KeySet) :
  (∀ k, survives ignoredKeys k →
        SecretData secret !! k = SecretData secret' !! k) →
  secretPreimage secret ignoredKeys = secretPreimage secret' ignoredKeys.
Proof.
  intros Hsame. rewrite !secretPreimage_keys. cbv zeta.
  assert (P : collectKeys "d:" (SecretData secret) ignoredKeys
              ≡ₚ collectKeys "d:" (SecretData secret') ignoredKeys).
  { apply collectKeys_Permutation. intros k Hk. by rewrite (Hsame k Hk). }
  rewrite (Permutation_length P), <- (sortStrings_Permutation _ _ P).
  case_bool_decide; [done|]. f_equal.
  apply flat_map_agree. intros k Hin. rewrite sortStrings_perm in Hin.
  apply elem_of_collectKeys in Hin as (k0 & -> & Hs & _).
  rewrite !writeSecretKey_tagged. unfold index. by rewrite (Hsame k0 Hs).
Qed.

Lemma secretAllExcluded_preimage (secret : Secret) (ignoredKeys : KeySet) :
  secretAllExcluded secret ignoredKeys →
  secretPreimage secret ignoredKeys = None.
Proof.
  intros Hall. rewrite secretPreimage_keys. cbv zeta.
  assert (E : collectKeys "d:" (SecretData secret) ignoredKeys = []).
  { apply elem_of_nil_inv. intros k Hin.
    apply elem_of_collectKeys in Hin as (k0 & _ & Hs & Hin).
    apply survives_iff in Hs. by apply Hs, Hall. }
  by rewrite E.
Qed.

Lemma secretEntries_skip (secs1 secs2 : list Secret) (secret : Secret)
    (ign : KeySet) :
  hashSecretContent secret ign = "" →
  secretEntries (secs1 ++ secret :: secs2) ign = secretEntries (secs1 ++ secs2) ign.
Proof.
  intros H. unfold secretEntries. rewrite !omap_app. simpl. by rewrite H.
Qed.

(** X4.  Exclusion invariance for Secrets: setting or deleting an entry
    under an excluded key leaves the fingerprint of [hashSecretContent]
    unchanged, and a Secret all of whose entries are excluded has the empty
    fingerprint and drops out of the aggregate. *)
Theorem hashSecretContent_exclusion_invariance :
  ∀ (secret src : Secret) (ignoredConfigMapKeys ignoredKeys : KeySet)
    (k : string) (b : list byte) (configMaps : list ConfigMap)
    (before after : list Secret),
    inKeySet k ignoredKeys →
    secretAllExcluded src ignoredKeys →
    hashSecretContent
        (withSecretData secret (<[k := b]> (SecretData secret))) ignoredKeys
      = hashSecretContent secret ignoredKeys ∧
    hashSecretContent
        (withSecretData secret (delete k (SecretData secret))) ignoredKeys
      = hashSecretContent secret ignoredKeys ∧
    hashSecretContent src ignoredKeys = "" ∧
    hashConfigSources configMaps (before ++ src :: after)
        ignoredConfigMapKeys ignoredKeys
      = hashConfigSources configMaps (before ++ after)
          ignoredConfigMapKeys ignoredKeys.
Proof.
  intros secret src ignC ign k b cms before after Hk Hall.
  assert (Hne : ∀ k', survives ign k' → k ≠ k').
  { intros k' Hs ->. by apply survives_iff in Hs. }
  assert (Hsrc : hashSecretContent src ign = "").
  { unfold hashSecretContent. by rewrite secretAllExcluded_preimage. }
  split; [|split; [|split]].
  - unfold hashSecretContent.
    rewrite (secretPreimage_agree _ secret); [done|].
    intros k' Hs. simpl. by rewrite lookup_insert_ne by auto.
  - unfold hashSecretContent.
    rewrite (secretPreimage_agree _ secret); [done|].
    intros k' Hs. simpl. by rewrite lookup_delete_ne by auto.
  - done.
  - unfold hashConfigSources, sourcesPreimage.
    by rewrite secretEntries_skip.
Qed.

(** Where two hashing loops differ in what they write for one key of a
    duplicate-free key list, they differ in all they write. *)
Lemma flat_map_one_differs {A B : Type} (f g : A → list B) (l : list A)
    (x : A) :
  NoDup l → x ∈ l → (∀ y, y ∈ l → y ≠ x → f y = g y) → f x ≠ g x →
  flat_map f l ≠ flat_map g l.
Proof.
  intros Hnd Hin Hother Hx Heq.
  apply list_elem_of_split in Hin as (l1 & l2 & ->).
  apply NoDup_app in Hnd as (_ & Hl1 & Hnd).
  apply NoDup_cons in Hnd as [Hl2 _].
  rewrite !flat_map_app in Heq. simpl in Heq.
  rewrite (flat_map_agree f g l1), (flat_map_agree f g l2) in Heq.
  - by apply app_inv_head, app_inv_tail in Heq.
  - intros y Hy. apply Hother.
    + apply elem_of_app. right. by right.
    + intros ->. by apply Hl2.
  - intros y Hy. apply Hother.
    + apply elem_of_app. by left.
    + intros ->. by apply (Hl1 _ Hy); left.
Qed.

Lemma NoDup_sortStrings (l : list string) : NoDup l → NoDup (sortStrings l).
Proof. by rewrite sortStrings_perm. Qed.

(** X5.  Sensitivity of [hashSecretContent]: changing the value under any
    surviving key, the empty key included, changes the bytes fed to the
    hasher, and so the fingerprint unless SHA-256 collides on the two
    inputs. *)
Theorem hashSecretContent_value_sensitive :
  ∀ (secret : Secret) (ignoredKeys : KeySet) (k : string) (v v' : list byte),
    survives ignoredKeys k →
    SecretData secret !! k = Some v →
    v ≠ v' →
    ∃ p p',
      secretPreimage secret ignoredKeys = Some p ∧
      secretPreimage
        (withSecretData secret (<[k := v']> (SecretData secret))) ignoredKeys
        = Some p' ∧
      p ≠ p' ∧
      (CollisionFree p p' →
       hashSecretContent secret ignoredKeys ≠
       hashSecretContent
         (withSecretData secret (<[k := v']> (SecretData secret)))
         ignoredKeys).
Proof.
  intros secret ign k v v' Hs Hv Hne.
  set (secret' := withSecretData secret (<[k := v']> (SecretData secret))).
  unfold hashSecretContent. rewrite !secretPreimage_keys. cbv zeta.
  set (keys := collectKeys "d:" (SecretData secret) ign).
  assert (P : keys ≡ₚ collectKeys "d:" (SecretData secret') ign).
  { apply collectKeys_Permutation. intros k0 _. simpl.
    destruct (decide (k = k0)) as [->|Hkk].
    - rewrite lookup_insert_eq, Hv. split; eauto.
    - by rewrite lookup_insert_ne. }
  rewrite <- (Permutation_length P), <- (sortStrings_Permutation _ _ P).
  assert (Hin : "d:" +:+ k ∈ sortStrings keys).
  { rewrite sortStrings_perm. apply elem_of_collectKeys. exists k.
    rewrite Hv. eauto. }
  assert (Hlen : length keys ≠ 0%nat).
  { rewrite <- (Permutation_length (sortStrings_perm keys)).
    destruct (sortStrings keys); [by inv Hin|done]. }
  rewrite bool_decide_eq_false_2 by done.
  assert (Hdiff : flat_map (writeSecretKey secret) (sortStrings keys)
                  ≠ flat_map (writeSecretKey secret') (sortStrings keys)).
  { apply (flat_map_one_differs _ _ _ ("d:" +:+ k)); [|done| |].
    - apply NoDup_sortStrings, NoDup_collectKeys.
    - intros y Hy Hyk. rewrite sortStrings_perm in Hy.
      apply elem_of_collectKeys in Hy as (k0 & -> & _ & _).
      rewrite !writeSecretKey_tagged. unfold index. simpl.
      rewrite lookup_insert_ne; [done|]. intros ->. by apply Hyk.
    - rewrite !writeSecretKey_tagged. unfold index. simpl.
      rewrite lookup_insert_eq, Hv. simpl. intros Heq.
      injection Heq as Heq. apply app_inv_head in Heq.
      injection Heq as Heq. by apply app_inv_tail in Heq. }
  eexists _, _. split; [done|]. split; [done|]. split; [done|].
  intros Hfree. by apply sha256_hex_differs.
Qed.

(** ** ConfigMaps *)

(** X6.  The exclusion flags end to end: a key that an item of the flag
    value names (after trimming) never takes part in a fingerprint computed
    under [parseKeySet] of that value: setting it in [Data], in
    [BinaryData] or in a Secret's data leaves the fingerprint as it was. *)
Theorem flag_key_never_hashed :
  ∀ (TrimSpace : string → string) (value item : string)
    (cfg : ConfigMap) (secret : Secret) (v : string) (b : list byte),
    item ∈ splitComma value →
    TrimSpace item ≠ "" →
    hashConfigMapContent
        (withData cfg (<[TrimSpace item := v]> (Data cfg)))
        (parseKeySet TrimSpace value)
      = hashConfigMapContent cfg (parseKeySet TrimSpace value) ∧
    hashConfigMapContent
        (withBinaryData cfg (<[TrimSpace item := b]> (BinaryData cfg)))
        (parseKeySet TrimSpace value)
      = hashConfigMapContent cfg (parseKeySet TrimSpace value) ∧
    hashSecretContent
        (withSecretData secret (<[TrimSpace item := b]> (SecretData secret)))
        (parseKeySet TrimSpace value)
      = hashSecretContent secret (parseKeySet TrimSpace value).
Proof.
  intros TrimSpace value item cfg secret v b Hitem Hkey.
  set (ign := parseKeySet TrimSpace value).
  assert (Hin : inKeySet (TrimSpace item) ign).
  { apply inKeySet_parseKeySet. split; [done|]. by exists item. }
  assert (Hne : ∀ k', survives ign k' → TrimSpace item ≠ k').
  { intros k' Hs E. apply survives_iff in Hs. apply Hs. by rewrite <- E. }
  split; [|split].
  - apply hashConfigMapContent_agree, configMapPreimage_agree; simpl;
      intros k' Hs; try done; intros; by rewrite lookup_insert_ne by auto.
  - apply hashConfigMapContent_agree, configMapPreimage_agree; simpl;
      intros k' Hs; try done; intros; by rewrite lookup_insert_ne by auto.
  - unfold hashSecretContent.
    rewrite (secretPreimage_agree _ secret); [done|].
    intros k' Hs. simpl. by rewrite lookup_insert_ne by auto.
Qed.

(** X6 at the flag value [upstreams.yaml, tls.key]. *)
Lemma flag_key_never_hashed_witness :
  " tls.key" ∈ splitComma "upstreams.yaml, tls.key" ∧
  asciiTrimSpace " tls.key" = "tls.key" ∧
  hashConfigMapContent
      (withData appConfigMap
         (<[asciiTrimSpace " tls.key" := "secret"]> (Data appConfigMap)))
      (parseKeySet asciiTrimSpace "upstreams.yaml, tls.key")
    = hashConfigMapContent appConfigMap
        (parseKeySet asciiTrimSpace "upstreams.yaml, tls.key").
Proof.
  assert (H1 : " tls.key" ∈ splitComma "upstreams.yaml, tls.key").
  { vm_compute. apply list_elem_of_further, list_elem_of_here. }
  assert (H2 : asciiTrimSpace " tls.key" ≠ "").
  { vm_compute. discriminate. }
  destruct (flag_key_never_hashed asciiTrimSpace "upstreams.yaml, tls.key"
              " tls.key" appConfigMap appSecret "secret" [] H1 H2)
    as (Hd & _ & _).
  split; [exact H1|]. split; [vm_compute; reflexivity|]. exact Hd.
Defined.

(** X7.  Sensitivity of [hashConfigMapContent]: changing the value under a
    surviving key other than the empty one, in [Data] or in [BinaryData],
    changes the bytes fed to the hasher, and so the fingerprint unless
    SHA-256 collides on the two inputs. *)
Theorem hashConfigMapContent_value_sensitive :
  ∀ (cfg : ConfigMap) (ignoredKeys : KeySet) (k : string),
    survives ignoredKeys k →
    k ≠ "" →
    (∀ v v' : string,
        Data cfg !! k = Some v → v ≠ v' →
        ∃ p p',
          configMapPreimage cfg ignoredKeys = Some p ∧
          configMapPreimage (withData cfg (<[k := v']> (Data cfg)))
            ignoredKeys = Some p' ∧
          p ≠ p' ∧
          (CollisionFree p p' →
           hashConfigMapContent cfg ignoredKeys ≠
           hashConfigMapContent (withData cfg (<[k := v']> (Data cfg)))
             ignoredKeys)) ∧
    (∀ b b' : list byte,
        BinaryData cfg !! k = Some b → b ≠ b' →
        ∃ p p',
          configMapPreimage cfg ignoredKeys = Some p ∧
          configMapPreimage
            (withBinaryData cfg (<[k := b']> (BinaryData cfg)))
            ignoredKeys = Some p' ∧
          p ≠ p' ∧
          (CollisionFree p p' →
           hashConfigMapContent cfg ignoredKeys ≠
           hashConfigMapContent
             (withBinaryData cfg (<[k := b']> (BinaryData cfg)))
             ignoredKeys)).
Proof.
  intros cfg ign k Hs Hk.
  assert (Hsame : ∀ {V} (m : gmap string V) (x y : V) (k0 : string),
             m !! k = Some x →
             is_Some (m !! k0) ↔ is_Some (<[k := y]> m !! k0)).
  { intros V m x y k0 Hx. destruct (decide (k = k0)) as [->|Hkk].
    - rewrite lookup_insert_eq, Hx. split; eauto.
    - by rewrite lookup_insert_ne. }
  assert (Hsome : ∀ cfg' (x : string),
             collectKeys "s:" (Data cfg) ign ++ collectKeys "b:" (BinaryData cfg) ign
               ≡ₚ collectKeys "s:" (Data cfg') ign
                    ++ collectKeys "b:" (BinaryData cfg') ign →
             x ∈ collectKeys "s:" (Data cfg) ign
                   ++ collectKeys "b:" (BinaryData cfg) ign →
             (∀ y, y ∈ collectKeys "s:" (Data cfg) ign
                         ++ collectKeys "b:" (BinaryData cfg) ign →
                   y ≠ x → writeConfigMapKey cfg y = writeConfigMapKey cfg' y) →
             writeConfigMapKey cfg x ≠ writeConfigMapKey cfg' x →
             ∃ p p',
               configMapPreimage cfg ign = Some p ∧
               configMapPreimage cfg' ign = Some p' ∧
               p ≠ p' ∧
               (CollisionFree p p' →
                hashConfigMapContent cfg ign ≠ hashConfigMapContent cfg' ign)).
  { intros cfg' x P Hin Hother Hx.
    unfold hashConfigMapContent. rewrite !configMapPreimage_keys. cbv zeta.
    rewrite <- (Permutation_length P), <- (sortStrings_Permutation _ _ P).
    set (keys := collectKeys "s:" (Data cfg) ign
                   ++ collectKeys "b:" (BinaryData cfg) ign) in *.
    assert (Hlen : length keys ≠ 0%nat).
    { destruct keys; [by inv Hin|done]. }
    rewrite bool_decide_eq_false_2 by done.
    assert (Hdiff : flat_map (writeConfigMapKey cfg) (sortStrings keys)
                    ≠ flat_map (writeConfigMapKey cfg') (sortStrings keys)).
    { apply (flat_map_one_differs _ _ _ x); [| | |done].
      - apply NoDup_sortStrings, NoDup_configMapKeys.
      - by rewrite sortStrings_perm.
      - intros y Hy. rewrite sortStrings_perm in Hy. by apply Hother. }
    eexists _, _. split; [done|]. split; [done|]. split; [done|].
    intros Hfree. by apply sha256_hex_differs. }
  split.
  - intros v v' Hv Hne.
    apply (Hsome _ ("s:" +:+ k)).
    + apply Permutation_app; [|done].
      apply collectKeys_Permutation. intros k0 _. simpl. by eapply Hsame.
    + apply elem_of_app. left. apply elem_of_collectKeys. exists k.
      rewrite Hv. eauto.
    + intros y Hy Hyk. apply elem_of_app in Hy as [Hy|Hy];
        apply elem_of_collectKeys in Hy as (k0 & -> & _ & _).
      * rewrite !writeConfigMapKey_text. unfold index. simpl.
        rewrite lookup_insert_ne; [done|]. intros ->. by apply Hyk.
      * by rewrite !writeConfigMapKey_binary.
    + rewrite !writeConfigMapKey_text. unfold index. simpl.
      rewrite bool_decide_eq_true_2 by done.
      rewrite lookup_insert_eq, Hv. simpl. intros Heq.
      injection Heq as Heq. apply app_inv_tail, app_inv_head in Heq.
      injection Heq as Heq.
      apply Hne. apply (f_equal string_of_list_byte) in Heq.
      unfold bytes_of_string in Heq.
      by rewrite !string_of_list_byte_of_string in Heq.
  - intros b b' Hb Hne.
    apply (Hsome _ ("b:" +:+ k)).
    + apply Permutation_app; [done|].
      apply collectKeys_Permutation. intros k0 _. simpl. by eapply Hsame.
    + apply elem_of_app. right. apply elem_of_collectKeys. exists k.
      rewrite Hb. eauto.
    + intros y Hy Hyk. apply elem_of_app in Hy as [Hy|Hy];
        apply elem_of_collectKeys in Hy as (k0 & -> & _ & _).
      * by rewrite !writeConfigMapKey_text.
      * rewrite !writeConfigMapKey_binary. unfold index. simpl.
        rewrite lookup_insert_ne; [done|]. intros ->. by apply Hyk.
    + rewrite !writeConfigMapKey_binary. unfold index. simpl.
      rewrite bool_decide_eq_true_2 by done.
      rewrite lookup_insert_eq, Hb. simpl. intros Heq.
      injection Heq as Heq. apply app_inv_tail, app_inv_head in Heq.
      injection Heq as Heq. by apply Hne.
Qed.

(** X4 with [tls.key] excluded. *)
Lemma hashSecretContent_exclusion_invariance_witness :
  inKeySet "tls.key" (Some {[ "tls.key" ]}) ∧
  secretAllExcluded
    (mkSecret (mkMeta "synapse" "tls" synapseLabels) {[ "tls.key" := [x2d] ]})
    (Some {[ "tls.key" ]}) ∧
  hashSecretContent
      (withSecretData appSecret
         (<["tls.key" := [x2d; x2d]]> (SecretData appSecret)))
      (Some {[ "tls.key" ]})
    = hashSecretContent appSecret (Some {[ "tls.key" ]}) ∧
  hashConfigSources [appConfigMap]
      ([appSecret]
         ++ mkSecret (mkMeta "synapse" "tls" synapseLabels)
                     {[ "tls.key" := [x2d] ]} :: [])
      None (Some {[ "tls.key" ]})
    = hashConfigSources [appConfigMap] ([appSecret] ++ [])
        None (Some {[ "tls.key" ]}).
Proof.
  assert (H1 : inKeySet "tls.key" (Some {[ "tls.key" ]})).
  { simpl. apply elem_of_singleton. reflexivity. }
  assert (H2 : secretAllExcluded
                 (mkSecret (mkMeta "synapse" "tls" synapseLabels)
                           {[ "tls.key" := [x2d] ]})
                 (Some {[ "tls.key" ]})).
  { intros k [v Hv]. simpl in *.
    apply lookup_singleton_Some in Hv as [<- _].
    apply elem_of_singleton. reflexivity. }
  destruct (hashSecretContent_exclusion_invariance appSecret
              (mkSecret (mkMeta "synapse" "tls" synapseLabels)
                        {[ "tls.key" := [x2d] ]})
              None (Some {[ "tls.key" ]}) "tls.key" [x2d; x2d]
              [appConfigMap] [appSecret] [] H1 H2)
    as (Hset & _ & _ & Hagg).
  exact (conj H1 (conj H2 (conj Hset Hagg))).
Defined.

(** X5 at the token of [appSecret]. *)
Lemma hashSecretContent_value_sensitive_witness :
  survives None "token" ∧
  SecretData appSecret !! "token" = Some (bytes_of_string "hunter2") ∧
  ∃ p p',
    secretPreimage appSecret None = Some p ∧
    secretPreimage
      (withSecretData appSecret
         (<["token" := bytes_of_string "hunter3"]> (SecretData appSecret)))
      None = Some p' ∧
    p ≠ p'.
Proof.
  assert (H1 : survives None "token") by reflexivity.
  assert (H2 : SecretData appSecret !! "token"
               = Some (bytes_of_string "hunter2")).
  { apply lookup_singleton_eq. }
  assert (H3 : bytes_of_string "hunter2" ≠ bytes_of_string "hunter3").
  { vm_compute. discriminate. }
  destruct (hashSecretContent_value_sensitive appSecret None "token"
              (bytes_of_string "hunter2") (bytes_of_string "hunter3")
              H1 H2 H3)
    as (p & p' & Hp & Hp' & Hne & _).
  split; [exact H1|]. split; [exact H2|].
  exists p, p'. exact (conj Hp (conj Hp' Hne)).
Defined.

(** X7 at the certificate of
    [tlsConfigMap]. *)
Lemma hashConfigMapContent_value_sensitive_witness :
  survives upstreamsIgnored "ca.crt" ∧
  (∃ p p',
     configMapPreimage tlsConfigMap upstreamsIgnored = Some p ∧
     configMapPreimage
       (withData tlsConfigMap (<["ca.crt" := "rotated"]> (Data tlsConfigMap)))
       upstreamsIgnored = Some p' ∧
     p ≠ p') ∧
  (∃ p p',
     configMapPreimage
       (withBinaryData tlsConfigMap
          (<["ca.crt" := [x01]]> (BinaryData tlsConfigMap)))
       upstreamsIgnored = Some p ∧
     configMapPreimage
       (withBinaryData tlsConfigMap
          (<["ca.crt" := [x02]]> (BinaryData tlsConfigMap)))
       upstreamsIgnored = Some p' ∧
     p ≠ p').
Proof.
  assert (H1 : survives upstreamsIgnored "ca.crt").
  { vm_compute. reflexivity. }
  assert (H2 : "ca.crt" ≠ "") by discriminate.
  split; [exact H1|]. split.
  - destruct (hashConfigMapContent_value_sensitive tlsConfigMap
                upstreamsIgnored "ca.crt" H1 H2) as [Htext _].
    destruct (Htext "-----BEGIN CERTIFICATE-----" "rotated")
      as (p & p' & Hp & Hp' & Hne & _).
    + apply lookup_singleton_eq.
    + discriminate.
    + exists p, p'. exact (conj Hp (conj Hp' Hne)).
  - destruct (hashConfigMapContent_value_sensitive
                (withBinaryData tlsConfigMap
                   (<["ca.crt" := [x01]]> (BinaryData tlsConfigMap)))
                upstreamsIgnored "ca.crt" H1 H2) as [_ Hbin].
    destruct (Hbin [x01] [x02]) as (p & p' & Hp & Hp' & Hne & _).
    + apply lookup_insert_eq.
    + discriminate.
    + simpl in Hp'. rewrite insert_insert_eq in Hp'.
      exists p, p'. exact (conj Hp (conj Hp' Hne)).
Defined.

(** ** What the framing of the hasher input leaves open *)

Lemma bytes_of_string_app (s1 s2 : string) :
  bytes_of_string (s1 +:+ s2) = bytes_of_string s1 ++ bytes_of_string s2.
Proof.
  unfold bytes_of_string, list_byte_of_string.
  induction s1 as [|a s1 IH]; simpl; [reflexivity|]. by rewrite IH.
Qed.

Lemma sortStrings_sorted_id (l : list string) :
  Sorted string_le l → sortStrings l = l.
Proof.
  intros H. apply (Sorted_unique string_le); [apply sortStrings_sorted|done|].
  apply sortStrings_perm.
Qed.

Lemma string_le_tagged (a b : ascii) (k1 k2 : string) :
  string_le k1 k2 → string_le (String a (String b k1)) (String a (String b k2)).
Proof.
  assert (E : ∀ c, Ascii.compare c c = Eq)
    by (intros c; unfold Ascii.compare; apply N.compare_refl).
  unfold string_le, String.leb. simpl. by rewrite !E.
Qed.

Lemma tagged_inj (tag k1 k2 : string) : tag +:+ k1 = tag +:+ k2 → k1 = k2.
Proof. induction tag as [|a tag IH]; simpl; [done|]. intros [= H]. auto. Qed.

(** The surviving keys of a map of two entries, and of one. *)
Lemma collectKeys_two {V : Type} (tag : string) (k1 k2 : string) (v1 v2 : V)
    (ign : KeySet) :
  k1 ≠ k2 → survives ign k1 → survives ign k2 →
  collectKeys tag (<[k1 := v1]> {[ k2 := v2 ]}) ign
    ≡ₚ [tag +:+ k1; tag +:+ k2].
Proof.
  intros Hne H1 H2. apply NoDup_Permutation.
  - apply NoDup_collectKeys.
  - apply NoDup_cons. split; [|apply NoDup_singleton].
    intros Hin. apply list_elem_of_singleton in Hin.
    by apply tagged_inj in Hin.
  - intros x. rewrite elem_of_collectKeys. split.
    + intros (k0 & -> & _ & Hsome).
      destruct (decide (k1 = k0)) as [->|Hk]; [by left|].
      rewrite lookup_insert_ne in Hsome by done.
      destruct Hsome as [v Hv]. apply lookup_singleton_Some in Hv as [<- _].
      right. by left.
    + intros Hin. apply elem_of_cons in Hin as [->|Hin].
      * exists k1. rewrite lookup_insert_eq. eauto.
      * apply list_elem_of_singleton in Hin as ->. exists k2.
        rewrite lookup_insert_ne, lookup_singleton_eq by done. eauto.
Qed.

Lemma collectKeys_one {V : Type} (tag : string) (k : string) (v : V)
    (ign : KeySet) :
  survives ign k → collectKeys tag ({[ k := v ]} : gmap string V) ign = [tag +:+ k].
Proof.
  intros Hs. unfold collectKeys, rangeKeys.
  rewrite map_to_list_singleton. simpl.
  rewrite filter_cons_True by done. done.
Qed.

Lemma collectKeys_none {V : Type} (tag : string) (ign : KeySet) :
  collectKeys tag (∅ : gmap string V) ign = [].
Proof. unfold collectKeys, rangeKeys. by rewrite map_to_list_empty. Qed.

Lemma string_le_empty (k : string) : string_le k "" → k = "".
Proof. destruct k; [done|]. unfold string_le, String.leb. by simpl. Qed.

Lemma bytes_of_spliced (v1 k2 v2 : string) :
  bytes_of_string (spliced v1 k2 v2) =
    bytes_of_string v1 ++ [x00] ++ bytes_of_string "s" ++ bytes_of_string k2
      ++ [x00] ++ bytes_of_string v2.
Proof.
  unfold spliced. rewrite bytes_of_string_app.
  change (String Ascii.zero ("s" +:+ k2 +:+ String Ascii.zero v2))
    with ((String Ascii.zero "s") +:+ (k2 +:+ String Ascii.zero v2)).
  rewrite !bytes_of_string_app. reflexivity.
Qed.

(** X8.  The separators do not make the hasher input of
    [hashConfigMapContent] unambiguous: a ConfigMap with the two entries
    [k1 := v1] and [k2 := v2] and the ConfigMap whose one entry under [k1]
    spells out [v1], a NUL byte, the tag and [k2], a NUL byte and [v2]
    have different contents and the same fingerprint. *)
Theorem hashConfigMapContent_splice_collision :
  ∀ (meta : ObjectMeta) (ignoredKeys : KeySet) (k1 k2 v1 v2 : string),
    k1 ≠ "" → k1 ≠ k2 → string_le k1 k2 →
    survives ignoredKeys k1 → survives ignoredKeys k2 →
    Data (mkConfigMap meta (<[k1 := v1]> {[ k2 := v2 ]}) ∅)
      ≠ Data (mkConfigMap meta {[ k1 := spliced v1 k2 v2 ]} ∅) ∧
    hashConfigMapContent
        (mkConfigMap meta (<[k1 := v1]> {[ k2 := v2 ]}) ∅) ignoredKeys
      = hashConfigMapContent
          (mkConfigMap meta {[ k1 := spliced v1 k2 v2 ]} ∅) ignoredKeys.
Proof.
  intros meta ign k1 k2 v1 v2 Hk1 Hne Hle Hs1 Hs2.
  assert (Hk2 : k2 ≠ "").
  { intros ->. by apply string_le_empty in Hle. }
  split.
  - simpl. intros Heq. apply (f_equal (fun m => m !! k2)) in Heq.
    rewrite lookup_insert_ne, lookup_singleton_eq in Heq by done.
    rewrite lookup_singleton_ne in Heq by done. discriminate Heq.
  - apply hashConfigMapContent_agree. rewrite !configMapPreimage_keys.
    cbv zeta. simpl Data. simpl BinaryData.
    rewrite !collectKeys_none, !app_nil_r.
    rewrite (collectKeys_one _ _ _ _ Hs1).
    pose proof (collectKeys_two "s:" k1 k2 v1 v2 ign Hne Hs1 Hs2) as P.
    rewrite (Permutation_length P), (sortStrings_Permutation _ _ P).
    rewrite !bool_decide_eq_false_2 by (simpl; lia). f_equal.
    rewrite !sortStrings_sorted_id.
    + simpl flat_map. rewrite !writeConfigMapKey_text.
      rewrite !bool_decide_eq_true_2 by done. unfold index. simpl Data.
      rewrite lookup_insert_eq, lookup_singleton_eq.
      rewrite lookup_insert_ne, lookup_singleton_eq by done.
      cbn [default from_option id]. rewrite bytes_of_spliced.
      rewrite !app_nil_r, <- !app_assoc. reflexivity.
    + repeat constructor.
    + repeat constructor. by apply string_le_tagged.
Qed.

(** X8 at two small entries. *)
Lemma hashConfigMapContent_splice_collision_witness :
  string_le "a.conf" "b.conf" ∧
  survives upstreamsIgnored "a.conf" ∧ survives upstreamsIgnored "b.conf" ∧
  hashConfigMapContent
      (mkConfigMap (mkMeta "synapse" "app" synapseLabels)
                   (<["a.conf" := "x=1"]> {[ "b.conf" := "y=2" ]}) ∅)
      upstreamsIgnored
    = hashConfigMapContent
        (mkConfigMap (mkMeta "synapse" "app" synapseLabels)
                     {[ "a.conf" := spliced "x=1" "b.conf" "y=2" ]} ∅)
        upstreamsIgnored.
Proof.
  assert (H1 : "a.conf" ≠ "") by discriminate.
  assert (H2 : "a.conf" ≠ "b.conf") by discriminate.
  assert (H3 : string_le "a.conf" "b.conf") by (vm_compute; reflexivity).
  assert (H4 : survives upstreamsIgnored "a.conf") by (vm_compute; reflexivity).
  assert (H5 : survives upstreamsIgnored "b.conf") by (vm_compute; reflexivity).
  destruct (hashConfigMapContent_splice_collision
              (mkMeta "synapse" "app" synapseLabels) upstreamsIgnored
              "a.conf" "b.conf" "x=1" "y=2" H1 H2 H3 H4 H5) as [_ Hsame].
  exact (conj H3 (conj H4 (conj H5 Hsame))).
Defined.

(** X9.  The separators do not make the hasher input of
    [hashSecretContent] unambiguous either: a Secret with the two entries
    [k1 := v1] and [k2 := v2] and the Secret whose one entry under [k1]
    spells out [v1], a NUL byte, the tag [d] and [k2], a NUL byte and [v2]
    have different contents and the same fingerprint; here the first key
    may be the empty one as well. *)
Theorem hashSecretContent_splice_collision :
  ∀ (meta : ObjectMeta) (ignoredKeys : KeySet) (k1 k2 : string)
    (v1 v2 : list byte),
    k1 ≠ k2 → string_le k1 k2 →
    survives ignoredKeys k1 → survives ignoredKeys k2 →
    SecretData (mkSecret meta (<[k1 := v1]> {[ k2 := v2 ]}))
      ≠ SecretData (mkSecret meta {[ k1 := splicedBytes v1 k2 v2 ]}) ∧
    hashSecretContent (mkSecret meta (<[k1 := v1]> {[ k2 := v2 ]})) ignoredKeys
      = hashSecretContent (mkSecret meta {[ k1 := splicedBytes v1 k2 v2 ]})
          ignoredKeys.
Proof.
  intros meta ign k1 k2 v1 v2 Hne Hle Hs1 Hs2.
  split.
  - simpl. intros Heq. apply (f_equal (fun m => m !! k2)) in Heq.
    rewrite lookup_insert_ne, lookup_singleton_eq in Heq by done.
    rewrite lookup_singleton_ne in Heq by done. discriminate Heq.
  - unfold hashSecretContent. rewrite !secretPreimage_keys.
    cbv zeta. simpl SecretData.
    rewrite (collectKeys_one _ _ _ _ Hs1).
    pose proof (collectKeys_two "d:" k1 k2 v1 v2 ign Hne Hs1 Hs2) as P.
    rewrite (Permutation_length P), (sortStrings_Permutation _ _ P).
    rewrite !bool_decide_eq_false_2 by (simpl; lia).
    rewrite !sortStrings_sorted_id.
    + cbn [flat_map]. rewrite !writeSecretKey_tagged.
      unfold index. simpl SecretData.
      rewrite lookup_insert_eq, lookup_singleton_eq.
      rewrite lookup_insert_ne, lookup_singleton_eq by done.
      cbn [default from_option id]. unfold splicedBytes.
      rewrite !app_nil_r, <- !app_assoc. reflexivity.
    + repeat constructor.
    + repeat constructor. by apply string_le_tagged.
Qed.

(** X9 at a Secret with a token and a
    password. *)
Lemma hashSecretContent_splice_collision_witness :
  string_le "password" "token" ∧
  survives None "password" ∧ survives None "token" ∧
  hashSecretContent
      (mkSecret (mkMeta "synapse" "app" synapseLabels)
                (<["password" := [x01]]> {[ "token" := [x02] ]}))
      None
    = hashSecretContent
        (mkSecret (mkMeta "synapse" "app" synapseLabels)
                  {[ "password" := splicedBytes [x01] "token" [x02] ]})
        None.
Proof.
  assert (H1 : "password" ≠ "token") by discriminate.
  assert (H2 : string_le "password" "token") by (vm_compute; reflexivity).
  assert (H3 : survives None "password") by reflexivity.
  assert (H4 : survives None "token") by reflexivity.
  destruct (hashSecretContent_splice_collision
              (mkMeta "synapse" "app" synapseLabels) None
              "password" "token" [x01] [x02] H1 H2 H3 H4) as [_ Hsame].
  exact (conj H2 (conj H3 (conj H4 Hsame))).
Defined.

(** ** The order of the range loops *)

Lemma collectKeysVisiting_Permutation {V : Type} (tag : string)
    (m : gmap string V) (visited : list string) (ign : KeySet) :
  NoDup visited → (∀ k, k ∈ visited ↔ is_Some (m !! k)) →
  collectKeysVisiting tag visited ign ≡ₚ collectKeys tag m ign.
Proof.
  intros Hnd Hkeys. unfold collectKeysVisiting, collectKeys.
  apply fmap_Permutation, filter_Permutation, NoDup_Permutation;
    [done|apply rangeKeys_NoDup|].
  intros k. by rewrite Hkeys, elem_of_rangeKeys.
Qed.

(** X10.  Go visits the keys of a map in an order that changes from run to
    run.  Whatever order the range loops of [hashConfigMapContent] and
    [hashSecretContent] visit the keys in, each key once, the bytes fed to
    the hasher are the same. *)
Theorem range_order_irrelevant :
  ∀ (cfg : ConfigMap) (secret : Secret) (ignoredKeys : KeySet)
    (dataOrder binaryOrder secretOrder : list string),
    NoDup dataOrder → (∀ k, k ∈ dataOrder ↔ is_Some (Data cfg !! k)) →
    NoDup binaryOrder →
    (∀ k, k ∈ binaryOrder ↔ is_Some (BinaryData cfg !! k)) →
    NoDup secretOrder →
    (∀ k, k ∈ secretOrder ↔ is_Some (SecretData secret !! k)) →
    configMapPreimageVisiting dataOrder binaryOrder cfg ignoredKeys
      = configMapPreimage cfg ignoredKeys ∧
    secretPreimageVisiting secretOrder secret ignoredKeys
      = secretPreimage secret ignoredKeys.
Proof.
  intros cfg secret ign dOrd bOrd sOrd Hd1 Hd2 Hb1 Hb2 Hs1 Hs2.
  pose proof (collectKeysVisiting_Permutation "s:" _ _ ign Hd1 Hd2) as Pd.
  pose proof (collectKeysVisiting_Permutation "b:" _ _ ign Hb1 Hb2) as Pb.
  pose proof (collectKeysVisiting_Permutation "d:" _ _ ign Hs1 Hs2) as Ps.
  split.
  - unfold configMapPreimageVisiting, configMapPreimage.
    assert (P : collectKeysVisiting "s:" dOrd ign
                  ++ collectKeysVisiting "b:" bOrd ign
                ≡ₚ collectKeys "s:" (Data cfg) ign
                  ++ collectKeys "b:" (BinaryData cfg) ign)
      by (by apply Permutation_app).
    by rewrite (Permutation_length P), (sortStrings_Permutation _ _ P).
  - unfold secretPreimageVisiting, secretPreimage.
    by rewrite (Permutation_length Ps), (sortStrings_Permutation _ _ Ps).
Qed.

(** ** Entries added *)

Lemma added_key_lengthens (f g : string → list byte) (keys keys' : list string)
    (x : string) :
  keys' ≡ₚ x :: keys → (∀ y, y ∈ keys → g y = f y) →
  (0 < length (g x))%nat →
  (length (flat_map f (sortStrings keys))
   < length (flat_map g (sortStrings keys')))%nat.
Proof.
  intros P Hsame Hx.
  assert (P' : sortStrings keys' ≡ₚ x :: sortStrings keys)
    by (by rewrite !sortStrings_perm).
  rewrite (Permutation_length (Permutation_flat_map g P')).
  cbn [flat_map]. rewrite length_app.
  rewrite (flat_map_agree g f (sortStrings keys)); [lia|].
  intros y Hy. apply Hsame. by rewrite sortStrings_perm in Hy.
Qed.

Lemma collectKeys_insert {V : Type} (tag : string) (m : gmap string V)
    (k : string) (v : V) (ign : KeySet) :
  survives ign k → m !! k = None →
  collectKeys tag (<[k := v]> m) ign ≡ₚ (tag +:+ k) :: collectKeys tag m ign.
Proof.
  intros Hs Hk. apply NoDup_Permutation.
  - apply NoDup_collectKeys.
  - apply NoDup_cons. split; [|apply NoDup_collectKeys].
    intros Hin. apply elem_of_collectKeys in Hin as (k0 & E & _ & Hsome).
    apply tagged_inj in E as <-. rewrite Hk in Hsome. by destruct Hsome.
  - intros x. rewrite elem_of_cons, !elem_of_collectKeys. split.
    + intros (k0 & -> & Hs0 & Hsome).
      destruct (decide (k = k0)) as [->|Hne]; [by left|].
      rewrite lookup_insert_ne in Hsome by done. right. eauto.
    + intros [->|(k0 & -> & Hs0 & Hsome)].
      * exists k. rewrite lookup_insert_eq. eauto.
      * exists k0. split; [done|]. split; [done|].
        rewrite lookup_insert_ne; [done|]. intros ->.
        rewrite Hk in Hsome. by destruct Hsome.
Qed.

(** X11.  An entry added under a surviving key that the source did not
    have, the empty key included, makes the input of the hasher strictly
    longer, in [Data], in [BinaryData] and in the data of a Secret; a
    source without surviving entries, which is not hashed at all, counts
    with length zero. *)
Theorem entry_added_changes_input :
  ∀ (cfg : ConfigMap) (secret : Secret) (ignoredKeys : KeySet) (k : string),
    survives ignoredKeys k →
    (∀ v : string,
        Data cfg !! k = None →
        ∃ p',
          configMapPreimage (withData cfg (<[k := v]> (Data cfg))) ignoredKeys
            = Some p' ∧
          (length (default [] (configMapPreimage cfg ignoredKeys))
           < length p')%nat) ∧
    (∀ b : list byte,
        BinaryData cfg !! k = None →
        ∃ p',
          configMapPreimage
            (withBinaryData cfg (<[k := b]> (BinaryData cfg))) ignoredKeys
            = Some p' ∧
          (length (default [] (configMapPreimage cfg ignoredKeys))
           < length p')%nat) ∧
    (∀ b : list byte,
        SecretData secret !! k = None →
        ∃ p',
          secretPreimage
            (withSecretData secret (<[k := b]> (SecretData secret)))
            ignoredKeys = Some p' ∧
          (length (default [] (secretPreimage secret ignoredKeys))
           < length p')%nat).
Proof.
  intros cfg secret ign k Hs.
  assert (Hone : ∀ c y, (0 < length (writeConfigMapKey c y))%nat).
  { intros c y. unfold writeConfigMapKey. rewrite length_app. simpl. lia. }
  assert (Hnil : ∀ (f : string → list byte) keys,
             (length
                (default []
                   (if bool_decide (length keys = 0%nat) then None
                    else Some (flat_map f (sortStrings keys))))
              = length (flat_map f (sortStrings keys)))%nat).
  { intros f keys. case_bool_decide as E; [|done].
    apply length_zero_iff_nil in E. by subst keys. }
  split; [|split].
  - intros v Hk. rewrite !configMapPreimage_keys. cbv zeta.
    rewrite Hnil. cbn [Data BinaryData withData].
    pose proof (collectKeys_insert "s:" (Data cfg) k v ign Hs Hk) as P.
    assert (P' : collectKeys "s:" (<[k := v]> (Data cfg)) ign
                   ++ collectKeys "b:" (BinaryData cfg) ign
                 ≡ₚ ("s:" +:+ k)
                      :: (collectKeys "s:" (Data cfg) ign
                            ++ collectKeys "b:" (BinaryData cfg) ign))
      by (by rewrite P).
    rewrite bool_decide_eq_false_2
      by (rewrite (Permutation_length P'); simpl; lia).
    eexists. split; [reflexivity|].
    apply (added_key_lengthens _ _ _ _ _ P'); [|apply Hone].
    intros y Hy. apply elem_of_app in Hy as [Hy|Hy];
      apply elem_of_collectKeys in Hy as (k0 & -> & _ & Hsome).
    + rewrite !writeConfigMapKey_text. unfold index. cbn [Data withData].
      rewrite lookup_insert_ne; [done|]. intros ->.
      rewrite Hk in Hsome. by destruct Hsome.
    + by rewrite !writeConfigMapKey_binary.
  - intros b Hk. rewrite !configMapPreimage_keys. cbv zeta.
    rewrite Hnil. cbn [Data BinaryData withBinaryData].
    pose proof (collectKeys_insert "b:" (BinaryData cfg) k b ign Hs Hk) as P.
    assert (P' : collectKeys "s:" (Data cfg) ign
                   ++ collectKeys "b:" (<[k := b]> (BinaryData cfg)) ign
                 ≡ₚ ("b:" +:+ k)
                      :: (collectKeys "s:" (Data cfg) ign
                            ++ collectKeys "b:" (BinaryData cfg) ign)).
    { rewrite P. by rewrite Permutation_middle. }
    rewrite bool_decide_eq_false_2
      by (rewrite (Permutation_length P'); simpl; lia).
    eexists. split; [reflexivity|].
    apply (added_key_lengthens _ _ _ _ _ P'); [|apply Hone].
    intros y Hy. apply elem_of_app in Hy as [Hy|Hy];
      apply elem_of_collectKeys in Hy as (k0 & -> & _ & Hsome).
    + by rewrite !writeConfigMapKey_text.
    + rewrite !writeConfigMapKey_binary. unfold index.
      cbn [BinaryData withBinaryData].
      rewrite lookup_insert_ne; [done|]. intros ->.
      rewrite Hk in Hsome. by destruct Hsome.
  - intros b Hk. rewrite !secretPreimage_keys. cbv zeta.
    rewrite Hnil. cbn [SecretData withSecretData].
    pose proof (collectKeys_insert "d:" (SecretData secret) k b ign Hs Hk)
      as P.
    rewrite bool_decide_eq_false_2
      by (rewrite (Permutation_length P); simpl; lia).
    eexists. split; [reflexivity|].
    apply (added_key_lengthens _ _ _ _ _ P).
    + intros y Hy. apply elem_of_collectKeys in Hy as (k0 & -> & _ & Hsome).
      rewrite !writeSecretKey_tagged. unfold index.
      cbn [SecretData withSecretData].
      rewrite lookup_insert_ne; [done|]. intros ->.
      rewrite Hk in Hsome. by destruct Hsome.
    + unfold writeSecretKey. simpl. lia.
Qed.

(** X11 at a second key of [appConfigMap]. *)
Lemma entry_added_changes_input_witness :
  survives upstreamsIgnored "log.conf" ∧
  ∃ p',
    configMapPreimage
      (withData appConfigMap (<["log.conf" := "debug"]> (Data appConfigMap)))
      upstreamsIgnored = Some p' ∧
    (length (default [] (configMapPreimage appConfigMap upstreamsIgnored))
     < length p')%nat.
Proof.
  assert (H : survives upstreamsIgnored "log.conf") by (vm_compute; reflexivity).
  split; [exact H|].
  destruct (entry_added_changes_input appConfigMap appSecret upstreamsIgnored
              "log.conf" H) as [Htext _].
  apply (Htext "debug"). apply lookup_singleton_ne. discriminate.
Defined.

(** X10 with the two keys of a ConfigMap visited last
    key first. *)
Lemma range_order_irrelevant_witness :
  NoDup ["b.conf"; "a.conf"] ∧
  configMapPreimageVisiting ["b.conf"; "a.conf"] []
      (mkConfigMap (mkMeta "synapse" "app" synapseLabels)
                   (<["a.conf" := "x=1"]> {[ "b.conf" := "y=2" ]}) ∅)
      None
    = configMapPreimage
        (mkConfigMap (mkMeta "synapse" "app" synapseLabels)
                     (<["a.conf" := "x=1"]> {[ "b.conf" := "y=2" ]}) ∅)
        None ∧
  secretPreimageVisiting ["token"] appSecret None
    = secretPreimage appSecret None.
Proof.
  assert (H1 : NoDup ["b.conf"; "a.conf"]).
  { apply NoDup_cons. split; [|apply NoDup_singleton].
    intros H. apply list_elem_of_singleton in H. discriminate H. }
  assert (H2 : ∀ k, k ∈ ["b.conf"; "a.conf"] ↔
                    is_Some ((<["a.conf" := "x=1"]> {[ "b.conf" := "y=2" ]}
                                : gmap string string) !! k)).
  { intros k. rewrite lookup_insert_is_Some, elem_of_cons.
    rewrite list_elem_of_singleton. split.
    - intros [-> | ->]; [right|left]; [|done].
      split; [discriminate|]. rewrite lookup_singleton_eq. eauto.
    - intros [<- | [_ [v Hv]]]; [by right|].
      apply lookup_singleton_Some in Hv as [<- _]. by left. }
  assert (H3 : NoDup ([] : list string)) by apply NoDup_nil_2.
  assert (H4 : ∀ k, k ∈ ([] : list string) ↔
                    is_Some ((∅ : gmap string (list byte)) !! k)).
  { intros k. rewrite lookup_empty. split.
    - intros H. by apply elem_of_nil in H.
    - intros [v Hv]. discriminate Hv. }
  assert (H5 : NoDup ["token"]) by apply NoDup_singleton.
  assert (H6 : ∀ k, k ∈ ["token"] ↔ is_Some (SecretData appSecret !! k)).
  { intros k. rewrite list_elem_of_singleton. simpl. split.
    - intros ->. rewrite lookup_singleton_eq. eauto.
    - intros [v Hv]. by apply lookup_singleton_Some in Hv as [<- _]. }
  destruct (range_order_irrelevant
              (mkConfigMap (mkMeta "synapse" "app" synapseLabels)
                           (<["a.conf" := "x=1"]> {[ "b.conf" := "y=2" ]}) ∅)
              appSecret None ["b.conf"; "a.conf"] [] ["token"]
              H1 H2 H3 H4 H5 H6) as [Hc Hs].
  exact (conj H1 (conj Hc Hs)).
Defined.

(** ** The shape of a fingerprint *)

Lemma digit_isHexDigit (b : byte) :
  isHexDigit (Hex.digit (SHA256.Z_of_byte b / 16)) = true ∧
  isHexDigit (Hex.digit (SHA256.Z_of_byte b mod 16)) = true.
Proof. destruct b; split; reflexivity. Qed.

Lemma hex_digits (bs : list byte) :
  forallb isHexDigit (list_ascii_of_string (Hex.EncodeToString bs)) = true.
Proof.
  induction bs as [|b bs IH]; [reflexivity|].
  destruct (digit_isHexDigit b) as [H1 H2].
  cbn [Hex.EncodeToString list_ascii_of_string forallb].
  by rewrite H1, H2, IH.
Qed.

Lemma isDigest_sha256_hex (msg : list byte) : isDigest (sha256_hex msg).
Proof. split; [apply sha256_hex_length|apply hex_digits]. Qed.

(** X12.  What each of the three hashing functions returns is the empty
    string or 64 digits of lower-case hexadecimal, never anything else. *)
Theorem fingerprint_shape :
  ∀ (cfg : ConfigMap) (secret : Secret) (configMaps : list ConfigMap)
    (secrets : list Secret) (ignoredConfigMapKeys ignoredSecretKeys : KeySet),
    (hashConfigMapContent cfg ignoredConfigMapKeys = "" ∨
     isDigest (hashConfigMapContent cfg ignoredConfigMapKeys)) ∧
    (hashSecretContent secret ignoredSecretKeys = "" ∨
     isDigest (hashSecretContent secret ignoredSecretKeys)) ∧
    (hashConfigSources configMaps secrets ignoredConfigMapKeys
       ignoredSecretKeys = "" ∨
     isDigest (hashConfigSources configMaps secrets ignoredConfigMapKeys
                 ignoredSecretKeys)).
Proof.
  intros cfg secret cms secs ignC ignS.
  unfold hashConfigMapContent, hashSecretContent, hashConfigSources.
  split; [|split].
  - destruct (configMapPreimage cfg ignC);
      [right; apply isDigest_sha256_hex|by left].
  - destruct (secretPreimage secret ignS);
      [right; apply isDigest_sha256_hex|by left].
  - destruct (sourcesPreimage cms secs ignC ignS);
      [right; apply isDigest_sha256_hex|by left].
Qed.

(** ** When the aggregate is empty *)

Lemma omap_nil_Forall {A B : Type} (f : A → option B) (l : list A) :
  omap f l = [] → Forall (fun x => f x = None) l.
Proof.
  induction l as [|x l IH]; [constructor|]. simpl.
  destruct (f x) eqn:E; [done|]. intros H. constructor; auto.
Qed.

(** X13.  The aggregate of [hashConfigSources] is empty exactly when every
    ConfigMap and every Secret given to it has the empty fingerprint: one
    source with surviving entries is enough for a pass to go on to the
    workloads. *)
Theorem hashConfigSources_empty_iff :
  ∀ (configMaps : list ConfigMap) (secrets : list Secret)
    (ignoredConfigMapKeys ignoredSecretKeys : KeySet),
    hashConfigSources configMaps secrets ignoredConfigMapKeys ignoredSecretKeys
      = "" ↔
    Forall (fun cfg => hashConfigMapContent cfg ignoredConfigMapKeys = "")
           configMaps ∧
    Forall (fun secret => hashSecretContent secret ignoredSecretKeys = "")
           secrets.
Proof.
  intros cms secs ignC ignS. split.
  - unfold hashConfigSources, sourcesPreimage.
    case_bool_decide as Hlen; [|intros H; by apply sha256_hex_nonempty in H].
    intros _. rewrite length_app in Hlen.
    assert (Hc : configMapEntries cms ignC = [])
      by (apply length_zero_iff_nil; lia).
    assert (Hs : secretEntries secs ignS = [])
      by (apply length_zero_iff_nil; lia).
    split.
    + apply omap_nil_Forall in Hc. eapply Forall_impl; [exact Hc|].
      intros cfg Hcfg. simpl in Hcfg.
      destruct (String.eqb _ "") eqn:E; [|done]. by apply String.eqb_eq in E.
    + apply omap_nil_Forall in Hs. eapply Forall_impl; [exact Hs|].
      intros sec Hsec. simpl in Hsec.
      destruct (String.eqb _ "") eqn:E; [|done]. by apply String.eqb_eq in E.
  - intros [Hc Hs]. by apply hashConfigSources_no_signal.
Qed.

(** ** What a pass listed and what it sent *)

Lemma omap_None {A B : Type} (f : A → option B) (l : list A) :
  Forall (fun x => f x = None) l → omap f l = [].
Proof. induction 1 as [|x l Hx _ IH]; simpl; [done|]. by rewrite Hx. Qed.

Lemma kindIndex_ne (k1 k2 : WorkloadKind) :
  k1 ≠ k2 → Nat.eqb (kindIndex k1) (kindIndex k2) = false.
Proof. destruct k1, k2; done. Qed.

Lemma expectedPairs_skip (annotationKey hash : string) (w : Workload)
    (items : list Workload) :
  annotation w annotationKey = hash →
  expectedPairs annotationKey hash (w :: items)
    = expectedPairs annotationKey hash items.
Proof.
  intros He. unfold expectedPairs, needsPatch. simpl.
  apply String.eqb_eq in He. by rewrite He.
Qed.

Lemma expectedPairs_cons (annotationKey hash : string) (w : Workload)
    (items : list Workload) :
  annotation w annotationKey ≠ hash →
  expectedPairs annotationKey hash (w :: items)
    = (setAnnotation w annotationKey hash, w)
        :: expectedPairs annotationKey hash items.
Proof.
  intros Hne. unfold expectedPairs, needsPatch. simpl.
  apply String.eqb_neq in Hne. by rewrite Hne.
Qed.

(** The loop over the listed workloads sends nothing but patches of its
    kind, and those in the order of the list. *)
Lemma wp_patchItems_pairs (k : WorkloadKind) (items : list Workload)
    (annotationKey hash : string) :
  wp (patchItems k items annotationKey hash)
     (fun res t =>
        Forall (fun ev => evOp ev = OpPatch k ∧ ∀ r req, inScope r req ev) t ∧
        patchPairsOf k t `prefix_of` expectedPairs annotationKey hash items ∧
        (res = None →
         patchPairsOf k t = expectedPairs annotationKey hash items)).
Proof.
  induction items as [|w items IH].
  { cbn. split; [constructor|]. split; [apply prefix_nil|done]. }
  cbn [patchItems].
  destruct (decide (annotation w annotationKey = hash)) as [He|Hne].
  - rewrite (patchWorkloadHash_current _ _ _ _ He).
    rewrite (expectedPairs_skip _ _ _ _ He).
    cbn [mbind Prog_bind bind snd]. apply IH.
  - rewrite (patchWorkloadHash_set _ _ _ _ Hne).
    rewrite (expectedPairs_cons _ _ _ _ Hne).
    cbn [mbind Prog_bind bind snd wp]. intros [err|].
    + cbn [wp mret Prog_ret]. split; [|split].
      * repeat constructor.
      * unfold patchPairsOf. cbn. rewrite Nat.eqb_refl.
        apply prefix_cons, prefix_nil.
      * done.
    + eapply wp_mono; [|apply IH]. cbn beta.
      intros res t (Hall & Hpre & Heq). split; [|split].
      * constructor; [|done]. by split.
      * unfold patchPairsOf in *. cbn. rewrite Nat.eqb_refl.
        by apply prefix_cons.
      * intros Hres. unfold patchPairsOf in *. cbn. rewrite Nat.eqb_refl.
        f_equal. by apply Heq.
Qed.

Lemma patch_event_quiet (k : WorkloadKind) (ev : Event) :
  evOp ev = OpPatch k →
  listedConfigMaps ev = None ∧ listedSecrets ev = None ∧
  ∀ k', listedWorkloads k' ev = None.
Proof. destruct ev as [X c x]. unfold evOp. by destruct c. Qed.

Lemma patch_event_other (k k' : WorkloadKind) (t : list Event) :
  k' ≠ k → Forall (fun ev => evOp ev = OpPatch k) t → patchPairsOf k' t = [].
Proof.
  intros Hne Hall. apply omap_None. eapply Forall_impl; [exact Hall|].
  intros [X c x]. unfold evOp. destruct c; try done. simpl.
  intros [= ->]. by rewrite kindIndex_ne.
Qed.

(** One kind of workload: the list call, then the patches. *)
Lemma wp_patchWorkloads_summary (j : WorkloadKind) (r : ConfigMapReconciler)
    (req : NamespacedName) (hash : string) :
  wp (patchWorkloads j r (keyNamespace req) hash)
     (fun res t =>
        Forall (inScope r req) t ∧
        omap listedConfigMaps t = [] ∧ omap listedSecrets t = [] ∧
        (∀ k, k ≠ j → Untouched k t) ∧
        KindSummary j (ConfigHashAnnotation r) hash res t).
Proof.
  unfold patchWorkloads. cbn [mbind Prog_bind bind call wp].
  intros [items|err].
  - eapply wp_mono; [|apply wp_patchItems_pairs]. cbn beta.
    intros res t (Hall & Hpre & Heq).
    assert (Hops : Forall (fun ev => evOp ev = OpPatch j) t).
    { eapply Forall_impl; [exact Hall|]. by intros ev [? _]. }
    assert (Hq : ∀ {B} (f : Event → option B),
               (∀ ev, evOp ev = OpPatch j → f ev = None) → omap f t = []).
    { intros B f Hf. apply omap_None. eapply Forall_impl; [exact Hops|].
      exact Hf. }
    split; [|split; [|split; [|split]]].
    + constructor; [by split|]. eapply Forall_impl; [exact Hall|].
      intros ev [_ Hs]. apply Hs.
    + cbn. apply Hq. intros ev Hev. by apply (patch_event_quiet j).
    + cbn. apply Hq. intros ev Hev. by apply (patch_event_quiet j).
    + intros k Hk. split.
      * cbn. rewrite kindIndex_ne by done. apply Hq.
        intros ev Hev. by apply (patch_event_quiet j).
      * unfold patchPairsOf. cbn. by apply (patch_event_other j).
    + right. exists items. split; [|split].
      * cbn. rewrite Nat.eqb_refl. f_equal. apply Hq.
        intros ev Hev. by apply (patch_event_quiet j).
      * exact Hpre.
      * exact Heq.
  - cbn [wp mret Prog_ret]. split; [|split; [|split; [|split]]].
    + by repeat constructor.
    + done.
    + done.
    + intros k _. by split.
    + left. by split.
Qed.

Lemma wp_then_cases (p q : Prog (option Error))
    (P Q : option Error → list Event → Prop) :
  wp p P → wp q Q →
  wp (err ← p; match err with
               | Some err => mret (Some err)
               | None => q
               end)
     (fun res t =>
        (∃ err, res = Some err ∧ P (Some err) t) ∨
        (∃ t1 t2, t = t1 ++ t2 ∧ P None t1 ∧ Q res t2)).
Proof.
  intros Hp Hq. apply wp_bind. eapply wp_mono; [|exact Hp].
  intros [err|] t1 Ht1.
  - cbn [wp mret Prog_ret]. left. rewrite app_nil_r. eauto.
  - eapply wp_mono; [|exact Hq]. intros res t2 Ht2. right. eauto.
Qed.

Lemma Untouched_app (k : WorkloadKind) (t1 t2 : list Event) :
  Untouched k t1 → Untouched k t2 → Untouched k (t1 ++ t2).
Proof.
  unfold Untouched, patchPairsOf. intros [H1 H2] [H3 H4].
  by rewrite !omap_app, H1, H2, H3, H4.
Qed.

Lemma Untouched_nil (k : WorkloadKind) : Untouched k [].
Proof. by split. Qed.

Lemma KindSummary_after (k : WorkloadKind) (annotationKey hash : string)
    (res : option Error) (t1 t2 : list Event) :
  Untouched k t1 → KindSummary k annotationKey hash res t2 →
  KindSummary k annotationKey hash res (t1 ++ t2).
Proof.
  intros [H1 H2] [[[H3 H4] Hres]|(items & Hl & Hpre & Heq)].
  - left. split; [|done]. by apply Untouched_app.
  - right. exists items. unfold patchPairsOf in *.
    by rewrite !omap_app, H1, H2.
Qed.

Lemma KindSummary_before (k : WorkloadKind) (annotationKey hash : string)
    (res : option Error) (t1 t2 : list Event) :
  KindSummary k annotationKey hash None t1 → Untouched k t2 →
  KindSummary k annotationKey hash res (t1 ++ t2).
Proof.
  intros [[_ Hres]|(items & Hl & Hpre & Heq)] [H1 H2]; [done|].
  right. exists items. unfold patchPairsOf in *.
  rewrite !omap_app, H1, H2, !app_nil_r, Hl, Heq by done. done.
Qed.

Lemma KindSummary_failed (k : WorkloadKind) (annotationKey hash : string)
    (err : Error) (t : list Event) :
  Untouched k t → KindSummary k annotationKey hash (Some err) t.
Proof. intros H. left. by split. Qed.

(** The three kinds in a row. *)
Lemma wp_patchAll_summary (r : ConfigMapReconciler) (req : NamespacedName)
    (hash : string) :
  wp (err ← patchDeployments r (keyNamespace req) hash;
      match err with
      | Some err => mret (Some err)
      | None =>
          err ← patchDaemonSets r (keyNamespace req) hash;
          match err with
          | Some err => mret (Some err)
          | None =>
              err ← patchStatefulSets r (keyNamespace req) hash;
              match err with
              | Some err => mret (Some err)
              | None => mret None
              end
          end
      end)
     (fun res t =>
        Forall (inScope r req) t ∧
        omap listedConfigMaps t = [] ∧ omap listedSecrets t = [] ∧
        ∀ k, KindSummary k (ConfigHashAnnotation r) hash res t).
Proof.
  assert (Hlast : wp (mret None : Prog (option Error))
                     (fun res t => res = None ∧ t = [])) by done.
  pose proof (wp_then_cases _ _ _ _
                (wp_patchWorkloads_summary StatefulSet r req hash) Hlast) as H3.
  pose proof (wp_then_cases _ _ _ _
                (wp_patchWorkloads_summary DaemonSet r req hash) H3) as H2.
  pose proof (wp_then_cases _ _ _ _
                (wp_patchWorkloads_summary Deployment r req hash) H2) as H1.
  eapply wp_mono; [|exact H1]. clear H1 H2 H3 Hlast. cbn beta.
  intros res t
    [(err & -> & Hs1 & Hc1 & Hsec1 & Hu1 & Hk1)
    |(t1 & t' & -> & (Hs1 & Hc1 & Hsec1 & Hu1 & Hk1) & H)].
  { split; [done|]. split; [done|]. split; [done|].
    intros k. destruct k; [done|by apply KindSummary_failed, Hu1..]. }
  destruct H
    as [(err & -> & Hs2 & Hc2 & Hsec2 & Hu2 & Hk2)
       |(t2 & t'' & -> & (Hs2 & Hc2 & Hsec2 & Hu2 & Hk2) & H)].
  { split; [by apply Forall_app|].
    split; [by rewrite omap_app, Hc1, Hc2|].
    split; [by rewrite omap_app, Hsec1, Hsec2|].
    intros k. destruct k.
    - apply KindSummary_before; [done|]. by apply Hu2.
    - apply KindSummary_after; [|done]. by apply Hu1.
    - apply KindSummary_failed, Untouched_app; [by apply Hu1|by apply Hu2]. }
  destruct H
    as [(err & -> & Hs3 & Hc3 & Hsec3 & Hu3 & Hk3)
       |(t3 & t4 & -> & (Hs3 & Hc3 & Hsec3 & Hu3 & Hk3) & -> & ->)].
  { split; [rewrite !Forall_app; auto|].
    split; [by rewrite !omap_app, Hc1, Hc2, Hc3|].
    split; [by rewrite !omap_app, Hsec1, Hsec2, Hsec3|].
    intros k. destruct k.
    - apply KindSummary_before; [done|].
      apply Untouched_app; [by apply Hu2|by apply Hu3].
    - apply KindSummary_after; [by apply Hu1|].
      apply KindSummary_before; [done|]. by apply Hu3.
    - apply KindSummary_after; [by apply Hu1|].
      apply KindSummary_after; [by apply Hu2|]. done. }
  rewrite app_nil_r.
  split; [rewrite !Forall_app; auto|].
  split; [by rewrite !omap_app, Hc1, Hc2, Hc3|].
  split; [by rewrite !omap_app, Hsec1, Hsec2, Hsec3|].
  intros k. destruct k.
  - apply KindSummary_before; [done|].
    apply Untouched_app; [by apply Hu2|by apply Hu3].
  - apply KindSummary_after; [by apply Hu1|].
    apply KindSummary_before; [done|]. by apply Hu3.
  - apply KindSummary_after; [by apply Hu1|].
    apply KindSummary_after; [by apply Hu2|]. done.
Qed.

Lemma PassSummary_cons (r : ConfigMapReconciler) (res : option Error)
    (ev : Event) (t : list Event) :
  isGetOp (evOp ev) = true → PassSummary r res t → PassSummary r res (ev :: t).
Proof.
  intros Hget.
  assert (Hc : listedConfigMaps ev = None ∧ listedSecrets ev = None ∧
               (∀ k, listedWorkloads k ev = None) ∧
               ∀ k, patchPairsOf k [ev] = []).
  { destruct ev as [X c x]. unfold evOp in Hget. by destruct c. }
  destruct Hc as (Hc1 & Hc2 & Hc3 & Hc4).
  assert (Hu : ∀ k t', Untouched k t' → Untouched k (ev :: t')).
  { intros k t' Ht'. apply (Untouched_app k [ev] t'); [|done].
    split; [|apply Hc4]. cbn. by rewrite Hc3. }
  assert (Hk : ∀ k a h t', KindSummary k a h res t' →
                           KindSummary k a h res (ev :: t')).
  { intros k a h t' Ht'. apply (KindSummary_after k a h res [ev] t'); [|done].
    split; [|apply Hc4]. cbn. by rewrite Hc3. }
  intros [([Hl|Hl] & Hres & Hun)|(cms & secs & Hl1 & Hl2 & H)].
  - left. split; [left; cbn; by rewrite Hc1|]. split; [done|]. auto.
  - left. split; [right; cbn; by rewrite Hc2|]. split; [done|]. auto.
  - right. exists cms, secs. cbn. rewrite Hc1, Hc2.
    split; [done|]. split; [done|].
    destruct H as [(HG & Hres & Hun)|(HG & Hks)]; [left|right]; auto.
Qed.

Lemma wp_reconcileNamespace_summary (r : ConfigMapReconciler)
    (req : NamespacedName) :
  wp (reconcileNamespace r (keyNamespace req))
     (fun res t => Forall (inScope r req) t ∧ PassSummary r res t).
Proof.
  unfold reconcileNamespace, computeCombinedHash.
  intros [cms|err1].
  2: { cbn [wp mret Prog_ret mbind Prog_bind bind call].
       split; [by repeat constructor|]. left.
       split; [by left|]. split; [done|]. intros k. by split. }
  intros [secs|err2].
  2: { cbn [wp mret Prog_ret mbind Prog_bind bind call].
       split; [by repeat constructor|]. left.
       split; [by right|]. split; [done|]. intros k. by split. }
  cbn [wp mret Prog_ret mbind Prog_bind bind call].
  destruct (String.eqb _ _) eqn:Ehash.
  - cbn [wp mret Prog_ret]. split; [by repeat constructor|].
    right. exists cms, secs. split; [done|]. split; [done|]. left.
    apply String.eqb_eq in Ehash. split; [done|]. split; [done|].
    intros k. by split.
  - eapply wp_mono; [|apply wp_patchAll_summary]. cbn beta.
    intros res t (Hs & Hc & Hsec & Hks).
    split; [by repeat constructor|].
    right. exists cms, secs. cbn. rewrite Hc, Hsec.
    split; [done|]. split; [done|]. right.
    apply String.eqb_neq in Ehash. split; [done|].
    intros k.
    apply (KindSummary_after k _ _ res [_; _] t); [by split|apply Hks].
Qed.

(** Every run of the generalized [Reconcile], whatever the client
    replies, stays within its reach and is summed up by [PassSummary]. *)
Lemma wp_Reconcile_summary (r : ConfigMapReconciler) (req : NamespacedName) :
  wp (Reconcile r req)
     (fun res t => Forall (inScope r req) t ∧ PassSummary r res t).
Proof.
  assert (Hfail : ∀ err, PassSummary r (Some err) []).
  { intros err. left. split; [by left|]. split; [done|].
    intros k. apply Untouched_nil. }
  unfold Reconcile. intros [cfg|err].
  { cbn [wp mret Prog_ret mbind Prog_bind bind call].
    eapply wp_mono; [|apply wp_reconcileNamespace_summary]. cbn beta.
    intros res t [Hs Hp]. split; [by constructor|].
    by apply PassSummary_cons. }
  cbn [wp mret Prog_ret mbind Prog_bind bind call].
  destruct (IsNotFound err); cbn [negb].
  2: { cbn [wp mret Prog_ret]. split; [by repeat constructor|].
       by apply PassSummary_cons. }
  intros [sec|err2].
  { eapply wp_mono; [|apply wp_reconcileNamespace_summary]. cbn beta.
    intros res t [Hs Hp]. split; [by repeat constructor|].
    by repeat apply PassSummary_cons. }
  destruct (IsNotFound err2); cbn [negb].
  2: { cbn [wp mret Prog_ret]. split; [by repeat constructor|].
       by repeat apply PassSummary_cons. }
  eapply wp_mono; [|apply wp_reconcileNamespace_summary]. cbn beta.
  intros res t [Hs Hp]. split; [by repeat constructor|].
  by repeat apply PassSummary_cons.
Qed.

Lemma omap_singleton_elem {A B : Type} (f : A → option B) (l : list A) (b : B) :
  omap f l = [b] → ∃ a, a ∈ l ∧ f a = Some b.
Proof.
  intros H. apply list_elem_of_omap. rewrite H. apply list_elem_of_here.
Qed.

(** X14.  The reach of a pass.  Whatever the client replies, a pass of the
    generalized [Reconcile] gets no object but the one that triggered it,
    lists only in the namespace of the trigger and only under the selector
    of the reconciler, and sends no patch that changes the name, the
    namespace or the labels of a workload. *)
Theorem Reconcile_stays_in_scope :
  ∀ (St : Type) (client : Client St) (r : ConfigMapReconciler)
    (req : NamespacedName) (s : St),
    Forall (inScope r req) (run (Reconcile r req) s).2.
Proof.
  intros St client r req s.
  exact (proj1 (wp_run _ _ St client s (wp_Reconcile_summary r req))).
Qed.

(** X15.  What a pass writes.  Whatever the client replies, the patches
    of kind [k] in a pass of the generalized [Reconcile] are none at all,
    or an initial stretch of the expected ones: the pass has listed the
    ConfigMaps, the Secrets and the workloads of kind [k], the aggregate
    of the listed sources is not empty, and the patches go, in the order
    of the list and without a gap, to the listed workloads that are not at
    the aggregate, each with the aggregate set under the annotation key
    and the workload as listed for the merge base. *)
Theorem Reconcile_patches_sound :
  ∀ (St : Type) (client : Client St) (r : ConfigMapReconciler)
    (req : NamespacedName) (s : St) (k : WorkloadKind),
    patchPairsOf k (run (Reconcile r req) s).2 = [] ∨
    ∃ cms secs items,
      (∃ ev, ev ∈ (run (Reconcile r req) s).2 ∧
             listedConfigMaps ev = Some cms) ∧
      (∃ ev, ev ∈ (run (Reconcile r req) s).2 ∧
             listedSecrets ev = Some secs) ∧
      (∃ ev, ev ∈ (run (Reconcile r req) s).2 ∧
             listedWorkloads k ev = Some items) ∧
      hashConfigSources cms secs (IgnoredConfigMapKeys r)
        (IgnoredSecretKeys r) ≠ "" ∧
      patchPairsOf k (run (Reconcile r req) s).2
        `prefix_of`
        expectedPairs (ConfigHashAnnotation r)
          (hashConfigSources cms secs (IgnoredConfigMapKeys r)
             (IgnoredSecretKeys r))
          items.
Proof.
  intros St client r req s k.
  destruct (wp_run _ _ St client s (wp_Reconcile_summary r req))
    as [_ [(_ & _ & Hun)|(cms & secs & Hc & Hs & H)]].
  { left. apply Hun. }
  destruct H as [(_ & _ & Hun)|(HG & Hks)]; [left; apply Hun|].
  destruct (Hks k) as [[[_ Hnone] _]|(items & Hl & Hpre & _)]; [by left|].
  right. exists cms, secs, items.
  split; [by apply omap_singleton_elem|].
  split; [by apply omap_singleton_elem|].
  split; [by apply omap_singleton_elem|]. by split.
Qed.

(** X16.  What a successful pass has done.  When a pass of the generalized
    [Reconcile] returns no error it has listed the ConfigMaps and the
    Secrets; and either their aggregate is empty and it has sent no patch,
    or it has listed each of the three kinds of workload and sent exactly
    the expected patches of that kind: one for every listed workload that
    was not at the aggregate, none for the others. *)
Theorem Reconcile_success_complete :
  ∀ (St : Type) (client : Client St) (r : ConfigMapReconciler)
    (req : NamespacedName) (s : St),
    (run (Reconcile r req) s).1.1 = None →
    ∃ cms secs,
      (∃ ev, ev ∈ (run (Reconcile r req) s).2 ∧
             listedConfigMaps ev = Some cms) ∧
      (∃ ev, ev ∈ (run (Reconcile r req) s).2 ∧
             listedSecrets ev = Some secs) ∧
      ((hashConfigSources cms secs (IgnoredConfigMapKeys r)
          (IgnoredSecretKeys r) = "" ∧
        ∀ k, patchPairsOf k (run (Reconcile r req) s).2 = []) ∨
       (hashConfigSources cms secs (IgnoredConfigMapKeys r)
          (IgnoredSecretKeys r) ≠ "" ∧
        ∀ k, ∃ items,
          (∃ ev, ev ∈ (run (Reconcile r req) s).2 ∧
                 listedWorkloads k ev = Some items) ∧
          patchPairsOf k (run (Reconcile r req) s).2
            = expectedPairs (ConfigHashAnnotation r)
                (hashConfigSources cms secs (IgnoredConfigMapKeys r)
                   (IgnoredSecretKeys r))
                items)).
Proof.
  intros St client r req s Hres.
  destruct (wp_run _ _ St client s (wp_Reconcile_summary r req))
    as [_ [(_ & Hne & _)|(cms & secs & Hc & Hs & H)]]; [done|].
  exists cms, secs.
  split; [by apply omap_singleton_elem|].
  split; [by apply omap_singleton_elem|].
  destruct H as [(HG & _ & Hun)|(HG & Hks)].
  - left. split; [done|]. intros k. apply Hun.
  - right. split; [done|]. intros k.
    destruct (Hks k) as [[_ Hne]|(items & Hl & _ & Heq)]; [done|].
    exists items. split; [by apply omap_singleton_elem|]. by apply Heq.
Qed.

(** X16 on the sample namespace. *)
Lemma Reconcile_success_complete_witness :
  generalizedRun.1.1 = None ∧
  ∃ cms secs,
    (∃ ev, ev ∈ generalizedRun.2 ∧ listedConfigMaps ev = Some cms) ∧
    (∃ ev, ev ∈ generalizedRun.2 ∧ listedSecrets ev = Some secs) ∧
    ((hashConfigSources cms secs None None = "" ∧
      ∀ k, patchPairsOf k generalizedRun.2 = []) ∨
     (hashConfigSources cms secs None None ≠ "" ∧
      ∀ k, ∃ items,
        (∃ ev, ev ∈ generalizedRun.2 ∧ listedWorkloads k ev = Some items) ∧
        patchPairsOf k generalizedRun.2
          = expectedPairs "synapse.gen0sec.com/config-hash"
              (hashConfigSources cms secs None None) items)).
Proof.
  assert (H : generalizedRun.1.1 = None) by (vm_compute; reflexivity).
  split; [exact H|].
  exact (Reconcile_success_complete Cluster _ defaultReconciler appKey
           (sampleCluster noFaults) H).
Defined.

(** ** Convergence on the in-memory store *)

Lemma sameBut_refl (k : WorkloadKind) (cl : Cluster) : sameBut k cl cl.
Proof. by repeat split. Qed.

Lemma sameBut_trans (k : WorkloadKind) (cl1 cl2 cl3 : Cluster) :
  sameBut k cl1 cl2 → sameBut k cl2 cl3 → sameBut k cl1 cl3.
Proof.
  intros (H1 & H2 & H3 & H4) (H5 & H6 & H7 & H8).
  split; [congruence|]. split; [congruence|]. split; [congruence|].
  intros k' Hk. by rewrite H8, H4.
Qed.

Lemma workloadsOf_setWorkloads (k : WorkloadKind) (ws : list Workload)
    (cl : Cluster) :
  workloadsOf k (setWorkloads k ws cl) = ws.
Proof. by destruct k. Qed.

Lemma sameBut_patchStored (k : WorkloadKind) (obj original : Workload)
    (cl : Cluster) :
  sameBut k cl (patchStored k obj original cl).2.
Proof.
  unfold patchStored. destruct (existsb _ _); [|apply sameBut_refl].
  cbn [snd]. split; [by destruct k|]. split; [by destruct k|].
  split; [by destruct k|]. intros k' Hk. by destruct k, k'.
Qed.

Lemma hasKey_keyOf (m1 m2 : ObjectMeta) :
  Namespace m1 = Namespace m2 → Name m1 = Name m2 →
  hasKey (keyOf m1) m2 = true.
Proof.
  intros H1 H2. unfold hasKey, keyOf. simpl.
  by rewrite H1, H2, !String.eqb_refl.
Qed.

(** The loop over the listed workloads leaves the store settled. *)
Lemma run_patchItems_settles (k : WorkloadKind) (namespace : string)
    (sel : Selector) (annotationKey hash : string) (rest : list Workload)
    (cl : Cluster) :
  faults cl (OpPatch k) = None →
  Present k rest cl →
  Pending k namespace sel annotationKey hash rest cl →
  (run (patchItems k rest annotationKey hash) cl).1.1 = None ∧
  Settled k namespace sel annotationKey hash
    (run (patchItems k rest annotationKey hash) cl).1.2 ∧
  sameBut k cl (run (patchItems k rest annotationKey hash) cl).1.2.
Proof.
  revert cl. induction rest as [|item rest IH]; intros cl Hf Hp Hpend.
  { cbn. split; [done|]. split; [|apply sameBut_refl].
    intros w Hw Hl. destruct (Hpend w Hw Hl) as [H|(x & Hx & _)]; [done|].
    by apply elem_of_nil in Hx. }
  cbn [patchItems]. rewrite run_bind.
  assert (Hitem : Present k [item] cl).
  { intros x Hx. apply Hp. apply list_elem_of_singleton in Hx as ->. by left. }
  assert (Hrest : Present k rest cl) by (intros x Hx; apply Hp; by right).
  destruct (decide (annotation item annotationKey = hash)) as [He|Hne].
  - rewrite (patchWorkloadHash_current _ _ _ _ He). cbn [run snd].
    assert (Hpend' : Pending k namespace sel annotationKey hash rest cl).
    { intros w Hw Hl. destruct (Hpend w Hw Hl) as [H|(x & Hx & Hm & Hx')];
        [by left|].
      apply elem_of_cons in Hx as [->|Hx]; [done|]. right. eauto. }
    specialize (IH cl Hf Hrest Hpend').
    destruct (run (patchItems k rest annotationKey hash) cl) as [[res s2] t2].
    exact IH.
  - rewrite (patchWorkloadHash_set _ _ _ _ Hne).
    cbn [run perform Cluster_client clusterPerform]. rewrite Hf.
    pose proof (Present_patchStored k rest
                  (setAnnotation item annotationKey hash) item cl Hrest) as Hp'.
    pose proof (sameBut_patchStored k
                  (setAnnotation item annotationKey hash) item cl) as Hsame.
    assert (Hex : existsb (fun w => hasKey (keyOf (wMeta item)) (wMeta w))
                          (workloadsOf k cl) = true)
      by (apply Hitem; by left).
    assert (Hstep : (patchStored k (setAnnotation item annotationKey hash)
                       item cl).1 = None ∧
                    Pending k namespace sel annotationKey hash rest
                      (patchStored k (setAnnotation item annotationKey hash)
                         item cl).2).
    { unfold patchStored.
      change (wMeta (setAnnotation item annotationKey hash))
        with (wMeta item).
      rewrite Hex. cbn [fst snd]. split; [done|].
      intros w' Hw' Hl'. rewrite workloadsOf_setWorkloads in Hw'.
      apply list_elem_of_fmap in Hw' as (w & -> & Hw).
      destruct (hasKey (keyOf (wMeta item)) (wMeta w)) eqn:Ekey.
      - left. by apply annotation_applyMergePatch.
      - destruct (Hpend w Hw Hl') as [H|(x & Hx & Hm & Hx')]; [by left|].
        apply elem_of_cons in Hx as [->|Hx].
        + rewrite hasKey_keyOf in Ekey by (by rewrite Hm). discriminate Ekey.
        + right. eauto. }
    destruct Hstep as [Hok Hpend'].
    destruct (patchStored k (setAnnotation item annotationKey hash) item cl)
      as [err cl1]. cbn [fst snd] in *. subst err.
    assert (Hf1 : faults cl1 (OpPatch k) = None).
    { destruct Hsame as (_ & _ & -> & _). exact Hf. }
    specialize (IH cl1 Hf1 Hp' Hpend').
    destruct (run (patchItems k rest annotationKey hash) cl1)
      as [[res s2] t2].
    cbn [fst snd] in *. destruct IH as (Hres & Hset & Hsame2).
    split; [done|]. split; [done|]. by apply (sameBut_trans k cl cl1).
Qed.

(** On a settled store the loop sends nothing. *)
Lemma run_patchItems_current (k : WorkloadKind) (annotationKey hash : string)
    (items : list Workload) (cl : Cluster) :
  Forall (fun w => annotation w annotationKey = hash) items →
  run (patchItems k items annotationKey hash) cl = (None, cl, []).
Proof.
  induction 1 as [|w items Hw _ IH]; [done|].
  cbn [patchItems]. rewrite run_bind.
  rewrite (patchWorkloadHash_current _ _ _ _ Hw). cbn [run snd].
  by rewrite IH.
Qed.

Lemma run_patchWorkloads_settles (k : WorkloadKind) (r : ConfigMapReconciler)
    (namespace hash : string) (cl : Cluster) :
  (∀ o, faults cl o = None) →
  (run (patchWorkloads k r namespace hash) cl).1.1 = None ∧
  Settled k namespace (selector r) (ConfigHashAnnotation r) hash
    (run (patchWorkloads k r namespace hash) cl).1.2 ∧
  sameBut k cl (run (patchWorkloads k r namespace hash) cl).1.2.
Proof.
  intros Hf. unfold patchWorkloads.
  cbn [mbind Prog_bind bind call run perform Cluster_client clusterPerform].
  rewrite Hf.
  destruct (run_patchItems_settles k namespace (selector r)
              (ConfigHashAnnotation r) hash
              (listFrom wMeta namespace (selector r) (workloadsOf k cl)) cl)
    as (Hres & Hset & Hsame).
  - apply Hf.
  - apply Present_listFrom.
  - intros w Hw Hl.
    destruct (decide (annotation w (ConfigHashAnnotation r) = hash))
      as [He|Hne]; [by left|].
    right. exists w. split; [|done].
    apply list_elem_of_In, filter_In. split; [by apply list_elem_of_In|done].
  - destruct (run (patchItems k _ _ _) cl) as [[res s2] t2]. done.
Qed.

Lemma run_patchWorkloads_settled (k : WorkloadKind) (r : ConfigMapReconciler)
    (namespace hash : string) (cl : Cluster) :
  (∀ o, faults cl o = None) →
  Settled k namespace (selector r) (ConfigHashAnnotation r) hash cl →
  (run (patchWorkloads k r namespace hash) cl).1 = (None, cl) ∧
  Forall (fun ev => isPatch ev = false)
         (run (patchWorkloads k r namespace hash) cl).2.
Proof.
  intros Hf Hset. unfold patchWorkloads.
  cbn [mbind Prog_bind bind call run perform Cluster_client clusterPerform].
  rewrite Hf. rewrite run_patchItems_current.
  - split; [done|]. by repeat constructor.
  - apply Forall_forall. intros w Hw.
    apply list_elem_of_In, filter_In in Hw as [Hw Hl].
    apply Hset; [by apply list_elem_of_In|done].
Qed.

Lemma run_then (p q : Prog (option Error)) (St : Type) (client : Client St)
    (s : St) :
  run (err ← p; match err with
                | Some err => mret (Some err)
                | None => q
                end) s
  = match run p s with
    | (Some err, s1, t1) => (Some err, s1, t1)
    | (None, s1, t1) =>
        let '(res, s2, t2) := run q s1 in (res, s2, t1 ++ t2)
    end.
Proof.
  rewrite run_bind. destruct (run p s) as [[[err|] s1] t1]; [|done].
  cbn. by rewrite app_nil_r.
Qed.

Lemma Settled_sameBut (k k' : WorkloadKind) (namespace : string)
    (sel : Selector) (annotationKey hash : string) (cl cl' : Cluster) :
  k' ≠ k → sameBut k cl cl' →
  Settled k' namespace sel annotationKey hash cl →
  Settled k' namespace sel annotationKey hash cl'.
Proof.
  intros Hk (_ & _ & _ & Hw) Hset w Hin. rewrite (Hw k' Hk) in Hin.
  by apply Hset.
Qed.

(** The three kinds in a row, on a store without faults. *)
Lemma run_patchAll_settles (r : ConfigMapReconciler) (namespace hash : string)
    (cl : Cluster) :
  (∀ o, faults cl o = None) →
  ∃ cl' t,
    run (err ← patchDeployments r namespace hash;
         match err with
         | Some err => mret (Some err)
         | None =>
             err ← patchDaemonSets r namespace hash;
             match err with
             | Some err => mret (Some err)
             | None =>
                 err ← patchStatefulSets r namespace hash;
                 match err with
                 | Some err => mret (Some err)
                 | None => mret None
                 end
             end
         end) cl = (None, cl', t) ∧
    (∀ k, Settled k namespace (selector r) (ConfigHashAnnotation r) hash cl') ∧
    configMaps cl' = configMaps cl ∧ secrets cl' = secrets cl ∧
    faults cl' = faults cl.
Proof.
  intros Hf. rewrite run_then.
  destruct (run_patchWorkloads_settles Deployment r namespace hash cl Hf)
    as (Hr1 & Hs1 & Hb1).
  unfold patchDeployments.
  destruct (run (patchWorkloads Deployment r namespace hash) cl)
    as [[res1 cl1] t1]. cbn [fst snd] in *. subst res1.
  assert (Hf1 : ∀ o, faults cl1 o = None).
  { intros o. destruct Hb1 as (_ & _ & -> & _). apply Hf. }
  rewrite run_then.
  destruct (run_patchWorkloads_settles DaemonSet r namespace hash cl1 Hf1)
    as (Hr2 & Hs2 & Hb2).
  unfold patchDaemonSets.
  destruct (run (patchWorkloads DaemonSet r namespace hash) cl1)
    as [[res2 cl2] t2]. cbn [fst snd] in *. subst res2.
  assert (Hf2 : ∀ o, faults cl2 o = None).
  { intros o. destruct Hb2 as (_ & _ & -> & _). apply Hf1. }
  rewrite run_then.
  destruct (run_patchWorkloads_settles StatefulSet r namespace hash cl2 Hf2)
    as (Hr3 & Hs3 & Hb3).
  unfold patchStatefulSets.
  destruct (run (patchWorkloads StatefulSet r namespace hash) cl2)
    as [[res3 cl3] t3]. cbn [fst snd] in *. subst res3.
  cbn [run mret Prog_ret].
  exists cl3, (t1 ++ t2 ++ t3 ++ []). split; [done|].
  destruct Hb1 as (Hc1 & Hx1 & Hy1 & _). pose proof Hb2 as (Hc2 & Hx2 & Hy2 & _).
  pose proof Hb3 as (Hc3 & Hx3 & Hy3 & _).
  split; [|split; [congruence|split; congruence]].
  intros k. destruct k.
  - apply (Settled_sameBut StatefulSet Deployment _ _ _ _ cl2); [done..|].
    by apply (Settled_sameBut DaemonSet Deployment _ _ _ _ cl1).
  - by apply (Settled_sameBut StatefulSet DaemonSet _ _ _ _ cl2).
  - done.
Qed.

(** The three kinds in a row, on a store at rest. *)
Lemma run_patchAll_settled (r : ConfigMapReconciler) (namespace hash : string)
    (cl : Cluster) :
  (∀ o, faults cl o = None) →
  (∀ k, Settled k namespace (selector r) (ConfigHashAnnotation r) hash cl) →
  ∃ t,
    run (err ← patchDeployments r namespace hash;
         match err with
         | Some err => mret (Some err)
         | None =>
             err ← patchDaemonSets r namespace hash;
             match err with
             | Some err => mret (Some err)
             | None =>
                 err ← patchStatefulSets r namespace hash;
                 match err with
                 | Some err => mret (Some err)
                 | None => mret None
                 end
             end
         end) cl = (None, cl, t) ∧
    Forall (fun ev => isPatch ev = false) t.
Proof.
  intros Hf Hset. rewrite run_then.
  destruct (run_patchWorkloads_settled Deployment r namespace hash cl Hf
              (Hset Deployment)) as [Hr1 Ht1].
  unfold patchDeployments.
  destruct (run (patchWorkloads Deployment r namespace hash) cl)
    as [[res1 cl1] t1]. cbn [fst snd] in *. injection Hr1 as -> ->.
  rewrite run_then.
  destruct (run_patchWorkloads_settled DaemonSet r namespace hash cl Hf
              (Hset DaemonSet)) as [Hr2 Ht2].
  unfold patchDaemonSets.
  destruct (run (patchWorkloads DaemonSet r namespace hash) cl)
    as [[res2 cl2] t2]. cbn [fst snd] in *. injection Hr2 as -> ->.
  rewrite run_then.
  destruct (run_patchWorkloads_settled StatefulSet r namespace hash cl Hf
              (Hset StatefulSet)) as [Hr3 Ht3].
  unfold patchStatefulSets.
  destruct (run (patchWorkloads StatefulSet r namespace hash) cl)
    as [[res3 cl3] t3]. cbn [fst snd] in *. injection Hr3 as -> ->.
  cbn [run mret Prog_ret].
  exists (t1 ++ t2 ++ t3 ++ []). split; [done|].
  rewrite !Forall_app. auto.
Qed.

(** A pass on a store without faults, from the source lists on. *)
Lemma run_reconcileNamespace_cluster (r : ConfigMapReconciler)
    (req : NamespacedName) (cl : Cluster) :
  (∀ o, faults cl o = None) →
  ∃ cl' t,
    run (reconcileNamespace r (keyNamespace req)) cl = (None, cl', t) ∧
    configMaps cl' = configMaps cl ∧ secrets cl' = secrets cl ∧
    faults cl' = faults cl ∧
    (storedAggregate r req cl = "" →
     cl' = cl ∧ Forall (fun ev => isPatch ev = false) t) ∧
    (storedAggregate r req cl ≠ "" →
     ∀ k, Settled k (keyNamespace req) (selector r) (ConfigHashAnnotation r)
            (storedAggregate r req cl) cl') ∧
    ((∀ k, Settled k (keyNamespace req) (selector r) (ConfigHashAnnotation r)
             (storedAggregate r req cl) cl) →
     cl' = cl ∧ Forall (fun ev => isPatch ev = false) t).
Proof.
  intros Hf. unfold reconcileNamespace, computeCombinedHash.
  cbn [mbind Prog_bind bind call run perform Cluster_client clusterPerform
       mret Prog_ret].
  rewrite !Hf.
  cbn [mbind Prog_bind bind call run perform Cluster_client clusterPerform
       mret Prog_ret].
  rewrite !Hf.
  cbn [mbind Prog_bind bind call run perform Cluster_client clusterPerform
       mret Prog_ret].
  fold (storedAggregate r req cl).
  destruct (String.eqb (storedAggregate r req cl) "") eqn:EG.
  - apply String.eqb_eq in EG. cbn [run].
    eexists _, _. split; [reflexivity|].
    split; [done|]. split; [done|]. split; [done|].
    split; [intros _; split; [done|by repeat constructor]|].
    split; [done|]. intros _. split; [done|]. by repeat constructor.
  - apply String.eqb_neq in EG.
    destruct (run_patchAll_settles r (keyNamespace req)
                (storedAggregate r req cl) cl Hf)
      as (cl' & t & Hrun & Hset & Hc & Hs & Hfl).
    rewrite Hrun. eexists cl', _. split; [reflexivity|].
    split; [done|]. split; [done|]. split; [done|]. split; [done|].
    split; [done|]. intros Hall.
    destruct (run_patchAll_settled r (keyNamespace req)
                (storedAggregate r req cl) cl Hf Hall) as (t' & Hrun' & Hnop).
    rewrite Hrun in Hrun'. injection Hrun' as -> ->.
    split; [done|]. by repeat constructor.
Qed.

Lemma getFrom_cases {A : Type} (meta : A → ObjectMeta) (key : NamespacedName)
    (objs : list A) :
  (∃ o, getFrom meta key objs = Ok o) ∨ getFrom meta key objs = Err NotFound.
Proof. unfold getFrom. destruct (List.find _ _); eauto. Qed.

(** On a store without faults the lookup of the trigger decides nothing:
    the pass goes on to the source lists whether it finds a ConfigMap, a
    Secret or neither. *)
Lemma run_Reconcile_cluster (r : ConfigMapReconciler) (req : NamespacedName)
    (cl : Cluster) :
  (∀ o, faults cl o = None) →
  ∃ pre,
    Forall (fun ev => isPatch ev = false) pre ∧
    run (Reconcile r req) cl =
      ((run (reconcileNamespace r (keyNamespace req)) cl).1,
       pre ++ (run (reconcileNamespace r (keyNamespace req)) cl).2).
Proof.
  intros Hf. unfold Reconcile.
  cbn [mbind Prog_bind bind call run perform Cluster_client clusterPerform].
  rewrite !Hf.
  destruct (getFrom_cases cmMeta req (configMaps cl)) as [[cfg ->]| ->].
  { exists [mkEvent (GetConfigMap req) (Ok cfg)].
    split; [by repeat constructor|].
    by destruct (run (reconcileNamespace r (keyNamespace req)) cl)
      as [[res cl'] t]. }
  cbn [IsNotFound negb].
  cbn [mbind Prog_bind bind call run perform Cluster_client clusterPerform].
  rewrite !Hf.
  destruct (getFrom_cases secMeta req (secrets cl)) as [[sec ->]| ->].
  { exists [mkEvent (GetConfigMap req) (Err NotFound);
            mkEvent (GetSecret req) (Ok sec)].
    split; [by repeat constructor|].
    by destruct (run (reconcileNamespace r (keyNamespace req)) cl)
      as [[res cl'] t]. }
  cbn [IsNotFound negb].
  exists [mkEvent (GetConfigMap req) (Err NotFound);
          mkEvent (GetSecret req) (Err NotFound)].
  split; [by repeat constructor|].
  by destruct (run (reconcileNamespace r (keyNamespace req)) cl)
    as [[res cl'] t].
Qed.

(** X17.  Convergence.  On the in-memory store without injected failures a
    pass of the generalized [Reconcile] returns no error; when the
    aggregate of the stored sources is not empty, every stored workload of
    the three kinds that the selector matches in the namespace then carries
    that aggregate; and a second pass on the store the first one left
    returns no error, sends no patch and leaves that store as it is. *)
Theorem Reconcile_converges :
  ∀ (r : ConfigMapReconciler) (req : NamespacedName) (cl : Cluster),
    (∀ o, faults cl o = None) →
    (run (Reconcile r req) cl).1.1 = None ∧
    (storedAggregate r req cl ≠ "" →
     ∀ k, Settled k (keyNamespace req) (selector r) (ConfigHashAnnotation r)
            (storedAggregate r req cl) (run (Reconcile r req) cl).1.2) ∧
    (run (Reconcile r req) (run (Reconcile r req) cl).1.2).1
      = (None, (run (Reconcile r req) cl).1.2) ∧
    Forall (fun ev => isPatch ev = false)
           (run (Reconcile r req) (run (Reconcile r req) cl).1.2).2.
Proof.
  intros r req cl Hf.
  destruct (run_Reconcile_cluster r req cl Hf) as (pre & _ & ->).
  destruct (run_reconcileNamespace_cluster r req cl Hf)
    as (cl1 & t1 & -> & Hc & Hs & Hfl & Hempty & Hset & _).
  cbn [fst snd].
  assert (Hf1 : ∀ o, faults cl1 o = None) by (intros o; by rewrite Hfl).
  assert (HG : storedAggregate r req cl1 = storedAggregate r req cl)
    by (unfold storedAggregate; by rewrite Hc, Hs).
  split; [done|]. split; [done|].
  destruct (run_Reconcile_cluster r req cl1 Hf1) as (pre2 & Hpre2 & ->).
  destruct (run_reconcileNamespace_cluster r req cl1 Hf1)
    as (cl2 & t2 & -> & _ & _ & _ & Hempty2 & _ & Hrest).
  cbn [fst snd]. rewrite HG in Hempty2, Hrest.
  destruct (decide (storedAggregate r req cl = "")) as [HE|HE].
  - destruct (Hempty2 HE) as [-> Hnop]. split; [done|].
    apply Forall_app. by split.
  - destruct (Hrest (Hset HE)) as [-> Hnop]. split; [done|].
    apply Forall_app. by split.
Qed.

(** X17 on the sample namespace. *)
Lemma Reconcile_converges_witness :
  (∀ o, faults (sampleCluster noFaults) o = None) ∧
  generalizedRun.1.1 = None ∧
  (run (Reconcile defaultReconciler appKey) generalizedRun.1.2).1
    = (None, generalizedRun.1.2) ∧
  Forall (fun ev => isPatch ev = false)
         (run (Reconcile defaultReconciler appKey) generalizedRun.1.2).2.
Proof.
  assert (H : ∀ o, faults (sampleCluster noFaults) o = None)
    by (intros o; reflexivity).
  destruct (Reconcile_converges defaultReconciler appKey
              (sampleCluster noFaults) H) as (H1 & _ & H2 & H3).
  exact (conj H (conj H1 (conj H2 H3))).
Defined.

(** ** The ConfigMap-only reconciler *)



(** ** What the patch leaves alone *)

(** X19.  The merge patch that [patchDeploymentHash] and its two siblings
    send sets one annotation and nothing else: applied to the stored
    workload, whatever annotations that one has by then, it leaves the
    value, or the absence, of every other annotation key as it was, and
    the metadata too. *)
Theorem patch_touches_one_annotation :
  ∀ (w stored : Workload) (annotationKey hash other : string),
    other ≠ annotationKey →
    default ∅ (Annotations
                 (applyMergePatch w (setAnnotation w annotationKey hash)
                    stored)) !! other
      = default ∅ (Annotations stored) !! other ∧
    wMeta (applyMergePatch w (setAnnotation w annotationKey hash) stored)
      = wMeta stored.
Proof.
  intros w stored key hash other Hne.
  split; [|apply wMeta_applyMergePatch].
  assert (Hm : ∀ sa : gmap string string,
             mergeAnnotations (default ∅ (Annotations w))
               (<[key := hash]> (default ∅ (Annotations w))) sa !! other
             = sa !! other).
  { intros sa. unfold mergeAnnotations.
    set (orig := default ∅ (Annotations w)).
    assert (Hleft : filter (fun kv : string * string =>
                              orig !! kv.1 ≠ Some kv.2)
                           (<[key := hash]> orig) !! other = None).
    { apply map_lookup_filter_None. right. intros v Hv. simpl.
      rewrite lookup_insert_ne in Hv by done. by intros H. }
    destruct (sa !! other) as [v|] eqn:Esa.
    - apply lookup_union_Some_raw. right. split; [done|].
      apply map_lookup_filter_Some. split; [done|]. simpl.
      rewrite lookup_insert_ne by done.
      destruct (orig !! other); [right; eauto|by left].
    - apply lookup_union_None. split; [done|].
      apply map_lookup_filter_None. by left. }
  unfold applyMergePatch.
  change (default ∅ (Annotations (setAnnotation w key hash)))
    with (<[key := hash]> (default ∅ (Annotations w))).
  destruct (Annotations stored) as [a|] eqn:Ea.
  - cbn. apply Hm.
  - case_decide as Hempty.
    + by rewrite Ea.
    + cbn. apply Hm.
Qed.

(** X19 on a workload that gained an
    annotation after it was listed. *)
Lemma patch_touches_one_annotation_witness :
  annotation
    (applyMergePatch (sampleWorkload "web")
       (setAnnotation (sampleWorkload "web")
          "synapse.gen0sec.com/config-hash" sampleHash)
       (setAnnotation (sampleWorkload "web")
          "kubectl.kubernetes.io/restartedAt" "2024-05-01T10:00:00Z"))
    "kubectl.kubernetes.io/restartedAt"
  = "2024-05-01T10:00:00Z".
Proof.
  assert (H : "kubectl.kubernetes.io/restartedAt"
              ≠ "synapse.gen0sec.com/config-hash") by discriminate.
  destruct (patch_touches_one_annotation (sampleWorkload "web")
              (setAnnotation (sampleWorkload "web")
                 "kubectl.kubernetes.io/restartedAt" "2024-05-01T10:00:00Z")
              "synapse.gen0sec.com/config-hash" sampleHash
              "kubectl.kubernetes.io/restartedAt" H) as [Hsame _].
  unfold annotation, index. rewrite Hsame.
  cbn [setAnnotation withAnnotations Annotations default from_option id].
  by rewrite lookup_insert_eq.
Defined.
